(** * The hash-indexed recency chain of [perf_expire.py]

    A shallow embedding of [Node], [DoubleLinkedSet] and the benchmark
    subjects [DoubleLinked], which drives the index, and [DequeLog],
    which keeps a log instead, followed by the properties of the ordered
    index (chain order, splice, expiry sweep) and of the benchmark run.

    Python objects are mutated in place and indexing a dict with a missing
    key raises [KeyError]; both are kept: every method is a computation in
    a state monad whose outcome is a normal return or a raised exception,
    and the state at the point of the raise is kept.

    Keys are of any type with decidable equality that a dict can hold;
    what the methods need to know of a key besides equality is its Python
    truth value.  The benchmark draws integer keys with
    [random.randint(0, N)], so the falsy key [0] is among them.  Values
    are the integer timestamps of the benchmark.

    The file has three parts: the model, written from the source; the
    vocabulary of the statements (the chain as a list, sequences of calls,
    relations between states); the lemmas, with the statements about the
    specification after them, and then what the code shows beyond the
    specification. *)

From Stdlib Require Import ZArith Lia.
From stdpp Require Import gmap strings list fin_maps sorting.

Local Open Scope Z_scope.

(** ** Python truth value of a key

    The methods test ids with [if node.child_id:], [if self._tail_id:] and
    [if not self._head_id:].  Such a test is false for [None] and also for
    a key that is itself falsy: the integer [0], the empty string. *)

Class Truthy (K : Type) := truthy : K → bool.

#[global] Instance Z_truthy : Truthy Z := λ z, negb (z =? 0).

#[global] Instance string_truthy : Truthy string :=
  λ s, match s with EmptyString => false | String _ _ => true end.

(** ** Outcomes and the state monad

    [OutOfFuel] is the outcome of a loop that the model cut off; the two
    loops of the source are given the rounds they can take, and
    [cleanup_sessions] is proved never to end that way. *)

Inductive outcome (A : Type) : Type :=
  | Ok (a : A)
  | KeyError
  | OutOfFuel.
Arguments Ok {A} a.
Arguments KeyError {A}.
Arguments OutOfFuel {A}.

Definition M (S A : Type) : Type := S → outcome A * S.

#[global] Instance M_ret {S} : MRet (M S) := λ A a s, (Ok a, s).

#[global] Instance M_bind {S} : MBind (M S) := λ A B f c s,
  match c s with
  | (Ok a, s') => f a s'
  | (KeyError, s') => (KeyError, s')
  | (OutOfFuel, s') => (OutOfFuel, s')
  end.

Definition gets {S A} (f : S → A) : M S A := λ s, (Ok (f s), s).
Definition modify {S} (f : S → S) : M S unit := λ s, (Ok tt, f s).
Definition out_of_fuel {S A} : M S A := λ s, (OutOfFuel, s).

(** [if c: body] with no else branch. *)
Definition when {S} (c : bool) (body : M S unit) : M S unit :=
  if c then body else mret tt.

(** ** The data model *)

Section dlset.
Context {K : Type} `{Countable K} `{Truthy K}.

(** [class Node]: [__slots__ = ('id', 'value', 'parent_id', 'child_id')]. *)
Record Node : Type := mkNode {
  id : K;
  value : Z;
  parent_id : option K;
  child_id : option K
}.

(** [class DoubleLinkedSet]: the dict and the two end ids, [None] at first. *)
Record DoubleLinkedSet : Type := mkSet {
  _map : gmap K Node;
  _head_id : option K;
  _tail_id : option K
}.

(** [DoubleLinkedSet.__init__] *)
Definition __init__ : DoubleLinkedSet := mkSet ∅ None None.

(** The truth value of an id that may be [None]. *)
Definition is_true (o : option K) : bool :=
  match o with
  | Some k => truthy k
  | None => false
  end.

(** *** Dict and attribute accesses *)

(** [self._map[k]] read: raises when [k] is missing. *)
Definition map_getitem (k : K) : M DoubleLinkedSet Node := λ s,
  match _map s !! k with
  | Some n => (Ok n, s)
  | None => (KeyError, s)
  end.

(** [self._map[k] = n] *)
Definition map_setitem (k : K) (n : Node) : M DoubleLinkedSet unit :=
  modify (λ s, mkSet (<[k := n]> (_map s)) (_head_id s) (_tail_id s)).

(** [self._map.pop(k)] *)
Definition map_pop (k : K) : M DoubleLinkedSet Node := λ s,
  match _map s !! k with
  | Some n => (Ok n, mkSet (delete k (_map s)) (_head_id s) (_tail_id s))
  | None => (KeyError, s)
  end.

(** [self._map[k].parent_id = p]: the node object stored under [k] is
    updated in place. *)
Definition set_parent_id (k : K) (p : option K) : M DoubleLinkedSet unit :=
  n ← map_getitem k;
  map_setitem k (mkNode (id n) (value n) p (child_id n)).

(** [self._map[k].child_id = c] *)
Definition set_child_id (k : K) (c : option K) : M DoubleLinkedSet unit :=
  n ← map_getitem k;
  map_setitem k (mkNode (id n) (value n) (parent_id n) c).

Definition set_head_id (h : option K) : M DoubleLinkedSet unit :=
  modify (λ s, mkSet (_map s) h (_tail_id s)).

Definition set_tail_id (t : option K) : M DoubleLinkedSet unit :=
  modify (λ s, mkSet (_map s) (_head_id s) t).

(** *** The methods *)

(** The four statements that [add] (lines 149-156) and [unlink] (lines
    176-183) both run on the node they have just popped. *)
Definition splice (node_id : K) (node : Node) : M DoubleLinkedSet unit :=
  match child_id node with
  | Some c => when (truthy c) (set_parent_id c (parent_id node))
  | None => mret tt
  end;;
  match parent_id node with
  | Some p => when (truthy p) (set_child_id p (child_id node))
  | None => mret tt
  end;;
  hd ← gets _head_id;
  when (bool_decide (Some node_id = hd)) (set_head_id (child_id node));;
  tl ← gets _tail_id;
  when (bool_decide (Some node_id = tl)) (set_tail_id (parent_id node)).

(** [DoubleLinkedSet.add] *)
Definition add (node_id : K) (node_value : Z) : M DoubleLinkedSet unit :=
  m ← gets _map;
  node ← (if bool_decide (is_Some (m !! node_id)) then
            node ← map_pop node_id;
            splice node_id node;;
            tl ← gets _tail_id;
            mret (mkNode (id node) node_value tl None)
          else
            tl ← gets _tail_id;
            mret (mkNode node_id node_value tl None));
  map_setitem node_id node;;
  tl ← gets _tail_id;
  match tl with
  | Some t => when (truthy t) (set_child_id t (Some node_id))
  | None => mret tt
  end;;
  set_tail_id (Some node_id);;
  hd ← gets _head_id;
  when (negb (is_true hd)) (set_head_id (Some node_id)).

(** [DoubleLinkedSet.head]: the node, or [None] when the test on
    [_head_id] is false. *)
Definition head : M DoubleLinkedSet (option Node) :=
  hd ← gets _head_id;
  match hd with
  | Some h => if truthy h then n ← map_getitem h; mret (Some n) else mret None
  | None => mret None
  end.

(** [DoubleLinkedSet.unlink].  The method has no [return] statement, so a
    call evaluates to [None] on every path. *)
Definition unlink (node_id : K) : M DoubleLinkedSet (option Z) :=
  m ← gets _map;
  when (bool_decide (is_Some (m !! node_id)))
       (node ← map_pop node_id; splice node_id node);;
  mret None.

(** [DoubleLinkedSet.__iter__], collected as [list(self)].  [dict.get]
    gives [None] for a missing id and for [None]; the generator runs until
    then.  It is given as many rounds as the dict has keys, which is
    enough whenever it ends ([iter_from_enough] below); on a chain with a
    cycle it never ends: that is [None] here. *)
Fixpoint iter_from (fuel : nat) (m : gmap K Node) (cur : option K)
  : option (list Node) :=
  match cur ≫= (m !!.) with
  | None => Some []
  | Some node =>
      match fuel with
      | O => None
      | S fuel' => (node ::.) <$> iter_from fuel' m (child_id node)
      end
  end.

Definition __iter__ (s : DoubleLinkedSet) : option (list Node) :=
  iter_from (size (_map s)) (_map s) (_head_id s).

(** [DoubleLinkedSet.__len__] *)
Definition __len__ (s : DoubleLinkedSet) : nat := size (_map s).

(** *** The invariants of the data model

    The keys met from [cur] on, following [next] through the dict. *)
Fixpoint walk (next : Node → option K) (fuel : nat) (m : gmap K Node)
    (cur : option K) : option (list K) :=
  match cur with
  | None => Some []
  | Some k =>
      match m !! k with
      | None => Some []
      | Some node =>
          match fuel with
          | O => None
          | S fuel' => (k ::.) <$> walk next fuel' m (next node)
          end
      end
  end.

Definition forward (s : DoubleLinkedSet) : option (list K) :=
  walk child_id (size (_map s)) (_map s) (_head_id s).

Definition backward (s : DoubleLinkedSet) : option (list K) :=
  walk parent_id (size (_map s)) (_map s) (_tail_id s).

(** I1: following [child_id] from [_head_id] visits every node of the dict
    exactly once and ends at [_tail_id]; following [parent_id] from
    [_tail_id] gives the same keys in reverse.  A node is the one stored
    under its own [id]. *)
Definition I1 (s : DoubleLinkedSet) : Prop :=
  match forward s, backward s with
  | Some ks, Some rs =>
      NoDup ks ∧ list_to_set ks = dom (_map s) ∧ last ks = _tail_id s ∧
      rs = reverse ks ∧ map_Forall (λ k n, id n = k) (_map s)
  | _, _ => False
  end.

(** I2: [_head_id] is [None] iff [_tail_id] is [None] iff the dict is
    empty. *)
Definition I2 (s : DoubleLinkedSet) : Prop :=
  (_head_id s = None ↔ _tail_id s = None) ∧
  (_tail_id s = None ↔ _map s = ∅).

Definition resolves (m : gmap K Node) (o : option K) : Prop :=
  match o with
  | Some k => is_Some (m !! k)
  | None => True
  end.

(** I3: [parent_id] and [child_id] of every node are [None] or a key of
    the dict, and no walk along either of them runs in a cycle. *)
Definition I3 (s : DoubleLinkedSet) : Prop :=
  map_Forall (λ k n,
    resolves (_map s) (parent_id n) ∧ resolves (_map s) (child_id n) ∧
    is_Some (walk child_id (size (_map s)) (_map s) (Some k)) ∧
    is_Some (walk parent_id (size (_map s)) (_map s) (Some k))) (_map s).

Definition valid (s : DoubleLinkedSet) : Prop := I1 s ∧ I2 s ∧ I3 s.

#[global] Instance resolves_dec m o : Decision (resolves m o).
Proof. destruct o; simpl; apply _. Defined.

#[global] Instance I1_dec s : Decision (I1 s).
Proof. unfold I1. destruct (forward s), (backward s); apply _. Defined.

#[global] Instance I2_dec s : Decision (I2 s).
Proof. unfold I2. apply _. Defined.

#[global] Instance I3_dec s : Decision (I3 s).
Proof. unfold I3. apply _. Defined.

#[global] Instance valid_dec s : Decision (valid s).
Proof. unfold valid. apply _. Defined.

(** ** The benchmark subject [DoubleLinked(Testable)] *)

Record DoubleLinked : Type := mkDoubleLinked {
  _ts : Z;
  user_sessions : gmap K Z;
  dlset : DoubleLinkedSet
}.

(** [Testable.__init__] followed by [DoubleLinked.setup]. *)
Definition Testable_init : DoubleLinked := mkDoubleLinked 0 ∅ __init__.

(** A method call on [self.dlset]. *)
Definition on_dlset {A} (c : M DoubleLinkedSet A) : M DoubleLinked A := λ d,
  let (o, s') := c (dlset d) in
  (o, mkDoubleLinked (_ts d) (user_sessions d) s').

(** [Testable.timestamp] *)
Definition timestamp : M DoubleLinked Z := λ d,
  (Ok (_ts d + 1), mkDoubleLinked (_ts d + 1) (user_sessions d) (dlset d)).

(** [self.user_sessions[user_id] = ts] *)
Definition user_sessions_setitem (user_id : K) (ts : Z) : M DoubleLinked unit :=
  modify (λ d, mkDoubleLinked (_ts d) (<[user_id := ts]> (user_sessions d))
                              (dlset d)).

(** [del self.user_sessions[user_id]]: raises when the key is missing. *)
Definition user_sessions_delitem (user_id : K) : M DoubleLinked unit := λ d,
  match user_sessions d !! user_id with
  | Some _ => (Ok tt, mkDoubleLinked (_ts d) (delete user_id (user_sessions d))
                                     (dlset d))
  | None => (KeyError, d)
  end.

(** [DoubleLinked.optimize_session_search] *)
Definition optimize_session_search (user_id : K) (ts : Z)
  : M DoubleLinked unit :=
  on_dlset (add user_id ts).

(** One round of the loop of [Testable.run_benchmark] (lines 55-57), for
    the [user_id] that was drawn. *)
Definition activity (user_id : K) : M DoubleLinked unit :=
  ts ← timestamp;
  user_sessions_setitem user_id ts;;
  optimize_session_search user_id ts.

(** The [while sess:] loop of [DoubleLinked.cleanup_sessions].  A [Node]
    defines neither [__bool__] nor [__len__], so [sess] is false only when
    it is [None]. *)
Fixpoint cleanup_loop (fuel : nat) (expire_timestamp : Z)
    (deleted_sessions : Z) (sess : option Node) : M DoubleLinked Z :=
  match sess with
  | None => mret deleted_sessions
  | Some node =>
      if value node >? expire_timestamp then mret deleted_sessions
      else
        match fuel with
        | O => out_of_fuel
        | S fuel' =>
            on_dlset (unlink (id node));;
            user_sessions_delitem (id node);;
            sess' ← on_dlset head;
            cleanup_loop fuel' expire_timestamp (deleted_sessions + 1) sess'
        end
  end.

(** [DoubleLinked.cleanup_sessions].  Every round of the loop deletes a
    key of [user_sessions] or raises, so one more round than there are
    keys is all the loop can take. *)
Definition cleanup_sessions (expire_timestamp : Z) : M DoubleLinked Z :=
  n ← gets (λ d, size (user_sessions d));
  sess ← on_dlset head;
  cleanup_loop (S n) expire_timestamp 0 sess.

(** The loop of [Testable.run_benchmark] (lines 53-57), for the user ids
    it drew, in the order they were drawn. *)
Fixpoint activities (user_ids : list K) : M DoubleLinked unit :=
  match user_ids with
  | [] => mret tt
  | user_id :: user_ids' => activity user_id;; activities user_ids'
  end.

End dlset.

Arguments Node : clear implicits.
Arguments DoubleLinkedSet K {_ _}.
Arguments DoubleLinked K {_ _}.

(** ** The benchmark subject [DequeLog(Testable)]

    The other strategy that [main] measures: a log of every activity, in
    the order it happened.  A [collections.deque] that is used through
    [append] and [popleft] only is the list of its elements, leftmost
    first.  No method of this class tests a user id for its truth value. *)

Module DequeLog.
Section model.
Context {K : Type} `{Countable K}.

Record t : Type := mk {
  _ts : Z;
  user_sessions : gmap K Z;
  activity_log : list (K * Z)
}.

(** [Testable.__init__] followed by [DequeLog.setup]. *)
Definition __init__ : t := mk 0 ∅ [].

(** [Testable.timestamp] *)
Definition timestamp : M t Z := λ q,
  (Ok (_ts q + 1), mk (_ts q + 1) (user_sessions q) (activity_log q)).

(** [self.user_sessions[user_id] = ts] *)
Definition user_sessions_setitem (user_id : K) (ts : Z) : M t unit :=
  modify (λ q, mk (_ts q) (<[user_id := ts]> (user_sessions q))
                  (activity_log q)).

(** [DequeLog.optimize_session_search] *)
Definition optimize_session_search (user_id : K) (ts : Z) : M t unit :=
  modify (λ q, mk (_ts q) (user_sessions q)
                  (activity_log q ++ [(user_id, ts)])).

(** One round of the loop of [Testable.run_benchmark] (lines 55-57). *)
Definition activity (user_id : K) : M t unit :=
  ts ← timestamp;
  user_sessions_setitem user_id ts;;
  optimize_session_search user_id ts.

(** The loop of [Testable.run_benchmark] (lines 53-57). *)
Fixpoint activities (user_ids : list K) : M t unit :=
  match user_ids with
  | [] => mret tt
  | user_id :: user_ids' => activity user_id;; activities user_ids'
  end.

(** The [while self.activity_log:] loop of [DequeLog.cleanup_sessions]
    (lines 94-100), on the content of the deque, of [user_sessions] and of
    [deleted_sessions] when the loop is entered; it gives the three when
    the loop is left.  Every round pops one element, so the loop is a
    recursion on the deque. *)
Fixpoint cleanup_loop (expire_timestamp : Z) (log : list (K * Z))
    (sessions : gmap K Z) (deleted_sessions : Z)
  : Z * gmap K Z * list (K * Z) :=
  match log with
  | [] => (deleted_sessions, sessions, [])
  | (user_id, t) :: log' =>
      let '(sessions', deleted_sessions') :=
        match sessions !! user_id with
        | Some ts =>
            if ts <=? expire_timestamp
            then (delete user_id sessions, deleted_sessions + 1)
            else (sessions, deleted_sessions)
        | None => (sessions, deleted_sessions)
        end in
      if t >? expire_timestamp then (deleted_sessions', sessions', log')
      else cleanup_loop expire_timestamp log' sessions' deleted_sessions'
  end.

(** [DequeLog.cleanup_sessions].  The [del] on line 97 is guarded by the
    membership test of line 96, so the method never raises. *)
Definition cleanup_sessions (expire_timestamp : Z) : M t Z := λ q,
  let '(deleted_sessions, sessions, log) :=
    cleanup_loop expire_timestamp (activity_log q) (user_sessions q) 0 in
  (Ok deleted_sessions, mk (_ts q) sessions log).

End model.
End DequeLog.

Arguments DequeLog.t K {_ _}.

(** ** The vocabulary of the statements *)

Section vocabulary.
Context {K : Type} `{Countable K} `{Truthy K}.
Implicit Types (l : list (K * Z)) (k : K) (v : Z) (prev nxt : option K).
Implicit Types (s : DoubleLinkedSet K) (m : gmap K (Node K)) (ks : list K).

(** *** What iterate yields *)

Definition key_value (n : Node K) : K * Z := (id n, value n).

(** The keys and values of the nodes yielded, oldest first. *)
Definition entries s : option (list (K * Z)) :=
  (λ ns : list (Node K), key_value <$> ns) <$> __iter__ s.

(** *** The chain as a list

    A state in which the links are as the data model says is described by
    the list of its entries from oldest to newest.  [chain prev l nxt] is
    the dict of a segment of the chain: [prev] is the key before its first
    node and [nxt] the key after its last. *)

Definition first_key l (d : option K) : option K :=
  match l with
  | [] => d
  | (k, _) :: _ => Some k
  end.

Fixpoint last_key l (d : option K) : option K :=
  match l with
  | [] => d
  | (k, _) :: l' => last_key l' (Some k)
  end.

Fixpoint chain prev l nxt : gmap K (Node K) :=
  match l with
  | [] => ∅
  | (k, v) :: l' =>
      <[k := mkNode k v prev (first_key l' nxt)]> (chain (Some k) l' nxt)
  end.

Fixpoint nodes prev l nxt : list (Node K) :=
  match l with
  | [] => []
  | (k, v) :: l' => mkNode k v prev (first_key l' nxt) :: nodes (Some k) l' nxt
  end.

(** The [parent_id] that the first node of [l] is left with when the
    node of key [k] before it is spliced out and [prev] is the key before
    that one: the test on line 149/176 skips a falsy key. *)
Definition new_prev k prev l : option K :=
  match l with
  | [] => prev
  | (c, _) :: _ => if truthy c then prev else Some k
  end.

(** [s] holds exactly the entries [l], oldest first. *)
Definition repr s l : Prop :=
  NoDup l.*1 ∧
  _map s = chain None l None ∧
  _head_id s = first_key l None ∧
  _tail_id s = last_key l None.

(** The entries read off the dict along the keys [ks]. *)
Definition entries_along m ks : list (K * Z) :=
  (λ k, (k, from_option value 0 (m !! k))) <$> ks.

(** Every key is true in the Python sense. *)
Definition all_truthy l : Prop := Forall (λ kv, truthy kv.1 = true) l.

Definition truthy_keys s : Prop :=
  map_Forall (λ k _, truthy k = true) (_map s).

(** The entries of [l] without the one of key [k]. *)
Definition remove_key k l : list (K * Z) := filter (λ kv, kv.1 ≠ k) l.

(** The leading entries with [value <= cutoff], and what is left. *)
Fixpoint expired_prefix (cutoff : Z) l : list (K * Z) :=
  match l with
  | [] => []
  | (k, v) :: l' =>
      if bool_decide (v ≤ cutoff) then (k, v) :: expired_prefix cutoff l'
      else []
  end.

Fixpoint after_expired (cutoff : Z) l : list (K * Z) :=
  match l with
  | [] => []
  | (k, v) :: l' =>
      if bool_decide (v ≤ cutoff) then after_expired cutoff l' else l
  end.

(** *** Sequences of calls *)

(** The statements of [add] after its if/else (lines 162-167). *)
Definition link_newest (node_id : K) (node : Node K)
  : M (DoubleLinkedSet K) unit :=
  map_setitem node_id node;;
  tl ← gets _tail_id;
  match tl with
  | Some t => when (truthy t) (set_child_id t (Some node_id))
  | None => mret tt
  end;;
  set_tail_id (Some node_id);;
  hd ← gets _head_id;
  when (negb (is_true hd)) (set_head_id (Some node_id)).

(** One upsert after the other. *)
Fixpoint add_all l : M (DoubleLinkedSet K) unit :=
  match l with
  | [] => mret tt
  | (k, v) :: l' => add k v;; add_all l'
  end.

(** The operations of the index as the benchmark subject runs them: an
    upsert is [user_sessions[k] = v; dlset.add(k, v)] (lines 56-57). *)
Inductive op : Type :=
  | Upsert (k : K) (v : Z)
  | RemoveByKey (k : K)
  | ExpireUpTo (cutoff : Z).

Definition step (o : op) : M (DoubleLinked K) unit :=
  match o with
  | Upsert k v => user_sessions_setitem k v;; optimize_session_search k v
  | RemoveByKey k => on_dlset (unlink k);; mret tt
  | ExpireUpTo cutoff => cleanup_sessions cutoff;; mret tt
  end.

Fixpoint run (ops : list op) : M (DoubleLinked K) unit :=
  match ops with
  | [] => mret tt
  | o :: ops' => step o;; run ops'
  end.

Definition truthy_op (o : op) : Prop :=
  match o with
  | Upsert k _ => truthy k = true
  | _ => True
  end.

(** What every run on truthy keys keeps: the index is a chain of truthy
    keys, all of them known to [user_sessions]. *)
Definition tracked (d : DoubleLinked K) l : Prop :=
  repr (dlset d) l ∧ all_truthy l ∧
  ∀ k, k ∈ l.*1 → is_Some (user_sessions d !! k).

(** *** Relations between the state before and after a call *)

(** [c] relates the state it starts in to the state it leaves, whatever
    its outcome. *)
Definition preserves {St A} (R : St → St → Prop) (c : M St A) : Prop :=
  ∀ x : St, R x (c x).2.

(** [c] does not run out of fuel. *)
Definition terminates {St A} (c : M St A) : Prop :=
  ∀ x : St, (c x).1 ≠ OutOfFuel.

(** Every node stored under a key other than [k] is still stored, with
    the [id] and the [value] it had. *)
Definition frame k s s' : Prop :=
  ∀ k' n, k' ≠ k → _map s !! k' = Some n →
    ∃ n', _map s' !! k' = Some n' ∧ id n' = id n ∧ value n' = value n.

(** From a state in which [I] holds, [c] leaves a state in which [I]
    holds, whatever its outcome, and a value it returns satisfies [φ]. *)
Definition hoare {St A} (I : St → Prop) (c : M St A) (φ : A → Prop) : Prop :=
  ∀ x : St, I x →
    I (c x).2 ∧ match (c x).1 with Ok a => φ a | _ => True end.

(** No node is linked behind a falsy key: a [child_id] other than [None]
    is written under a key only after the truth test on that key (lines
    151, 163 and 178). *)
Definition falsy_last s : Prop :=
  map_Forall (λ k n, truthy k = false → child_id n = None) (_map s).

(** The states of an index that starts empty and is used through [add]
    and [unlink] ([cleanup_sessions] changes the index through [unlink]
    only).  A call that raises leaves a state too. *)
Inductive reachable : DoubleLinkedSet K → Prop :=
  | reachable_init : reachable __init__
  | reachable_add s k v : reachable s → reachable (add k v s).2
  | reachable_unlink s k : reachable s → reachable (unlink k s).2.

(** The index of the benchmark subject is in a reachable state. *)
Definition index_reachable (d : DoubleLinked K) : Prop := reachable (dlset d).

(** The key [k], once out of the dict, stays out until it is stored
    again: the neighbour updates only write under keys that are present. *)
Definition stays_absent k s s' : Prop :=
  _map s !! k = None → _map s' !! k = None.

(** The keys of the dict are the same before and after. *)
Definition same_keys s s' : Prop :=
  dom (_map s') = dom (_map s).

End vocabulary.

Arguments op K : clear implicits.

(** *** States on concrete keys *)

(** The index after [add 5 1; add 0 2]: the chain 5, 0. *)
Definition s_5_0 : DoubleLinkedSet Z := ((add 5 1;; add 0 2) __init__).2.

(** The chain 0, 5, 7 written out. *)
Definition s_0_5_7 : DoubleLinkedSet Z :=
  mkSet (list_to_map [(0, mkNode 0 1 None (Some 5));
                      (5, mkNode 5 2 (Some 0) (Some 7));
                      (7, mkNode 7 3 (Some 5) None)])
        (Some 0) (Some 7).

(** The index after [add 5 1; add 0 2; unlink 5]. *)
Definition s_0_after_unlink : DoubleLinkedSet Z :=
  ((add 5 1;; add 0 2;; unlink 5) __init__).2.

(** The benchmark subject after one activity of user 0. *)
Definition d_0 : DoubleLinked Z := (activity 0 Testable_init).2.

(** The scenario of the specification, run by the benchmark subject: the
    timestamps it draws are 1, 2, 3 and 4. *)
Definition d_ABC : DoubleLinked string :=
  ((activity "A";; activity "B";; activity "C") Testable_init).2.

Definition d_BCA : DoubleLinked string := (activity "A" d_ABC).2.

(** *** The benchmark

    What the two subjects hold after the activities of a run. *)

Section benchmark.
Context {K : Type} `{Countable K} `{Truthy K}.
Implicit Types (l log : list (K * Z)) (us : gmap K Z).

(** Every node is stored under its own [id]. *)
Definition ids_ok (s : DoubleLinkedSet K) : Prop :=
  map_Forall (λ k n, id n = k) (_map s).

(** The activities of the users [user_ids], with the timestamps that
    [Testable.timestamp] gives them when it starts from [ts]. *)
Fixpoint stamped (ts : Z) (user_ids : list K) : list (K * Z) :=
  match user_ids with
  | [] => []
  | user_id :: user_ids' => (user_id, ts + 1) :: stamped (ts + 1) user_ids'
  end.

(** The sessions that are not expired at [cutoff]. *)
Definition live (cutoff : Z) us : gmap K Z :=
  filter (λ kv, cutoff < kv.2) us.

(** Timestamps grow strictly along the list. *)
Definition increasing l : Prop :=
  StronglySorted (λ a b : K * Z, a.2 < b.2) l.

(** What [DoubleLinked] keeps while the ids are truthy: the index is the
    chain of the sessions of [user_sessions], oldest activity first. *)
Definition mirrors (d : DoubleLinked K) l : Prop :=
  repr (dlset d) l ∧ all_truthy l ∧ user_sessions d = list_to_map l ∧
  increasing l ∧ Forall (λ kv, kv.2 ≤ _ts d) l.

(** What [DequeLog] keeps until its first cleanup: the log is in the order
    of the timestamps, and the session of every user is in it. *)
Definition logged (q : DequeLog.t K) : Prop :=
  increasing (DequeLog.activity_log q) ∧
  Forall (λ kv, kv.2 ≤ DequeLog._ts q) (DequeLog.activity_log q) ∧
  ∀ u ts, DequeLog.user_sessions q !! u = Some ts →
          (u, ts) ∈ DequeLog.activity_log q.

(** Every node stored under a key other than [k] was stored before, with
    the [id] and the [value] it has: a call makes no node under another
    key and gives none a new value. *)
Definition frame_back (k : K) (s s' : DoubleLinkedSet K) : Prop :=
  ∀ k' n', k' ≠ k → _map s' !! k' = Some n' →
    ∃ n, _map s !! k' = Some n ∧ id n = id n' ∧ value n = value n'.

(** A node stored under [k], if there is one, has the id [k] and the
    value [v]. *)
Definition holds_value (k : K) (v : Z) (s : DoubleLinkedSet K) : Prop :=
  ∀ n, _map s !! k = Some n → id n = k ∧ value n = v.

(** Every node of the index is stored under its id and has the timestamp
    that [user_sessions] has for its user. *)
Definition synced (d : DoubleLinked K) : Prop :=
  ∀ k n, _map (dlset d) !! k = Some n →
    id n = k ∧ user_sessions d !! k = Some (value n).

(** The elements that the loop of [DequeLog.cleanup_sessions] pops: the
    leading ones with a timestamp up to the cutoff and the one after
    them, at which it breaks. *)
Definition popped (cutoff : Z) log : list (K * Z) :=
  expired_prefix cutoff log ++ take 1 (after_expired cutoff log).

End benchmark.

(** ** Reasoning about computations *)

Section preserves.
Context {St : Type} (R : St → St → Prop) `{!Reflexive R, !Transitive R}.

Lemma preserves_ret {A} (a : A) : preserves R (mret a).
Proof. intros s. reflexivity. Qed.

Lemma preserves_gets {A} (f : St → A) : preserves R (gets f).
Proof. intros s. reflexivity. Qed.

Lemma preserves_bind {A B} (c : M St A) (f : A → M St B) :
  preserves R c → (∀ a, preserves R (f a)) → preserves R (c ≫= f).
Proof.
  intros Hc Hf s. unfold mbind, M_bind. specialize (Hc s).
  destruct (c s) as [[a| |] s1]; simpl in *; [|done..].
  etransitivity; [exact Hc|apply Hf].
Qed.

Lemma preserves_when (b : bool) (c : M St unit) :
  preserves R c → preserves R (when b c).
Proof. intros Hc. destruct b; [done|apply preserves_ret]. Qed.

End preserves.

Section frame.
Context {K : Type} `{Countable K} `{Truthy K}.
Implicit Types (s : DoubleLinkedSet K) (k : K) (n : Node K).

#[local] Instance frame_refl k : Reflexive (frame k).
Proof. intros s k' n _ Hn. eauto. Qed.

#[local] Instance frame_trans k : Transitive (frame k).
Proof.
  intros s1 s2 s3 H12 H23 k' n Hk Hn.
  destruct (H12 k' n Hk Hn) as (n2 & Hn2 & Hi2 & Hv2).
  destruct (H23 k' n2 Hk Hn2) as (n3 & Hn3 & Hi3 & Hv3).
  exists n3. split; [done|]. split; congruence.
Qed.

Lemma frame_map_pop k : preserves (frame k) (map_pop k).
Proof.
  intros s k' n Hk Hn. unfold map_pop.
  destruct (_map s !! k); simpl; [|eauto].
  exists n. by rewrite lookup_delete_ne.
Qed.

Lemma frame_map_setitem k n : preserves (frame k) (map_setitem k n).
Proof.
  intros s k' n' Hk Hn. simpl. exists n'. by rewrite lookup_insert_ne.
Qed.

Lemma frame_set_parent_id k c p : preserves (frame k) (set_parent_id c p).
Proof.
  intros s k' n Hk Hn. unfold set_parent_id, mbind, M_bind, map_getitem.
  destruct (_map s !! c) as [nc|] eqn:Hc; simpl; [|eauto].
  destruct (decide (c = k')) as [->|Hne].
  - rewrite lookup_insert_eq. simplify_eq. eauto.
  - rewrite lookup_insert_ne by done. eauto.
Qed.

Lemma frame_set_child_id k p c : preserves (frame k) (set_child_id p c).
Proof.
  intros s k' n Hk Hn. unfold set_child_id, mbind, M_bind, map_getitem.
  destruct (_map s !! p) as [np|] eqn:Hp; simpl; [|eauto].
  destruct (decide (p = k')) as [->|Hne].
  - rewrite lookup_insert_eq. simplify_eq. eauto.
  - rewrite lookup_insert_ne by done. eauto.
Qed.

Lemma frame_set_head_id k h : preserves (frame k) (set_head_id h).
Proof. intros s k' n _ Hn. simpl. eauto. Qed.

Lemma frame_set_tail_id k t : preserves (frame k) (set_tail_id t).
Proof. intros s k' n _ Hn. simpl. eauto. Qed.

Create HintDb frame discriminated.
#[local] Hint Resolve frame_map_pop frame_map_setitem frame_set_parent_id
  frame_set_child_id frame_set_head_id frame_set_tail_id : frame.

Ltac frame_step :=
  first
    [ solve [auto with frame]
    | apply preserves_when; [apply _ |]
    | apply preserves_ret; apply _
    | apply preserves_gets; apply _
    | apply preserves_bind; [apply _ | | intros ?]
    | match goal with |- preserves _ (match ?x with _ => _ end) => destruct x end ].

Lemma frame_splice k node_id node : preserves (frame k) (splice node_id node).
Proof. unfold splice. repeat frame_step. Qed.

Lemma frame_add k v : preserves (frame k) (add k v).
Proof.
  unfold add. pose proof (frame_splice k k). repeat frame_step.
Qed.

Lemma frame_unlink k : preserves (frame k) (unlink k).
Proof.
  unfold unlink. pose proof (frame_splice k k). repeat frame_step.
Qed.

#[local] Instance stays_absent_refl k : Reflexive (stays_absent k).
Proof. intros s Hk. exact Hk. Qed.

#[local] Instance stays_absent_trans k : Transitive (stays_absent k).
Proof. intros s1 s2 s3 H12 H23 Hk. apply H23, H12, Hk. Qed.

Lemma stays_absent_set_parent_id k c p :
  preserves (stays_absent k) (set_parent_id c p).
Proof.
  intros s Hk. unfold set_parent_id, mbind, M_bind, map_getitem.
  destruct (_map s !! c) as [nc|] eqn:Hc; simpl; [|done].
  rewrite lookup_insert_ne; [done|congruence].
Qed.

Lemma stays_absent_set_child_id k p c :
  preserves (stays_absent k) (set_child_id p c).
Proof.
  intros s Hk. unfold set_child_id, mbind, M_bind, map_getitem.
  destruct (_map s !! p) as [np|] eqn:Hp; simpl; [|done].
  rewrite lookup_insert_ne; [done|congruence].
Qed.

Lemma stays_absent_set_head_id k h : preserves (stays_absent k) (set_head_id h).
Proof. intros s Hk. exact Hk. Qed.

Lemma stays_absent_set_tail_id k t : preserves (stays_absent k) (set_tail_id t).
Proof. intros s Hk. exact Hk. Qed.

#[local] Hint Resolve stays_absent_set_parent_id stays_absent_set_child_id
  stays_absent_set_head_id stays_absent_set_tail_id : frame.

Lemma stays_absent_splice k node_id node :
  preserves (stays_absent k) (splice node_id node).
Proof. unfold splice. repeat frame_step. Qed.

#[local] Instance same_keys_refl : Reflexive (same_keys (K:=K)).
Proof. intros s. reflexivity. Qed.

#[local] Instance same_keys_trans : Transitive (same_keys (K:=K)).
Proof. unfold same_keys. intros s1 s2 s3 H12 H23. congruence. Qed.

Lemma same_keys_set_parent_id c p : preserves (same_keys (K:=K)) (set_parent_id c p).
Proof.
  intros s. unfold same_keys, set_parent_id, mbind, M_bind, map_getitem.
  destruct (_map s !! c) as [nc|] eqn:Hc; simpl; [|done].
  apply dom_insert_lookup_L. eauto.
Qed.

Lemma same_keys_set_child_id p c : preserves (same_keys (K:=K)) (set_child_id p c).
Proof.
  intros s. unfold same_keys, set_child_id, mbind, M_bind, map_getitem.
  destruct (_map s !! p) as [np|] eqn:Hp; simpl; [|done].
  apply dom_insert_lookup_L. eauto.
Qed.

Lemma same_keys_set_head_id h : preserves (same_keys (K:=K)) (set_head_id h).
Proof. intros s. reflexivity. Qed.

Lemma same_keys_set_tail_id t : preserves (same_keys (K:=K)) (set_tail_id t).
Proof. intros s. reflexivity. Qed.

#[local] Hint Resolve same_keys_set_parent_id same_keys_set_child_id
  same_keys_set_head_id same_keys_set_tail_id : frame.

Lemma same_keys_splice node_id node : preserves (same_keys (K:=K)) (splice node_id node).
Proof. unfold splice. repeat frame_step. Qed.

(** *** Running the steps of a method *)

Lemma bind_Ok {St A B} (c : M St A) (f : A → M St B) (x : St) a x1 :
  c x = (Ok a, x1) → (c ≫= f) x = f a x1.
Proof. intros Hc. unfold mbind, M_bind. by rewrite Hc. Qed.

Lemma bind_inv_Ok {St A B} (c : M St A) (f : A → M St B) (x : St) b x2 :
  (c ≫= f) x = (Ok b, x2) → ∃ a x1, c x = (Ok a, x1) ∧ f a x1 = (Ok b, x2).
Proof.
  unfold mbind, M_bind. destruct (c x) as [[a| |] x1]; [eauto|done..].
Qed.

Lemma map_pop_Some s k n :
  _map s !! k = Some n →
  map_pop k s = (Ok n, mkSet (delete k (_map s)) (_head_id s) (_tail_id s)).
Proof. intros Hk. unfold map_pop. by rewrite Hk. Qed.

Lemma set_parent_id_Some s k n p :
  _map s !! k = Some n →
  set_parent_id k p s =
    (Ok tt, mkSet (<[k := mkNode (id n) (value n) p (child_id n)]> (_map s))
                  (_head_id s) (_tail_id s)).
Proof.
  intros Hk. unfold set_parent_id, mbind, M_bind, map_getitem. by rewrite Hk.
Qed.

Lemma set_child_id_Some s k n c :
  _map s !! k = Some n →
  set_child_id k c s =
    (Ok tt, mkSet (<[k := mkNode (id n) (value n) (parent_id n) c]> (_map s))
                  (_head_id s) (_tail_id s)).
Proof.
  intros Hk. unfold set_child_id, mbind, M_bind, map_getitem. by rewrite Hk.
Qed.

(** A walk from a node that is its own neighbour never ends. *)
Lemma walk_self_loop (next : Node K → option K) fuel (m : gmap K (Node K)) k n :
  m !! k = Some n → next n = Some k → walk next fuel m (Some k) = None.
Proof.
  intros Hk Hn. induction fuel as [|fuel IH]; simpl; rewrite Hk; [done|].
  by rewrite Hn, IH.
Qed.

(** [splice] returns when the truthy neighbours of the popped node are in
    the dict. *)
Lemma splice_returns s k n :
  (∀ c, child_id n = Some c → truthy c = true → is_Some (_map s !! c)) →
  (∀ p, parent_id n = Some p → truthy p = true → is_Some (_map s !! p)) →
  ∃ s', splice k n s = (Ok tt, s') ∧ dom (_map s') = dom (_map s) ∧
        _tail_id s' = if bool_decide (Some k = _tail_id s) then parent_id n
                      else _tail_id s.
Proof.
  intros Hc Hp.
  assert (∃ s1, match child_id n with
                | Some c => when (truthy c) (set_parent_id c (parent_id n))
                | None => mret tt
                end s = (Ok tt, s1) ∧ dom (_map s1) = dom (_map s) ∧
                _head_id s1 = _head_id s ∧ _tail_id s1 = _tail_id s)
    as (s1 & E1 & D1 & H1 & T1).
  { destruct (child_id n) as [c|]; [|by eexists].
    destruct (truthy c) eqn:Tc; [|by eexists].
    destruct (Hc c eq_refl Tc) as [nc Hnc].
    eexists. split; [by apply set_parent_id_Some|].
    simpl. split; [|done]. apply dom_insert_lookup_L. eauto. }
  assert (∃ s2, match parent_id n with
                | Some p => when (truthy p) (set_child_id p (child_id n))
                | None => mret tt
                end s1 = (Ok tt, s2) ∧ dom (_map s2) = dom (_map s1) ∧
                _head_id s2 = _head_id s1 ∧ _tail_id s2 = _tail_id s1)
    as (s2 & E2 & D2 & H2 & T2).
  { destruct (parent_id n) as [p|]; [|by eexists].
    destruct (truthy p) eqn:Tp; [|by eexists].
    destruct (Hp p eq_refl Tp) as [np Hnp].
    assert (is_Some (_map s1 !! p)) as [np' Hnp'].
    { apply elem_of_dom. rewrite D1. apply elem_of_dom. eauto. }
    eexists. split; [by apply set_child_id_Some|].
    simpl. split; [|done]. apply dom_insert_lookup_L. eauto. }
  unfold splice. rewrite (bind_Ok _ _ _ _ _ E1), (bind_Ok _ _ _ _ _ E2).
  unfold mbind, M_bind, gets, when, set_head_id, set_tail_id, modify, mret,
    M_ret.
  cbn [_map _head_id _tail_id].
  destruct (bool_decide (Some k = _head_id s2));
    cbn [_map _head_id _tail_id]; rewrite ?T2, ?T1;
    destruct (bool_decide (Some k = _tail_id s));
    eexists; (split; [reflexivity|]); cbn [_map _head_id _tail_id];
    (split; [congruence|]); congruence.
Qed.

(** The statements of [add] after its if/else return when the tail id,
    if it is truthy, is a key of the dict or the key that is stored. *)
Lemma link_newest_returns s k node :
  (∀ t, _tail_id s = Some t → truthy t = true →
        is_Some (<[k := node]> (_map s) !! t)) →
  ∃ s', link_newest k node s = (Ok tt, s').
Proof.
  intros Ht. unfold link_newest.
  rewrite (bind_Ok (map_setitem _ _) _ _ tt _ eq_refl).
  rewrite (bind_Ok (gets _) _ _ _ _ eq_refl).
  cbn [_map _head_id _tail_id].
  assert (∃ s1, match _tail_id s with
                | Some t => when (truthy t) (set_child_id t (Some k))
                | None => mret tt
                end (mkSet (<[k := node]> (_map s)) (_head_id s) (_tail_id s))
                = (Ok tt, s1)) as (s1 & E1).
  { destruct (_tail_id s) as [t|]; [|by eexists].
    destruct (truthy t) eqn:Tt; [|by eexists].
    destruct (Ht t eq_refl Tt) as [nt Hnt].
    eexists. by apply set_child_id_Some. }
  rewrite (bind_Ok _ _ _ _ _ E1).
  unfold mbind, M_bind, gets, when, set_head_id, set_tail_id, modify, mret,
    M_ret.
  cbn [_map _head_id _tail_id]. destruct (negb (is_true (_head_id s1)));
    by eexists.
Qed.

(** [add] returns when the references that it follows resolve: the truthy
    neighbours of the node of [k], if there is one, and the tail id. *)
Lemma add_returns s k v :
  (∀ n, _map s !! k = Some n →
        (∀ c, child_id n = Some c → truthy c = true →
              is_Some (delete k (_map s) !! c)) ∧
        (∀ p, parent_id n = Some p → truthy p = true →
              is_Some (delete k (_map s) !! p))) →
  (∀ t, _tail_id s = Some t → truthy t = true →
        t = k ∨ is_Some (_map s !! t)) →
  ∃ s', add k v s = (Ok tt, s').
Proof.
  intros Hn Ht.
  change (add k v) with
    (m ← gets _map;
     node ← (if bool_decide (is_Some (m !! k)) then
               node ← map_pop k;
               splice k node;;
               tl ← gets _tail_id;
               mret (mkNode (id node) v tl None)
             else
               tl ← gets _tail_id;
               mret (mkNode k v tl None));
     link_newest k node).
  rewrite (bind_Ok (gets _) _ _ _ _ eq_refl).
  destruct (_map s !! k) as [n|] eqn:Hk.
  - rewrite bool_decide_eq_true_2 by eauto.
    destruct (Hn n eq_refl) as [Hc Hp].
    destruct (splice_returns
      (mkSet (delete k (_map s)) (_head_id s) (_tail_id s)) k n Hc Hp)
      as (s1 & Hs & Hd & Htl).
    cbn [_map _tail_id] in Hd, Htl.
    erewrite bind_Ok.
    2:{ rewrite (bind_Ok _ _ _ _ _ (map_pop_Some _ _ _ Hk)).
        rewrite (bind_Ok _ _ _ _ _ Hs). reflexivity. }
    apply link_newest_returns. intros t Et Tt.
    destruct (decide (t = k)) as [->|Hne]; [rewrite lookup_insert_eq; eauto|].
    rewrite lookup_insert_ne by done. apply elem_of_dom. rewrite Hd.
    apply elem_of_dom. rewrite Htl in Et. case_bool_decide.
    + by apply Hp.
    + rewrite lookup_delete_ne by done.
      destruct (Ht t Et Tt) as [?|?]; done.
  - rewrite bool_decide_eq_false_2 by (by intros [? ?]).
    erewrite bind_Ok by reflexivity.
    apply link_newest_returns. intros t Et Tt.
    destruct (Ht t Et Tt) as [->|Hin]; [rewrite lookup_insert_eq; eauto|].
    destruct (decide (t = k)) as [->|Hne]; [rewrite lookup_insert_eq; eauto|].
    by rewrite lookup_insert_ne.
Qed.

(** Whenever [add] returns, the keys of the dict are the ones it had and
    [k]. *)
Lemma add_dom s k v s' :
  add k v s = (Ok tt, s') → dom (_map s') = {[k]} ∪ dom (_map s).
Proof.
  unfold add. intros Ha.
  apply bind_inv_Ok in Ha as (m & s0 & Hg & Ha). injection Hg as <- <-.
  apply bind_inv_Ok in Ha as (node & s1 & Hb & Ha).
  apply bind_inv_Ok in Ha as ([] & s2 & Hset & Ha). injection Hset as <-.
  match type of Ha with
  | ?c ?x = _ =>
      assert (preserves (same_keys (K:=K)) c) as Hrest by repeat frame_step;
      specialize (Hrest x)
  end.
  rewrite Ha in Hrest. unfold same_keys in Hrest.
  cbn [snd _map] in Hrest. rewrite Hrest, dom_insert_L.
  case_bool_decide as Hk.
  - apply bind_inv_Ok in Hb as (n & sp & Hp & Hb).
    apply bind_inv_Ok in Hb as ([] & sq & Hs & Hb).
    injection Hb as _ <-.
    pose proof (same_keys_splice k n sp) as Hsk. rewrite Hs in Hsk.
    unfold same_keys in Hsk. cbn [snd] in Hsk.
    unfold map_pop in Hp. destruct (_map s !! k) as [n'|] eqn:Hn; [|done].
    injection Hp as <- <-. cbn [_map] in Hsk.
    rewrite Hsk, dom_delete_L. apply set_eq. intros x.
    rewrite !elem_of_union, elem_of_difference, elem_of_singleton.
    destruct (decide (x = k)); tauto.
  - by injection Hb as _ <-.
Qed.

End frame.

(** ** [unlink] in any state *)

Section properties.
Context {K : Type} `{Countable K} `{Truthy K}.
Implicit Types (s : DoubleLinkedSet K) (k : K) (n : Node K).

(** [head] and the generator only read. *)
Lemma head_state s : (head s).2 = s.
Proof.
  unfold head, mbind, M_bind, gets, map_getitem. simpl.
  destruct (_head_id s) as [h|]; [|done].
  destruct (truthy h); [|done]. by destruct (_map s !! h).
Qed.

(** More rounds do not change what the generator has yielded when it
    ended. *)
Lemma iter_from_more_fuel (m : gmap K (Node K)) fuel : ∀ fuel' cur ns,
  iter_from fuel m cur = Some ns → (fuel ≤ fuel')%nat →
  iter_from fuel' m cur = Some ns.
Proof.
  induction fuel as [|fuel IH]; intros fuel' cur ns Hi Hf.
  - simpl in Hi. destruct fuel'; simpl; by destruct (cur ≫= (m !!.)).
  - destruct fuel' as [|fuel']; [lia|]. simpl in *.
    destruct (cur ≫= (m !!.)) as [node|]; [|done].
    destruct (iter_from fuel m (child_id node)) as [ns'|] eqn:Hi'; [|done].
    rewrite (IH fuel' _ ns' Hi'); [done|lia].
Qed.

Lemma unlink_absent s k : _map s !! k = None → unlink k s = (Ok None, s).
Proof.
  intros Hk. unfold unlink, mbind, M_bind, gets. simpl.
  rewrite bool_decide_eq_false_2; [done|]. rewrite Hk. by intros [? ?].
Qed.

Lemma unlink_present s k n :
  _map s !! k = Some n →
  unlink k s =
    ((splice k n;; mret None)
       (mkSet (delete k (_map s)) (_head_id s) (_tail_id s))).
Proof.
  intros Hk. unfold unlink, mbind, M_bind, gets, when. simpl.
  rewrite bool_decide_eq_true_2 by eauto.
  by rewrite (map_pop_Some _ _ _ Hk).
Qed.

Lemma unlink_Ok s k r s' :
  unlink k s = (Ok r, s') → r = None ∧ _map s' !! k = None.
Proof.
  destruct (_map s !! k) as [n|] eqn:Hk.
  - rewrite (unlink_present _ _ _ Hk). intros Hu.
    apply bind_inv_Ok in Hu as ([] & s1 & Hs & Hr).
    unfold mret, M_ret in Hr. simplify_eq. split; [done|].
    pose proof (stays_absent_splice k k n
      (mkSet (delete k (_map s)) (_head_id s) (_tail_id s))) as Hst.
    rewrite Hs in Hst. apply Hst. simpl. apply lookup_delete_eq.
  - rewrite (unlink_absent _ _ Hk). intros ?. by simplify_eq.
Qed.

Lemma I3_neighbour (next : Node K → option K) s k n c :
  is_Some (walk next (size (_map s)) (_map s) (Some k)) →
  resolves (_map s) (next n) →
  _map s !! k = Some n → next n = Some c →
  is_Some (delete k (_map s) !! c).
Proof.
  intros Hw Hr Hk Hc. rewrite Hc in Hr. simpl in Hr.
  destruct (decide (c = k)) as [->|Hne].
  - rewrite (walk_self_loop next _ _ _ _ Hk Hc) in Hw. by destruct Hw.
  - by rewrite lookup_delete_ne.
Qed.

Lemma unlink_returns s k : I3 s → ∃ s', unlink k s = (Ok None, s').
Proof.
  intros HI3. destruct (_map s !! k) as [n|] eqn:Hk.
  - destruct (HI3 k n Hk) as (Hp & Hc & Hwc & Hwp).
    rewrite (unlink_present _ _ _ Hk).
    destruct (splice_returns
      (mkSet (delete k (_map s)) (_head_id s) (_tail_id s)) k n)
      as (s' & Hs & _ & _).
    + intros c Ec _. simpl. by apply (I3_neighbour child_id s k n c).
    + intros p Ep _. simpl. by apply (I3_neighbour parent_id s k n p).
    + exists s'. by rewrite (bind_Ok _ _ _ _ _ Hs).
  - exists s. by apply unlink_absent.
Qed.

End properties.

(** ** Segments of the chain *)

Section chain.
Context {K : Type} `{Countable K} `{Truthy K}.
Implicit Types (l : list (K * Z)) (k : K) (v : Z) (prev nxt : option K).

Lemma first_key_app l1 l2 d :
  first_key (l1 ++ l2) d = first_key l1 (first_key l2 d).
Proof. by destruct l1 as [|[]]. Qed.

Lemma last_key_app l1 l2 d :
  last_key (l1 ++ l2) d = last_key l2 (last_key l1 d).
Proof. revert d. induction l1 as [|[k v] l1 IH]; intros d; simpl; auto. Qed.

Lemma last_key_cons_default k v l d d' :
  last_key ((k, v) :: l) d = last_key ((k, v) :: l) d'.
Proof. done. Qed.

Lemma first_key_None l : first_key l None = None ↔ l = [].
Proof. by destruct l as [|[]]. Qed.

Lemma last_key_Some_default l k : ∃ k', last_key l (Some k) = Some k'.
Proof. revert k. induction l as [|[k1 v1] l IH]; intros k; simpl; eauto. Qed.

Lemma last_key_None l : last_key l None = None ↔ l = [].
Proof.
  destruct l as [|[k v] l]; simpl; [done|].
  destruct (last_key_Some_default l k) as [k' ->]. done.
Qed.

Lemma last_key_last l : last_key l None = last l.*1.
Proof.
  induction l as [|[k v] l IH] using rev_ind; [done|].
  rewrite last_key_app, fmap_app. simpl. by rewrite last_snoc.
Qed.

Lemma first_key_head l : first_key l None = list.head l.*1.
Proof. by destruct l as [|[]]. Qed.

Lemma first_key_elem l d k :
  first_key l d = Some k → d = Some k ∨ k ∈ l.*1.
Proof.
  destruct l as [|[k1 v1] l]; simpl; [auto|]. intros [= ->].
  right. apply elem_of_cons. by left.
Qed.

Lemma last_key_elem l d k :
  last_key l d = Some k → d = Some k ∨ k ∈ l.*1.
Proof.
  revert d. induction l as [|[k1 v1] l IH]; intros d; simpl; [auto|].
  intros Hl. right. apply elem_of_cons.
  destruct (IH _ Hl) as [[= ->]|Hin]; auto.
Qed.

Lemma dom_chain prev l nxt : dom (chain prev l nxt) = list_to_set l.*1.
Proof.
  revert prev. induction l as [|[k v] l IH]; intros prev; simpl.
  - apply dom_empty_L.
  - by rewrite dom_insert_L, IH.
Qed.

Lemma chain_lookup_None prev l nxt k :
  k ∉ l.*1 → chain prev l nxt !! k = None.
Proof.
  intros Hk. apply not_elem_of_dom. rewrite dom_chain.
  by rewrite elem_of_list_to_set.
Qed.

Lemma chain_lookup_is_Some prev l nxt k :
  k ∈ l.*1 → is_Some (chain prev l nxt !! k).
Proof.
  intros Hk. apply elem_of_dom. rewrite dom_chain.
  by rewrite elem_of_list_to_set.
Qed.

(** A segment splits in two, each half knowing the key across the cut. *)
Lemma chain_app prev l1 l2 nxt :
  chain prev (l1 ++ l2) nxt =
  chain prev l1 (first_key l2 nxt) ∪ chain (last_key l1 prev) l2 nxt.
Proof.
  revert prev. induction l1 as [|[k v] l1 IH]; intros prev; simpl.
  - by rewrite (left_id_L ∅ (∪)).
  - by rewrite IH, insert_union_l, first_key_app.
Qed.

Lemma chain_snoc prev l k v nxt :
  k ∉ l.*1 →
  chain prev (l ++ [(k, v)]) nxt =
  <[k := mkNode k v (last_key l prev) nxt]> (chain prev l (Some k)).
Proof.
  intros Hk. rewrite chain_app. simpl. rewrite insert_empty.
  symmetry. apply insert_union_singleton_r. by apply chain_lookup_None.
Qed.

(** Writing [child_id] of the last node of a segment. *)
Lemma chain_set_next prev l k v nxt nxt' :
  k ∉ l.*1 →
  <[k := mkNode k v (last_key l prev) nxt']> (chain prev (l ++ [(k, v)]) nxt)
  = chain prev (l ++ [(k, v)]) nxt'.
Proof.
  intros Hk. rewrite !chain_snoc by done. apply insert_insert_eq.
Qed.

Lemma chain_lookup_last prev l k v nxt :
  k ∉ l.*1 →
  chain prev (l ++ [(k, v)]) nxt !! k
  = Some (mkNode k v (last_key l prev) nxt).
Proof. intros Hk. rewrite chain_snoc by done. apply lookup_insert_eq. Qed.

(** Writing [parent_id] of the first node of a segment. *)
Lemma chain_set_prev prev prev' l k v nxt :
  <[k := mkNode k v prev' (first_key l nxt)]> (chain prev ((k, v) :: l) nxt)
  = chain prev' ((k, v) :: l) nxt.
Proof. simpl. apply insert_insert_eq. Qed.

Lemma chain_lookup_first prev l k v nxt :
  chain prev ((k, v) :: l) nxt !! k
  = Some (mkNode k v prev (first_key l nxt)).
Proof. simpl. apply lookup_insert_eq. Qed.

Lemma remove_key_absent k l : k ∉ l.*1 → remove_key k l = l.
Proof.
  unfold remove_key. induction l as [|[k1 v1] l IH]; [done|].
  rewrite fmap_cons, not_elem_of_cons. intros [Hne Hk].
  rewrite filter_cons_True by (simpl; intros E; apply Hne; by rewrite E).
  by rewrite IH.
Qed.

Lemma remove_key_present k v l1 l2 :
  NoDup (l1 ++ (k, v) :: l2).*1 →
  remove_key k (l1 ++ (k, v) :: l2) = l1 ++ l2.
Proof.
  rewrite fmap_app, fmap_cons. simpl. intros Hnd.
  apply NoDup_app in Hnd as (_ & Hl1 & Hnd).
  apply NoDup_cons in Hnd as (Hl2 & _).
  unfold remove_key. rewrite filter_app, filter_cons_False by (simpl; tauto).
  fold (remove_key k l1) (remove_key k l2).
  rewrite !remove_key_absent; [done..|].
  intros Hk. apply (Hl1 k Hk). apply elem_of_cons. by left.
Qed.

End chain.

(** ** The methods on a chain of truthy keys *)

Section chain_ops.
Context {K : Type} `{Countable K} `{Truthy K}.
Implicit Types (l : list (K * Z)) (k : K) (v : Z) (prev nxt : option K).
Implicit Types (s : DoubleLinkedSet K).

(** Line 149/176: the node after the popped one takes its [parent_id],
    unless its key is falsy: then it keeps the popped key. *)
Lemma splice_child_step (A : gmap K (Node K)) l2 k p h t :
  (∀ c, c ∈ l2.*1 → A !! c = None) →
  match first_key l2 None with
  | Some c => when (truthy c) (set_parent_id c p)
  | None => mret tt
  end (mkSet (A ∪ chain (Some k) l2 None) h t)
  = (Ok tt, mkSet (A ∪ chain (new_prev k p l2) l2 None) h t).
Proof.
  intros HA. destruct l2 as [|[c vc] l2]; [done|].
  assert (A !! c = None) as HAc by (apply HA, elem_of_cons; by left).
  cbn [first_key new_prev]. destruct (truthy c); [|done]. unfold when.
  erewrite set_parent_id_Some.
  2:{ cbn [_map]. rewrite lookup_union_r by done. apply chain_lookup_first. }
  cbn [_map _head_id _tail_id id value child_id].
  by rewrite insert_union_r, chain_set_prev.
Qed.

(** Line 151/178: the node before the popped one takes its [child_id]. *)
Lemma splice_parent_step (B : gmap K (Node K)) l1 k c h t :
  NoDup l1.*1 → (∀ p, last_key l1 None = Some p → truthy p = true) →
  match last_key l1 None with
  | Some p => when (truthy p) (set_child_id p c)
  | None => mret tt
  end (mkSet (chain None l1 (Some k) ∪ B) h t)
  = (Ok tt, mkSet (chain None l1 c ∪ B) h t).
Proof.
  intros Hnd Ht. destruct l1 as [|[p vp] l1 _] using rev_ind; [done|].
  rewrite last_key_app in Ht |- *. cbn [last_key] in Ht |- *.
  rewrite (Ht p eq_refl). rewrite fmap_app in Hnd.
  apply NoDup_app in Hnd as (_ & Hd & _).
  assert (p ∉ l1.*1) as Hpl.
  { intros Hin. apply (Hd p Hin). apply elem_of_cons. by left. }
  unfold when.
  erewrite set_child_id_Some.
  2:{ cbn [_map]. apply lookup_union_Some_l. by apply chain_lookup_last. }
  cbn [_map _head_id _tail_id id value parent_id].
  by rewrite insert_union_l, chain_set_next.
Qed.

(** Lines 153-154 and 180-181 on the ends of the list. *)
Lemma head_after_splice l1 k v l2 :
  k ∉ l1.*1 →
  (if bool_decide (Some k = first_key (l1 ++ (k, v) :: l2) None)
   then first_key l2 None else first_key (l1 ++ (k, v) :: l2) None)
  = first_key (l1 ++ l2) None.
Proof.
  intros Hk. destruct l1 as [|[k1 v1] l1]; simpl.
  - by rewrite bool_decide_eq_true_2.
  - rewrite bool_decide_eq_false_2; [done|].
    intros [= ->]. apply Hk, elem_of_cons. by left.
Qed.

Lemma tail_after_splice l1 k v l2 :
  k ∉ l2.*1 →
  (if bool_decide (Some k = last_key (l1 ++ (k, v) :: l2) None)
   then last_key l1 None else last_key (l1 ++ (k, v) :: l2) None)
  = last_key (l1 ++ l2) None.
Proof.
  intros Hk. rewrite !last_key_app. cbn [last_key].
  destruct l2 as [|[k2 v2] l2]; simpl.
  - by rewrite bool_decide_eq_true_2.
  - rewrite bool_decide_eq_false_2; [done|].
    intros Heq. symmetry in Heq. apply last_key_elem in Heq as [[= ->]|Hin].
    + apply Hk, elem_of_cons. by left.
    + apply Hk, elem_of_cons. by right.
Qed.

(** [splice] takes the entry of [k] out of the list; the node before it
    has a truthy key.  The node after it keeps [k] as its [parent_id] when
    its own key is falsy. *)
Lemma splice_chain_gen l1 k v l2 :
  NoDup (l1 ++ (k, v) :: l2).*1 →
  (∀ p, last_key l1 None = Some p → truthy p = true) →
  splice k (mkNode k v (last_key l1 None) (first_key l2 None))
    (mkSet (chain None l1 (Some k) ∪ chain (Some k) l2 None)
           (first_key (l1 ++ (k, v) :: l2) None)
           (last_key (l1 ++ (k, v) :: l2) None))
  = (Ok tt, mkSet (chain None l1 (first_key l2 None)
                   ∪ chain (new_prev k (last_key l1 None) l2) l2 None)
                  (first_key (l1 ++ l2) None) (last_key (l1 ++ l2) None)).
Proof.
  rewrite fmap_app, fmap_cons. cbn [fst]. intros Hnd Ht.
  apply NoDup_app in Hnd as (Hnd1 & Hd & Hnd2).
  apply NoDup_cons in Hnd2 as (Hk2 & Hnd2).
  assert (k ∉ l1.*1) as Hk1.
  { intros Hin. apply (Hd k Hin). apply elem_of_cons. by left. }
  unfold splice. cbn [child_id parent_id].
  erewrite bind_Ok.
  2:{ apply splice_child_step. intros c Hc.
      apply chain_lookup_None. intros Hin. apply (Hd c Hin).
      apply elem_of_cons. by right. }
  erewrite bind_Ok.
  2:{ apply splice_parent_step; [exact Hnd1|exact Ht]. }
  unfold mbind, M_bind, gets, when, set_head_id, set_tail_id, modify, mret,
    M_ret.
  cbn [_map _head_id _tail_id].
  rewrite <- (head_after_splice l1 k v l2 Hk1).
  rewrite <- (tail_after_splice l1 k v l2 Hk2).
  destruct (bool_decide (Some k = first_key (l1 ++ (k, v) :: l2) None));
    cbn [_map _head_id _tail_id];
    destruct (bool_decide (Some k = last_key (l1 ++ (k, v) :: l2) None));
    reflexivity.
Qed.

Lemma all_truthy_last_key l p :
  all_truthy l → last_key l None = Some p → truthy p = true.
Proof.
  intros Ht Hp. apply last_key_elem in Hp as [?|Hp]; [done|].
  apply list_elem_of_fmap in Hp as ([k v] & -> & Hin).
  by apply (proj1 (Forall_forall _ _) Ht (k, v)).
Qed.

Lemma all_truthy_first_key l c :
  all_truthy l → first_key l None = Some c → truthy c = true.
Proof.
  intros Ht Hc. apply first_key_elem in Hc as [?|Hc]; [done|].
  apply list_elem_of_fmap in Hc as ([k v] & -> & Hin).
  by apply (proj1 (Forall_forall _ _) Ht (k, v)).
Qed.

Lemma new_prev_truthy k p l :
  (∀ c, first_key l None = Some c → truthy c = true) → new_prev k p l = p.
Proof.
  intros Hc. destruct l as [|[c vc] l]; [done|]. simpl.
  by rewrite (Hc c eq_refl).
Qed.

(** [splice] takes the entry of [k] out of a list of truthy keys. *)
Lemma splice_chain l1 k v l2 :
  NoDup (l1 ++ (k, v) :: l2).*1 → all_truthy (l1 ++ l2) →
  splice k (mkNode k v (last_key l1 None) (first_key l2 None))
    (mkSet (chain None l1 (Some k) ∪ chain (Some k) l2 None)
           (first_key (l1 ++ (k, v) :: l2) None)
           (last_key (l1 ++ (k, v) :: l2) None))
  = (Ok tt, mkSet (chain None (l1 ++ l2) None)
                  (first_key (l1 ++ l2) None) (last_key (l1 ++ l2) None)).
Proof.
  intros Hnd Ht. apply Forall_app in Ht as [Ht1 Ht2].
  rewrite splice_chain_gen; [|done|intros p; by apply all_truthy_last_key].
  rewrite new_prev_truthy by (intros c; by apply all_truthy_first_key).
  by rewrite <- chain_app.
Qed.

Lemma link_newest_chain l k v :
  NoDup l.*1 → k ∉ l.*1 → all_truthy l →
  link_newest k (mkNode k v (last_key l None) None)
    (mkSet (chain None l None) (first_key l None) (last_key l None))
  = (Ok tt, mkSet (chain None (l ++ [(k, v)]) None)
                  (first_key (l ++ [(k, v)]) None)
                  (last_key (l ++ [(k, v)]) None)).
Proof.
  intros Hnd Hk Ht. unfold link_newest.
  rewrite (bind_Ok (map_setitem _ _) _ _ tt _ eq_refl).
  rewrite (bind_Ok (gets _) _ _ _ _ eq_refl).
  cbn [_map _head_id _tail_id].
  erewrite bind_Ok.
  2:{ instantiate (1 := mkSet (chain None (l ++ [(k, v)]) None)
                          (first_key l None) (last_key l None)).
      instantiate (1 := tt).
      rewrite (chain_snoc None l k v None Hk).
      destruct l as [|[p vp] l _] using rev_ind; [done|].
      apply Forall_app in Ht as [_ Hp]. apply Forall_cons in Hp as [Hp _].
      simpl in Hp. rewrite fmap_app in Hnd, Hk.
      apply NoDup_app in Hnd as (_ & Hd & _).
      assert (p ∉ l.*1) as Hpl.
      { intros Hin. apply (Hd p Hin). apply elem_of_cons. by left. }
      assert (k ≠ p) as Hkp.
      { intros ->. apply Hk, elem_of_app. right. apply elem_of_cons. by left. }
      rewrite last_key_app. cbn [last_key]. rewrite Hp. unfold when.
      erewrite set_child_id_Some.
      2:{ cbn [_map]. rewrite lookup_insert_ne by done.
          by apply chain_lookup_last. }
      cbn [_map _head_id _tail_id id value parent_id].
      by rewrite insert_insert_ne, chain_set_next by done. }
  unfold mbind, M_bind, gets, when, set_head_id, set_tail_id, modify, mret,
    M_ret.
  cbn [_map _head_id _tail_id].
  rewrite last_key_app. cbn [last_key]. rewrite first_key_app.
  destruct l as [|[k1 v1] l]; [done|].
  apply Forall_cons in Ht as [Hk1 _]. simpl in Hk1.
  cbn [first_key is_true]. by rewrite Hk1.
Qed.

Lemma add_unfold k v :
  add k v =
  (m ← gets _map;
   node ← (if bool_decide (is_Some (m !! k)) then
             node ← map_pop k;
             splice k node;;
             tl ← gets _tail_id;
             mret (mkNode (id node) v tl None)
           else
             tl ← gets _tail_id;
             mret (mkNode k v tl None));
   link_newest k node).
Proof. reflexivity. Qed.

(** The dict of a chain around the entry of [k]. *)
Lemma chain_around l1 k v l2 :
  NoDup (l1 ++ (k, v) :: l2).*1 →
  let nk := mkNode k v (last_key l1 None) (first_key l2 None) in
  chain None (l1 ++ (k, v) :: l2) None !! k = Some nk ∧
  delete k (chain None (l1 ++ (k, v) :: l2) None)
  = chain None l1 (Some k) ∪ chain (Some k) l2 None.
Proof.
  rewrite fmap_app, fmap_cons. cbn [fst]. intros Hnd.
  apply NoDup_app in Hnd as (Hnd1 & Hd & Hnd2).
  apply NoDup_cons in Hnd2 as (Hk2 & Hnd2).
  assert (k ∉ l1.*1) as Hk1.
  { intros Hin. apply (Hd k Hin). apply elem_of_cons. by left. }
  rewrite chain_app. cbn [chain first_key]. split.
  - rewrite lookup_union_r by (by apply chain_lookup_None).
    apply lookup_insert_eq.
  - rewrite delete_union, delete_insert_eq.
    by rewrite !delete_id by (by apply chain_lookup_None).
Qed.

Lemma split_at_key l k :
  k ∈ l.*1 → ∃ l1 v l2, l = l1 ++ (k, v) :: l2.
Proof.
  intros Hk. apply list_elem_of_fmap in Hk as ([k' v] & -> & Hin).
  apply list_elem_of_split in Hin as (l1 & l2 & ->). eauto.
Qed.

(** [unlink] on a chain of truthy keys. *)
Lemma unlink_repr s l k :
  repr s l → all_truthy l →
  ∃ s', unlink k s = (Ok None, s') ∧ repr s' (remove_key k l).
Proof.
  intros (Hnd & Hm & Hh & Htl) Ht.
  destruct (decide (k ∈ l.*1)) as [Hk|Hk].
  - destruct (split_at_key l k Hk) as (l1 & v & l2 & ->).
    destruct (chain_around l1 k v l2 Hnd) as [Hlk Hdel].
    rewrite (remove_key_present _ _ _ _ Hnd).
    assert (all_truthy (l1 ++ l2)) as Ht'.
    { apply Forall_app in Ht as [Ht1 Ht2]. apply Forall_cons in Ht2 as [_ Ht2].
      by apply Forall_app. }
    rewrite <- Hm in Hlk. rewrite (unlink_present _ _ _ Hlk).
    rewrite Hm, Hdel, Hh, Htl.
    erewrite bind_Ok by (by apply splice_chain).
    eexists. split; [reflexivity|].
    split_and!; try done.
    rewrite fmap_app, fmap_cons in Hnd. rewrite fmap_app.
    apply NoDup_app in Hnd as (Hnd1 & Hd & Hnd2).
    apply NoDup_cons in Hnd2 as (Hk2 & Hnd2).
    apply NoDup_app. split_and!; [done| |done].
    intros x Hx Hx2. apply (Hd x Hx). apply elem_of_cons. by right.
  - rewrite (remove_key_absent _ _ Hk). exists s. split; [|done].
    apply unlink_absent. rewrite Hm. by apply chain_lookup_None.
Qed.

Lemma NoDup_without l1 k v l2 :
  NoDup (l1 ++ (k, v) :: l2).*1 →
  NoDup (l1 ++ l2).*1 ∧ k ∉ (l1 ++ l2).*1.
Proof.
  rewrite !fmap_app, fmap_cons. cbn [fst]. intros Hnd.
  apply NoDup_app in Hnd as (Hnd1 & Hd & Hnd2).
  apply NoDup_cons in Hnd2 as (Hk2 & Hnd2). split.
  - apply NoDup_app. split_and!; [done| |done].
    intros x Hx Hx2. apply (Hd x Hx). apply elem_of_cons. by right.
  - rewrite elem_of_app. intros [Hk|Hk]; [|done].
    apply (Hd k Hk). apply elem_of_cons. by left.
Qed.

Lemma NoDup_snoc_keys l k v :
  NoDup l.*1 → k ∉ l.*1 → NoDup (l ++ [(k, v)]).*1.
Proof.
  intros Hnd Hk. rewrite fmap_app. apply NoDup_app. split_and!; [done| |].
  - intros x Hx Hx'. apply list_elem_of_singleton in Hx'. by subst.
  - apply NoDup_singleton.
Qed.

(** [add] on a chain of truthy keys: the entry of [k] moves to the end,
    or is put there. *)
Lemma add_repr s l k v :
  repr s l → all_truthy l →
  ∃ s', add k v s = (Ok tt, s') ∧ repr s' (remove_key k l ++ [(k, v)]).
Proof.
  intros (Hnd & Hm & Hh & Htl) Ht. rewrite add_unfold.
  rewrite (bind_Ok (gets _) _ _ _ _ eq_refl).
  assert (∀ l', NoDup l'.*1 → k ∉ l'.*1 → all_truthy l' →
    ∃ s', link_newest k (mkNode k v (last_key l' None) None)
            (mkSet (chain None l' None) (first_key l' None)
                   (last_key l' None)) = (Ok tt, s') ∧
          repr s' (l' ++ [(k, v)])) as Hlink.
  { intros l' Hnd' Hk' Ht'. eexists. split; [by apply link_newest_chain|].
    split_and!; try done. by apply NoDup_snoc_keys. }
  destruct (decide (k ∈ l.*1)) as [Hk|Hk].
  - destruct (split_at_key l k Hk) as (l1 & v0 & l2 & ->).
    destruct (chain_around l1 k v0 l2 Hnd) as [Hlk Hdel].
    destruct (NoDup_without _ _ _ _ Hnd) as [Hnd' Hk'].
    rewrite (remove_key_present _ _ _ _ Hnd).
    assert (all_truthy (l1 ++ l2)) as Ht'.
    { apply Forall_app in Ht as [Ht1 Ht2]. apply Forall_cons in Ht2 as [_ Ht2].
      by apply Forall_app. }
    rewrite <- Hm in Hlk. rewrite bool_decide_eq_true_2 by eauto.
    erewrite bind_Ok.
    2:{ rewrite (bind_Ok _ _ _ _ _ (map_pop_Some _ _ _ Hlk)).
        rewrite Hm, Hdel, Hh, Htl.
        erewrite bind_Ok by (by apply splice_chain). reflexivity. }
    cbn [id _tail_id]. by apply Hlink.
  - rewrite bool_decide_eq_false_2.
    2:{ rewrite Hm, chain_lookup_None by done. by intros [? ?]. }
    rewrite (remove_key_absent _ _ Hk).
    erewrite bind_Ok.
    2:{ reflexivity. }
    destruct s as [m h t]. cbn [_map _head_id _tail_id] in *. subst m h t.
    by apply Hlink.
Qed.

(** [head] on a chain of truthy keys. *)
Lemma head_repr s l :
  repr s l → all_truthy l →
  head s = (Ok (list.head (nodes None l None)), s).
Proof.
  intros (Hnd & Hm & Hh & Htl) Ht. unfold head.
  rewrite (bind_Ok (gets _) _ _ _ _ eq_refl). rewrite Hh.
  destruct l as [|[k v] l]; [done|].
  apply Forall_cons in Ht as [Hk _]. simpl in Hk.
  cbn [first_key nodes list.head]. rewrite Hk.
  unfold mbind, M_bind, map_getitem. by rewrite Hm, chain_lookup_first.
Qed.

Lemma size_chain prev l nxt : NoDup l.*1 → size (chain prev l nxt) = length l.
Proof.
  revert prev. induction l as [|[k v] l IH]; intros prev Hnd; [done|].
  rewrite fmap_cons in Hnd. apply NoDup_cons in Hnd as [Hk Hnd]. simpl.
  rewrite map_size_insert_None by (by apply chain_lookup_None).
  by rewrite IH.
Qed.

Lemma len_repr s l : repr s l → __len__ s = length l.
Proof. intros (Hnd & Hm & _). unfold __len__. rewrite Hm. by apply size_chain. Qed.

Lemma chain_tail_subseteq prev k v l nxt :
  k ∉ l.*1 → chain (Some k) l nxt ⊆ chain prev ((k, v) :: l) nxt.
Proof. intros Hk. simpl. apply insert_subseteq. by apply chain_lookup_None. Qed.

(** The generator yields the nodes of the chain in order. *)
Lemma iter_from_chain (m : gmap K (Node K)) prev l fuel :
  NoDup l.*1 → chain prev l None ⊆ m → (length l ≤ fuel)%nat →
  iter_from fuel m (first_key l None) = Some (nodes prev l None).
Proof.
  revert prev fuel. induction l as [|[k v] l IH]; intros prev fuel Hnd Hm Hf.
  - by destruct fuel.
  - rewrite fmap_cons in Hnd. apply NoDup_cons in Hnd as [Hk Hnd].
    destruct fuel as [|fuel]; [simpl in Hf; lia|].
    cbn [first_key iter_from mbind option_bind].
    rewrite (lookup_weaken _ _ _ _ (chain_lookup_first prev l k v None) Hm).
    cbn [child_id nodes]. rewrite (IH (Some k) fuel); [done|done| |].
    + etransitivity; [by apply chain_tail_subseteq|exact Hm].
    + simpl in Hf. lia.
Qed.

Lemma key_value_nodes prev l nxt : key_value <$> nodes prev l nxt = l.
Proof.
  revert prev. induction l as [|[k v] l IH]; intros prev; [done|].
  simpl. by rewrite IH.
Qed.

Lemma iter_repr s l : repr s l → __iter__ s = Some (nodes None l None).
Proof.
  intros (Hnd & Hm & Hh & _). unfold __iter__. rewrite Hh.
  apply iter_from_chain; [done|by rewrite Hm|].
  rewrite Hm, size_chain by done. lia.
Qed.

Lemma entries_repr s l : repr s l → entries s = Some l.
Proof.
  intros Hr. unfold entries. rewrite (iter_repr _ _ Hr). simpl.
  by rewrite key_value_nodes.
Qed.

Lemma init_repr : repr (__init__ (K:=K)) [].
Proof. split_and!; try done. apply NoDup_nil_2. Qed.

(** *** A chain satisfies I1-I3 *)

Lemma walk_child_chain (m : gmap K (Node K)) prev l fuel :
  NoDup l.*1 → chain prev l None ⊆ m → (length l ≤ fuel)%nat →
  walk child_id fuel m (first_key l None) = Some l.*1.
Proof.
  revert prev fuel. induction l as [|[k v] l IH]; intros prev fuel Hnd Hm Hf.
  - by destruct fuel.
  - rewrite fmap_cons in Hnd. apply NoDup_cons in Hnd as [Hk Hnd].
    destruct fuel as [|fuel]; [simpl in Hf; lia|].
    cbn [first_key walk].
    rewrite (lookup_weaken _ _ _ _ (chain_lookup_first prev l k v None) Hm).
    cbn [child_id]. rewrite (IH (Some k) fuel); [done|done| |].
    + etransitivity; [by apply chain_tail_subseteq|exact Hm].
    + simpl in Hf. lia.
Qed.

Lemma walk_parent_chain (m : gmap K (Node K)) l nxt fuel :
  NoDup l.*1 → chain None l nxt ⊆ m → (length l ≤ fuel)%nat →
  walk parent_id fuel m (last_key l None) = Some (reverse l.*1).
Proof.
  revert nxt fuel.
  induction l as [|[k v] l IH] using rev_ind; intros nxt fuel Hnd Hm Hf.
  - by destruct fuel.
  - rewrite fmap_app in Hnd. apply NoDup_app in Hnd as (Hnd & Hd & _).
    assert (k ∉ l.*1) as Hk.
    { intros Hin. apply (Hd k Hin). apply elem_of_cons. by left. }
    rewrite length_app in Hf. simpl in Hf.
    destruct fuel as [|fuel]; [lia|].
    rewrite last_key_app. cbn [last_key walk].
    rewrite (lookup_weaken _ _ _ _ (chain_lookup_last None l k v nxt Hk) Hm).
    cbn [parent_id]. rewrite (IH (Some k) fuel); [|done| |lia].
    + rewrite fmap_app. simpl. by rewrite reverse_snoc.
    + etransitivity; [|exact Hm]. rewrite chain_snoc by done.
      apply insert_subseteq. by apply chain_lookup_None.
Qed.

Lemma chain_lookup_id prev l nxt k n :
  chain prev l nxt !! k = Some n → id n = k.
Proof.
  revert prev. induction l as [|[k1 v1] l IH]; intros prev; simpl.
  - by rewrite lookup_empty.
  - destruct (decide (k1 = k)) as [->|Hne].
    + rewrite lookup_insert_eq. by intros [= <-].
    + rewrite lookup_insert_ne by done. apply IH.
Qed.

Lemma chain_empty prev l nxt : chain prev l nxt = ∅ ↔ l = [].
Proof.
  split; [|by intros ->]. destruct l as [|[k v] l]; [done|]. simpl.
  intros Hm. by apply insert_non_empty in Hm.
Qed.

Lemma length_le_app_r {A} (l1 l2 : list A) : (length l2 ≤ length (l1 ++ l2))%nat.
Proof. rewrite length_app. lia. Qed.

Lemma length_le_app_l {A} (l1 l2 : list A) : (length l1 ≤ length (l1 ++ l2))%nat.
Proof. rewrite length_app. lia. Qed.

Lemma repr_valid s l : repr s l → valid s.
Proof.
  intros (Hnd & Hm & Hh & Htl).
  assert (size (_map s) = length l) as Hsz by (rewrite Hm; by apply size_chain).
  split_and!.
  - unfold I1, forward, backward. rewrite Hh, Htl, Hsz.
    rewrite (walk_child_chain _ None l) by (by rewrite ?Hm).
    rewrite (walk_parent_chain _ l None) by (by rewrite ?Hm).
    split_and!; [done| |by rewrite last_key_last|done|].
    + by rewrite Hm, dom_chain.
    + intros k n. rewrite Hm. apply chain_lookup_id.
  - split.
    + by rewrite Hh, Htl, first_key_None, last_key_None.
    + by rewrite Htl, Hm, last_key_None, chain_empty.
  - intros k n Hk. rewrite Hsz.
    assert (k ∈ l.*1) as Hin.
    { apply elem_of_dom_2 in Hk. rewrite Hm, dom_chain in Hk.
      by apply elem_of_list_to_set in Hk. }
    destruct (split_at_key l k Hin) as (l1 & v & l2 & ->).
    destruct (chain_around l1 k v l2 Hnd) as [Hlk _].
    rewrite Hm in Hk. rewrite Hlk in Hk. injection Hk as <-.
    cbn [parent_id child_id].
    pose proof Hnd as Hnd'. rewrite fmap_app, fmap_cons in Hnd'.
    apply NoDup_app in Hnd' as (Hnd1 & Hd & Hnd2).
    split_and!.
    + destruct (last_key l1 None) as [p|] eqn:Hp; [|done]. simpl.
      apply last_key_elem in Hp as [?|Hp]; [done|].
      rewrite Hm. apply chain_lookup_is_Some.
      rewrite fmap_app, elem_of_app. by left.
    + destruct (first_key l2 None) as [c|] eqn:Hc; [|done]. simpl.
      apply first_key_elem in Hc as [?|Hc]; [done|].
      rewrite Hm. apply chain_lookup_is_Some.
      rewrite fmap_app, fmap_cons, elem_of_app, elem_of_cons. auto.
    + change (Some k) with (first_key ((k, v) :: l2) None).
      rewrite (walk_child_chain _ (last_key l1 None)); [by eexists|done| |].
      * rewrite Hm, chain_app. apply map_union_subseteq_r.
        apply map_disjoint_dom. rewrite !dom_chain.
        intros x Hx1 Hx2. apply elem_of_list_to_set in Hx1, Hx2.
        by apply (Hd x).
      * apply length_le_app_r.
    + replace (Some k) with (last_key (l1 ++ [(k, v)]) None)
        by (by rewrite last_key_app).
      rewrite (walk_parent_chain _ _ (first_key l2 None)); [by eexists| | |].
      * rewrite fmap_app. apply NoDup_app. split_and!; [done| |].
        -- intros x Hx Hx'. apply (Hd x Hx). simpl in Hx'.
           apply list_elem_of_singleton in Hx'. subst. apply elem_of_cons.
           by left.
        -- apply NoDup_singleton.
      * rewrite Hm. rewrite (cons_middle (k, v) l1 l2), (assoc_L (++)).
        rewrite (chain_app None (l1 ++ [(k, v)]) l2 None).
        apply map_union_subseteq_l.
      * rewrite (cons_middle (k, v) l1 l2), (assoc_L (++)).
        apply length_le_app_l.
Qed.

End chain_ops.

(** ** The expiry sweep *)

Section sweep.
Context {K : Type} `{Countable K} `{Truthy K}.
Implicit Types (l : list (K * Z)) (k : K) (v : Z) (d : DoubleLinked K).

Lemma on_dlset_eq {A} (c : M (DoubleLinkedSet K) A) d o s' :
  c (dlset d) = (o, s') →
  on_dlset c d = (o, mkDoubleLinked (_ts d) (user_sessions d) s').
Proof. intros Hc. unfold on_dlset. by rewrite Hc. Qed.

Lemma cleanup_loop_chain cutoff l : ∀ fuel n d,
  repr (dlset d) l → all_truthy l →
  (∀ k, k ∈ l.*1 → is_Some (user_sessions d !! k)) →
  (length l < fuel)%nat →
  ∃ d', cleanup_loop fuel cutoff n (list.head (nodes None l None)) d
        = (Ok (n + Z.of_nat (length (expired_prefix cutoff l))), d') ∧
        repr (dlset d') (after_expired cutoff l) ∧
        user_sessions d'
        = foldr delete (user_sessions d) (expired_prefix cutoff l).*1.
Proof.
  induction l as [|[k v] l IH]; intros fuel n d Hr Ht Hus Hf.
  - exists d. destruct fuel; simpl; rewrite Z.add_0_r; by split_and!.
  - destruct fuel as [|fuel]; [lia|]. cbn [nodes list.head cleanup_loop value].
    cbn [expired_prefix after_expired].
    destruct (Z.gtb_spec v cutoff) as [Hv|Hv].
    + rewrite bool_decide_eq_false_2 by lia.
      exists d. simpl. rewrite Z.add_0_r. by split_and!.
    + rewrite bool_decide_eq_true_2 by lia. cbn [id].
      destruct (unlink_repr _ _ k Hr Ht) as (s1 & Hu & Hr1).
      pose proof Hr as (Hnd & _).
      rewrite (remove_key_present k v [] l Hnd) in Hr1. simpl in Hr1.
      rewrite fmap_cons in Hnd. apply NoDup_cons in Hnd as [Hk Hnd].
      apply Forall_cons in Ht as [_ Ht].
      destruct (Hus k) as [ts Hts]; [apply elem_of_cons; by left|].
      rewrite (bind_Ok _ _ _ _ _ (on_dlset_eq _ _ _ _ Hu)).
      erewrite bind_Ok.
      2:{ unfold user_sessions_delitem. cbn [user_sessions _ts dlset].
          by rewrite Hts. }
      erewrite bind_Ok.
      2:{ apply on_dlset_eq. cbn [dlset]. by apply head_repr. }
      cbn [user_sessions _ts dlset].
      destruct (IH fuel (n + 1)
        (mkDoubleLinked (_ts d) (delete k (user_sessions d)) s1))
        as (d' & Hd' & Hr' & Hus'); [done|done| |simpl in Hf; lia|].
      { intros k' Hk'. cbn [user_sessions].
        rewrite lookup_delete_ne by (by intros ->).
        apply Hus, elem_of_cons. by right. }
      exists d'. split_and!; [|done|].
      * rewrite Hd'. do 2 f_equal. cbn [length]. lia.
      * rewrite Hus'. cbn [user_sessions]. rewrite fmap_cons. cbn [foldr fst].
        generalize (expired_prefix cutoff l).*1. clear.
        intros ks. induction ks as [|k' ks IHk]; [done|].
        simpl. by rewrite IHk, delete_delete.
Qed.

Lemma keys_le_size l (us : gmap K Z) :
  NoDup l.*1 → (∀ k, k ∈ l.*1 → is_Some (us !! k)) →
  (length l ≤ size us)%nat.
Proof.
  intros Hnd Hus. rewrite <- (length_fmap fst l).
  rewrite <- (size_list_to_set (C:=gset K) l.*1 Hnd), <- (size_dom (D:=gset K) us).
  apply subseteq_size. intros k Hk. apply elem_of_list_to_set in Hk.
  apply elem_of_dom. by apply Hus.
Qed.

(** [cleanup_sessions] on a chain of truthy keys that [user_sessions]
    knows: the count is the length of the expired prefix, and that prefix
    is what leaves the chain and [user_sessions]. *)
Lemma cleanup_sessions_chain cutoff l d :
  repr (dlset d) l → all_truthy l →
  (∀ k, k ∈ l.*1 → is_Some (user_sessions d !! k)) →
  ∃ d', cleanup_sessions cutoff d
        = (Ok (Z.of_nat (length (expired_prefix cutoff l))), d') ∧
        repr (dlset d') (after_expired cutoff l) ∧
        user_sessions d'
        = foldr delete (user_sessions d) (expired_prefix cutoff l).*1.
Proof.
  intros Hr Ht Hus. unfold cleanup_sessions.
  rewrite (bind_Ok (gets _) _ _ _ _ eq_refl).
  erewrite bind_Ok.
  2:{ apply on_dlset_eq. by apply head_repr. }
  destruct d as [ts us s]. cbn [_ts user_sessions dlset] in *.
  apply (cleanup_loop_chain cutoff l (S (size us)) 0
           (mkDoubleLinked ts us s)); [done..|].
  pose proof Hr as (Hnd & _). pose proof (keys_le_size l us Hnd Hus). lia.
Qed.

(** *** The sweep always ends

    No method of [DoubleLinkedSet] loops, and the loop of
    [cleanup_sessions] ends within the rounds it is given, in every
    state. *)

Lemma terminates_ret {St A} (a : A) : terminates (mret a : M St A).
Proof. by intros x. Qed.

Lemma terminates_gets {St A} (f : St → A) : terminates (gets f).
Proof. by intros x. Qed.

Lemma terminates_modify {St} (f : St → St) : terminates (modify f).
Proof. by intros x. Qed.

Lemma terminates_bind {St A B} (c : M St A) (f : A → M St B) :
  terminates c → (∀ a, terminates (f a)) → terminates (c ≫= f).
Proof.
  intros Hc Hf x. unfold mbind, M_bind. specialize (Hc x).
  destruct (c x) as [[a| |] x1]; simpl in *; [apply Hf|done..].
Qed.

Lemma terminates_when {St} (b : bool) (c : M St unit) :
  terminates c → terminates (when b c).
Proof. intros Hc. destruct b; [done|apply terminates_ret]. Qed.

Lemma terminates_map_getitem k : terminates (map_getitem (K:=K) k).
Proof. intros x. unfold map_getitem. by destruct (_map x !! k). Qed.

Lemma terminates_map_pop k : terminates (map_pop (K:=K) k).
Proof. intros x. unfold map_pop. by destruct (_map x !! k). Qed.

Ltac terminates_step :=
  first
    [ apply terminates_ret | apply terminates_gets | apply terminates_modify
    | apply terminates_map_getitem | apply terminates_map_pop
    | apply terminates_when
    | apply terminates_bind; [| intros ?]
    | match goal with
      | |- terminates (match ?x with _ => _ end) => destruct x
      | |- terminates (if ?x then _ else _) => destruct x
      end ].

Lemma terminates_unlink k : terminates (unlink (K:=K) k).
Proof.
  unfold unlink, splice, set_parent_id, set_child_id, set_head_id,
    set_tail_id, map_setitem.
  repeat terminates_step.
Qed.

Lemma terminates_head : terminates (head (K:=K)).
Proof. unfold head. repeat terminates_step. Qed.

Lemma terminates_add k v : terminates (add (K:=K) k v).
Proof.
  unfold add, splice, set_parent_id, set_child_id, set_head_id,
    set_tail_id, map_setitem.
  repeat terminates_step.
Qed.

Lemma on_dlset_user_sessions {A} (c : M (DoubleLinkedSet K) A) d :
  user_sessions (on_dlset c d).2 = user_sessions d.
Proof. unfold on_dlset. by destruct (c (dlset d)). Qed.

Lemma terminates_on_dlset {A} (c : M (DoubleLinkedSet K) A) :
  terminates c → terminates (on_dlset c).
Proof.
  intros Hc d. unfold on_dlset. specialize (Hc (dlset d)).
  by destruct (c (dlset d)).
Qed.

Lemma cleanup_loop_terminates cutoff fuel : ∀ n sess d,
  (size (user_sessions d) < fuel)%nat →
  (cleanup_loop fuel cutoff n sess d).1 ≠ OutOfFuel.
Proof.
  induction fuel as [|fuel IH]; intros n sess d Hf; [lia|].
  destruct sess as [node|]; [|done]. cbn [cleanup_loop].
  destruct (value node >? cutoff); [done|].
  unfold mbind at 1, M_bind at 1.
  pose proof (terminates_on_dlset _ (terminates_unlink (id node)) d) as Hu.
  pose proof (on_dlset_user_sessions (unlink (id node)) d) as Hus1.
  destruct (on_dlset (unlink (id node)) d) as [[r| |] d1]; simpl in *;
    [|done..].
  unfold mbind at 1, M_bind at 1. unfold user_sessions_delitem.
  destruct (user_sessions d1 !! id node) as [ts|] eqn:Hts; [|done].
  unfold mbind at 1, M_bind at 1.
  set (d2 := mkDoubleLinked (_ts d1) (delete (id node) (user_sessions d1))
                            (dlset d1)).
  pose proof (terminates_on_dlset _ terminates_head d2) as Hh.
  pose proof (on_dlset_user_sessions head d2) as Hus2.
  destruct (on_dlset head d2) as [[sess'| |] d3]; simpl in *; [|done..].
  apply IH. rewrite Hus2. unfold d2. cbn [user_sessions].
  rewrite map_size_delete_Some by eauto. rewrite Hus1.
  assert (size (user_sessions d) ≠ 0%nat); [|lia].
  rewrite <- Hus1. intros Hz. apply map_size_empty_inv in Hz.
  by rewrite Hz, lookup_empty in Hts.
Qed.

Lemma cleanup_sessions_terminates cutoff d :
  (cleanup_sessions cutoff d).1 ≠ OutOfFuel.
Proof.
  unfold cleanup_sessions. rewrite (bind_Ok (gets _) _ _ _ _ eq_refl).
  unfold mbind, M_bind.
  pose proof (terminates_on_dlset _ terminates_head d) as Hh.
  pose proof (on_dlset_user_sessions head d) as Hus.
  destruct (on_dlset head d) as [[sess| |] d1]; cbn [fst snd] in *; [|done..].
  apply cleanup_loop_terminates. rewrite Hus. lia.
Qed.

End sweep.

(** ** A state that satisfies I1-I3 is a chain *)

Section valid_repr.
Context {K : Type} `{Countable K} `{Truthy K}.
Implicit Types (l : list (K * Z)) (k : K) (v : Z) (s : DoubleLinkedSet K).
Implicit Types (m : gmap K (Node K)) (ks : list K).

Lemma walk_nil (next : Node K → option K) fuel m cur :
  walk next fuel m cur = Some [] → cur ≫= (m !!.) = None.
Proof.
  destruct cur as [k|]; [|done]. simpl.
  destruct fuel; simpl; destruct (m !! k) as [n|]; try done.
  by destruct (walk next fuel m (next n)).
Qed.

Lemma walk_cons (next : Node K → option K) fuel m cur k ks :
  walk next fuel m cur = Some (k :: ks) →
  cur = Some k ∧
  ∃ n fuel', m !! k = Some n ∧ walk next fuel' m (next n) = Some ks.
Proof.
  destruct cur as [k'|]; [|by destruct fuel].
  destruct fuel; simpl; destruct (m !! k') as [n|] eqn:Hn; try done.
  destruct (walk next fuel m (next n)) as [ks'|] eqn:Hw; [|done].
  simpl. intros [= -> ->]. eauto.
Qed.

(** The node in the middle of a walk and the walk that goes on from it. *)
Lemma walk_split (next : Node K → option K) ks1 : ∀ fuel m cur k ks2,
  walk next fuel m cur = Some (ks1 ++ k :: ks2) →
  ∃ n fuel', m !! k = Some n ∧ walk next fuel' m (next n) = Some ks2.
Proof.
  induction ks1 as [|k1 ks1 IH]; intros fuel m cur k ks2 Hw.
  - by apply walk_cons in Hw as [_ Hw].
  - apply walk_cons in Hw as (_ & n1 & fuel1 & _ & Hw). by eapply IH.
Qed.

Lemma walk_next_resolved (next : Node K → option K) fuel m n ks :
  resolves m (next n) →
  walk next fuel m (next n) = Some ks → next n = list.head ks.
Proof.
  intros Hr Hw. destruct ks as [|k ks].
  - apply walk_nil in Hw. destruct (next n) as [c|]; [|done].
    simpl in *. rewrite Hw in Hr. by destruct Hr.
  - by apply walk_cons in Hw as [-> _].
Qed.

(** *** The rounds given to the generator are enough

    A walk that ends meets no key twice, so it is no longer than the dict
    has keys: whenever the generator ends, [__iter__] has its list. *)

Lemma walk_more_fuel (next : Node K → option K) m fuel : ∀ fuel' cur ks,
  walk next fuel m cur = Some ks → (fuel ≤ fuel')%nat →
  walk next fuel' m cur = Some ks.
Proof.
  induction fuel as [|fuel IH]; intros fuel' cur ks Hw Hf.
  - destruct cur as [k|]; [|by destruct fuel'].
    simpl in Hw. destruct fuel'; simpl; by destruct (m !! k).
  - destruct fuel' as [|fuel']; [lia|].
    destruct cur as [k|]; [|done]. simpl in *.
    destruct (m !! k) as [n|]; [|done].
    destruct (walk next fuel m (next n)) as [ks'|] eqn:Hw'; [|done].
    rewrite (IH fuel' _ ks' Hw'); [done|lia].
Qed.

Lemma walk_elem (next : Node K → option K) fuel m cur ks k :
  walk next fuel m cur = Some ks → k ∈ ks → is_Some (m !! k).
Proof.
  intros Hw Hk. apply list_elem_of_split in Hk as (ks1 & ks2 & ->).
  destruct (walk_split next ks1 _ _ _ _ _ Hw) as (n & _ & Hn & _). eauto.
Qed.

Lemma walk_NoDup (next : Node K → option K) m fuel : ∀ cur ks,
  walk next fuel m cur = Some ks → NoDup ks.
Proof.
  induction fuel as [|fuel IH]; intros cur ks Hw.
  - destruct cur as [k|]; simpl in Hw; [destruct (m !! k)|];
      simplify_eq; apply NoDup_nil_2.
  - destruct ks as [|k ks]; [apply NoDup_nil_2|].
    pose proof Hw as Hw0. apply walk_cons in Hw0 as (-> & n & f1 & Hn & _).
    simpl in Hw. rewrite Hn in Hw.
    destruct (walk next fuel m (next n)) as [ks'|] eqn:Hw'; [|done].
    injection Hw as ->. apply NoDup_cons. split; [|by eapply IH].
    intros Hk. apply list_elem_of_split in Hk as (a & b & ->).
    destruct (walk_split next a _ _ _ _ _ Hw') as (n' & f2 & Hn' & Hb).
    rewrite Hn in Hn'. injection Hn' as <-.
    apply (walk_more_fuel next m f2 (f2 `max` fuel)) in Hb; [|lia].
    apply (walk_more_fuel next m fuel (f2 `max` fuel)) in Hw'; [|lia].
    rewrite Hb in Hw'. injection Hw' as Hw'.
    apply (f_equal length) in Hw'. rewrite length_app in Hw'. simpl in Hw'.
    lia.
Qed.

Lemma iter_from_walk m fuel : ∀ cur ns,
  iter_from fuel m cur = Some ns →
  ∃ ks, walk child_id fuel m cur = Some ks ∧ length ks = length ns.
Proof.
  induction fuel as [|fuel IH]; intros cur ns Hi.
  - destruct cur as [k|]; simpl in *; [destruct (m !! k)|];
      simplify_eq; by exists [].
  - destruct cur as [k|]; simpl in *; [|simplify_eq; by exists []].
    destruct (m !! k) as [n|]; [|simplify_eq; by exists []].
    destruct (iter_from fuel m (child_id n)) as [ns'|] eqn:Hi'; [|done].
    destruct (IH _ _ Hi') as (ks & -> & Hl). simpl in Hi. injection Hi as <-.
    exists (k :: ks). simpl. by rewrite Hl.
Qed.

Lemma iter_from_exact m fuel : ∀ cur ns,
  iter_from fuel m cur = Some ns → iter_from (length ns) m cur = Some ns.
Proof.
  induction fuel as [|fuel IH]; intros cur ns Hi; cbn [iter_from] in Hi.
  - destruct (cur ≫= (m !!.)) eqn:Hc; [done|]. injection Hi as <-.
    cbn [length iter_from]. by rewrite Hc.
  - destruct (cur ≫= (m !!.)) as [node|] eqn:Hc.
    + destruct (iter_from fuel m (child_id node)) as [ns'|] eqn:Hi'; [|done].
      injection Hi as <-. cbn [length iter_from].
      by rewrite Hc, (IH _ _ Hi').
    + injection Hi as <-. cbn [length iter_from]. by rewrite Hc.
Qed.

(** Whenever the generator ends, [__iter__] has what it yielded. *)
Lemma iter_from_enough s fuel ns :
  iter_from fuel (_map s) (_head_id s) = Some ns → __iter__ s = Some ns.
Proof.
  intros Hi. unfold __iter__.
  apply (iter_from_more_fuel _ (length ns)); [by eapply iter_from_exact|].
  destruct (iter_from_walk _ _ _ _ Hi) as (ks & Hw & <-).
  rewrite <- (size_list_to_set (C:=gset K) ks) by (by eapply walk_NoDup).
  rewrite <- (size_dom (D:=gset K)). apply subseteq_size.
  intros k Hk. apply elem_of_list_to_set in Hk. apply elem_of_dom.
  by eapply walk_elem.
Qed.

Lemma entries_along_keys m ks : (entries_along m ks).*1 = ks.
Proof.
  unfold entries_along.
  induction ks as [|k ks IH]; [done|]. rewrite !fmap_cons. by f_equal.
Qed.

Lemma valid_repr s : valid s → ∃ l, repr s l.
Proof.
  intros (HI1 & [Hht Htm] & HI3). unfold I1 in HI1.
  destruct (forward s) as [ks|] eqn:Hf; [|done].
  destruct (backward s) as [rs|] eqn:Hb; [|done].
  destruct HI1 as (Hnd & Hdom & Hlast & -> & Hid).
  exists (entries_along (_map s) ks).
  assert (∀ ks1 k ks2, ks = ks1 ++ k :: ks2 →
    _map s !! k = Some (mkNode k (from_option value 0 (_map s !! k))
                               (last ks1) (list.head ks2))) as Hnode.
  { intros ks1 k ks2 ->.
    destruct (walk_split child_id ks1 _ _ _ k ks2 Hf) as (n & f1 & Hn & Hw1).
    rewrite reverse_app, reverse_cons, <- (assoc_L (++)) in Hb. simpl in Hb.
    destruct (walk_split parent_id _ _ _ _ _ _ Hb) as (n' & f2 & Hn' & Hw2).
    rewrite Hn in Hn'. injection Hn' as <-.
    destruct (HI3 k n Hn) as (Hrp & Hrc & _).
    apply walk_next_resolved in Hw1; [|done].
    apply walk_next_resolved in Hw2; [|done].
    rewrite head_reverse in Hw2. specialize (Hid k n Hn).
    rewrite Hn. simpl. destruct n as [i v p c]. simpl in *. by subst. }
  split_and!.
  - by rewrite entries_along_keys.
  - apply map_eq. intros k.
    destruct (decide (k ∈ ks)) as [Hk|Hk].
    + apply list_elem_of_split in Hk as (ks1 & ks2 & Hks).
      rewrite (Hnode _ _ _ Hks). subst ks.
      unfold entries_along. rewrite fmap_app, fmap_cons.
      fold (entries_along (_map s) ks1) (entries_along (_map s) ks2).
      edestruct (chain_around (entries_along (_map s) ks1) k
        (from_option value 0 (_map s !! k)) (entries_along (_map s) ks2))
        as [-> _].
      { rewrite fmap_app, fmap_cons, !entries_along_keys. done. }
      by rewrite last_key_last, first_key_head, !entries_along_keys.
    + rewrite chain_lookup_None by (by rewrite entries_along_keys).
      apply not_elem_of_dom. rewrite <- Hdom. by rewrite elem_of_list_to_set.
  - rewrite first_key_head, entries_along_keys.
    destruct ks as [|k ks].
    + simpl in *. rewrite Hht, <- Hlast. done.
    + by apply walk_cons in Hf as [-> _].
  - by rewrite last_key_last, entries_along_keys.
Qed.

(** The two descriptions agree. *)
Lemma valid_iff_repr s : valid s ↔ ∃ l, repr s l.
Proof. split; [apply valid_repr|]. intros [l Hr]. by eapply repr_valid. Qed.

End valid_repr.

(** ** The index on truthy keys

    Every key that is not falsy in Python (a non-zero integer, a non-empty
    string) is handled as the data model says.  The statements below are
    about states that satisfy I1-I3 and hold only truthy keys. *)

Section truthy.
Context {K : Type} `{Countable K} `{Truthy K}.
Implicit Types (l : list (K * Z)) (k : K) (v : Z) (s : DoubleLinkedSet K).
Implicit Types (d : DoubleLinked K).

Lemma repr_all_truthy s l : repr s l → truthy_keys s → all_truthy l.
Proof.
  intros (_ & Hm & _) Ht. apply Forall_forall. intros [k v] Hin.
  assert (is_Some (_map s !! k)) as [n Hn].
  { rewrite Hm. apply chain_lookup_is_Some. apply list_elem_of_fmap.
    by exists (k, v). }
  by apply (Ht k n).
Qed.

Lemma repr_truthy_keys s l : repr s l → all_truthy l → truthy_keys s.
Proof.
  intros (_ & Hm & _) Ht k n Hn. apply elem_of_dom_2 in Hn.
  rewrite Hm, dom_chain in Hn. apply elem_of_list_to_set in Hn.
  apply list_elem_of_fmap in Hn as ([k' v] & -> & Hin).
  by apply (proj1 (Forall_forall _ _) Ht (k', v)).
Qed.

Lemma repr_lookup s l k : repr s l → is_Some (_map s !! k) ↔ k ∈ l.*1.
Proof.
  intros (_ & Hm & _).
  by rewrite <- elem_of_dom, Hm, dom_chain, elem_of_list_to_set.
Qed.

Lemma length_remove_key l k :
  NoDup l.*1 → k ∈ l.*1 → S (length (remove_key k l)) = length l.
Proof.
  intros Hnd Hk. destruct (split_at_key l k Hk) as (l1 & v & l2 & ->).
  rewrite (remove_key_present _ _ _ _ Hnd), !length_app. simpl. lia.
Qed.

(** On truthy keys upsert ([add]) returns, its key is the last entry that
    iterate yields, with the new value, and I1-I3 hold again. *)
Lemma add_valid s k v :
  valid s → truthy_keys s →
  ∃ s' l', add k v s = (Ok tt, s') ∧ valid s' ∧
           entries s' = Some (l' ++ [(k, v)]).
Proof.
  intros Hv Ht. destruct (valid_repr s Hv) as [l Hr].
  destruct (add_repr s l k v Hr (repr_all_truthy _ _ Hr Ht)) as (s' & Ha & Hr').
  exists s', (remove_key k l). split_and!; [done| |].
  - by eapply repr_valid.
  - by apply entries_repr.
Qed.

(** On truthy keys removeByKey ([unlink]) of a present key leaves the
    entries that iterate yielded, in their order, without the one of the
    key, and the size goes down by one. *)
Lemma unlink_valid s k :
  valid s → truthy_keys s → is_Some (_map s !! k) →
  ∃ s' l, entries s = Some l ∧ unlink k s = (Ok None, s') ∧
          entries s' = Some (remove_key k l) ∧
          S (__len__ s') = __len__ s ∧ valid s'.
Proof.
  intros Hv Ht Hk. destruct (valid_repr s Hv) as [l Hr].
  destruct (unlink_repr s l k Hr (repr_all_truthy _ _ Hr Ht)) as (s' & Hu & Hr').
  exists s', l. split_and!; [by apply entries_repr|done| | |].
  - by apply entries_repr.
  - rewrite (len_repr _ _ Hr), (len_repr _ _ Hr').
    apply length_remove_key; [by destruct Hr|]. by apply (repr_lookup s l k).
  - by eapply repr_valid.
Qed.

(** On truthy keys oldest ([head]) is the first node that iterate yields,
    it leaves the state as it is, and it is empty exactly when the size
    is 0. *)
Lemma head_valid s :
  valid s → truthy_keys s →
  ∃ ns, __iter__ s = Some ns ∧ head s = (Ok (list.head ns), s) ∧
        (list.head ns = None ↔ __len__ s = 0%nat).
Proof.
  intros Hv Ht. destruct (valid_repr s Hv) as [l Hr].
  exists (nodes None l None). split_and!.
  - by apply iter_repr.
  - apply head_repr; [done|]. by eapply repr_all_truthy.
  - rewrite (len_repr _ _ Hr). by destruct l as [|[]].
Qed.

Lemma add_all_repr l : ∀ s l0,
  repr s l0 → NoDup (l0 ++ l).*1 → all_truthy (l0 ++ l) →
  ∃ s', add_all l s = (Ok tt, s') ∧ repr s' (l0 ++ l).
Proof.
  induction l as [|[k v] l IH]; intros s l0 Hr Hnd Ht.
  - exists s. by rewrite (right_id_L [] (++)).
  - rewrite (cons_middle (k, v) l0 l), (assoc_L (++)) in Hnd, Ht |- *.
    assert (all_truthy l0) as Ht0.
    { apply Forall_app in Ht as [Ht _]. by apply Forall_app in Ht as [Ht _]. }
    assert (k ∉ l0.*1) as Hk.
    { rewrite fmap_app in Hnd. apply NoDup_app in Hnd as (Hnd & _ & _).
      rewrite fmap_app in Hnd. apply NoDup_app in Hnd as (_ & Hd & _).
      intros Hin. apply (Hd k Hin). apply elem_of_cons. by left. }
    destruct (add_repr s l0 k v Hr Ht0) as (s1 & Ha & Hr1).
    rewrite (remove_key_absent _ _ Hk) in Hr1.
    destruct (IH s1 (l0 ++ [(k, v)]) Hr1 Hnd Ht) as (s' & Hs' & Hr').
    exists s'. split; [|done]. cbn [add_all]. by rewrite (bind_Ok _ _ _ _ _ Ha).
Qed.

(** Upserts of distinct truthy keys on the empty index: iterate yields
    exactly those entries, in the order of the upserts. *)
Lemma add_all_entries l :
  NoDup l.*1 → all_truthy l →
  ∃ s', add_all l __init__ = (Ok tt, s') ∧ entries s' = Some l.
Proof.
  intros Hnd Ht.
  destruct (add_all_repr l __init__ [] init_repr Hnd Ht) as (s' & Ha & Hr).
  exists s'. split; [done|]. by apply entries_repr.
Qed.

(** On truthy keys that [user_sessions] knows, expireUpTo
    ([cleanup_sessions]) takes the leading entries with
    [value <= cutoff] off the chain and returns how many they are. *)
Lemma cleanup_sessions_valid cutoff d :
  valid (dlset d) → truthy_keys (dlset d) →
  (∀ k, is_Some (_map (dlset d) !! k) → is_Some (user_sessions d !! k)) →
  ∃ d' l, entries (dlset d) = Some l ∧
          cleanup_sessions cutoff d
          = (Ok (Z.of_nat (length (expired_prefix cutoff l))), d') ∧
          entries (dlset d') = Some (after_expired cutoff l) ∧
          l = expired_prefix cutoff l ++ after_expired cutoff l ∧
          valid (dlset d').
Proof.
  intros Hv Ht Hus. destruct (valid_repr _ Hv) as [l Hr].
  destruct (cleanup_sessions_chain cutoff l d Hr (repr_all_truthy _ _ Hr Ht))
    as (d' & Hc & Hr' & _).
  { intros k Hk. apply Hus. by apply (repr_lookup _ l k). }
  exists d', l. split_and!; [by apply entries_repr|done|by apply entries_repr| |].
  - clear. induction l as [|[k v] l IH]; [done|]. simpl.
    case_bool_decide; [|done]. simpl. by f_equal.
  - by eapply repr_valid.
Qed.

End truthy.

(** ** Sequences of operations *)

Section runs.
Context {K : Type} `{Countable K} `{Truthy K}.
Implicit Types (l : list (K * Z)) (k : K) (v : Z) (s : DoubleLinkedSet K).
Implicit Types (d : DoubleLinked K).

(** Whenever [add] returns, the size is the one the dict had if the key
    was in it, and one more if not. *)
Lemma add_len s k v s' :
  add k v s = (Ok tt, s') →
  __len__ s' = if bool_decide (is_Some (_map s !! k)) then __len__ s
               else S (__len__ s).
Proof.
  intros Ha. unfold __len__.
  rewrite <- !(size_dom (D:=gset K)), (add_dom _ _ _ _ Ha).
  case_bool_decide as Hk.
  - f_equal. apply subseteq_union_1_L, singleton_subseteq_l.
    by apply elem_of_dom.
  - rewrite size_union, size_singleton; [done|].
    apply disjoint_singleton_l. by rewrite elem_of_dom.
Qed.

Lemma remove_key_elem l k k' : k' ∈ (remove_key k l).*1 → k' ∈ l.*1.
Proof.
  intros Hk. apply list_elem_of_fmap in Hk as (kv & -> & Hin).
  apply list_elem_of_filter in Hin as [_ Hin].
  apply list_elem_of_fmap. by exists kv.
Qed.

Lemma remove_key_truthy l k : all_truthy l → all_truthy (remove_key k l).
Proof.
  intros Ht. apply Forall_forall. intros kv Hin.
  apply list_elem_of_filter in Hin as [_ Hin].
  by apply (proj1 (Forall_forall _ _) Ht).
Qed.

Lemma expired_split cutoff l :
  l = expired_prefix cutoff l ++ after_expired cutoff l.
Proof.
  induction l as [|[k v] l IH]; [done|]. simpl.
  case_bool_decide; [|done]. simpl. by f_equal.
Qed.

Lemma after_expired_truthy cutoff l :
  all_truthy l → all_truthy (after_expired cutoff l).
Proof.
  intros Ht. rewrite (expired_split cutoff l) in Ht.
  by apply Forall_app in Ht as [_ Ht].
Qed.

Lemma step_tracked o d l :
  truthy_op o → tracked d l →
  ∃ d' l', step o d = (Ok tt, d') ∧ tracked d' l'.
Proof.
  intros Ho (Hr & Ht & Hus). destruct o as [k v|k|cutoff]; cbn [step].
  - destruct (add_repr _ l k v Hr Ht) as (s' & Ha & Hr').
    rewrite (bind_Ok (user_sessions_setitem _ _) _ _ tt _ eq_refl).
    unfold optimize_session_search.
    erewrite on_dlset_eq by (cbn [dlset]; exact Ha).
    eexists _, _. split; [reflexivity|]. split_and!; cbn [dlset user_sessions].
    + exact Hr'.
    + apply Forall_app. split; [by apply remove_key_truthy|].
      by apply Forall_singleton.
    + intros k'. rewrite fmap_app, elem_of_app. simpl.
      rewrite list_elem_of_singleton. intros [Hk'| ->].
      * destruct (decide (k = k')) as [->|Hne].
        -- rewrite lookup_insert_eq. eauto.
        -- rewrite lookup_insert_ne by done.
           by eapply Hus, remove_key_elem.
      * rewrite lookup_insert_eq. eauto.
  - destruct (unlink_repr _ l k Hr Ht) as (s' & Hu & Hr').
    rewrite (bind_Ok _ _ _ _ _ (on_dlset_eq _ _ _ _ Hu)).
    eexists _, _. split; [reflexivity|]. split_and!; cbn [dlset user_sessions].
    + exact Hr'.
    + by apply remove_key_truthy.
    + intros k' Hk'. by eapply Hus, remove_key_elem.
  - destruct (cleanup_sessions_chain cutoff l d Hr Ht Hus)
      as (d' & Hc & Hr' & Hus').
    rewrite (bind_Ok _ _ _ _ _ Hc).
    eexists _, _. split; [reflexivity|]. split_and!.
    + exact Hr'.
    + by apply after_expired_truthy.
    + intros k' Hk'. rewrite Hus'.
      destruct Hr as (Hnd & _). rewrite (expired_split cutoff l) in Hnd, Hus.
      rewrite fmap_app in Hnd, Hus. apply NoDup_app in Hnd as (_ & Hd & _).
      assert (is_Some (user_sessions d !! k')) as [ts Hts].
      { apply Hus, elem_of_app. by right. }
      exists ts. rewrite lookup_foldr_delete_not_elem_of; [done|].
      intros Hin. by apply (Hd k' Hin).
Qed.

Lemma run_tracked ops : ∀ d l,
  Forall truthy_op ops → tracked d l →
  ∃ d' l', run ops d = (Ok tt, d') ∧ tracked d' l'.
Proof.
  induction ops as [|o ops IH]; intros d l Ho Htr.
  - by exists d, l.
  - apply Forall_cons in Ho as [Ho Hops].
    destruct (step_tracked o d l Ho Htr) as (d1 & l1 & Hs & Htr1).
    destruct (IH d1 l1 Hops Htr1) as (d' & l' & Hr & Htr').
    exists d', l'. split; [|done]. cbn [run]. by rewrite (bind_Ok _ _ _ _ _ Hs).
Qed.

(** After any sequence of operations on truthy keys, started on the empty
    index, I1-I3 hold, oldest ([head]) is the first node that iterate
    yields, and it is empty exactly when the size is 0. *)
Lemma run_head_consistent ops :
  Forall truthy_op ops →
  ∃ d ns, run ops Testable_init = (Ok tt, d) ∧ valid (dlset d) ∧
          __iter__ (dlset d) = Some ns ∧
          head (dlset d) = (Ok (list.head ns), dlset d) ∧
          (list.head ns = None ↔ __len__ (dlset d) = 0%nat).
Proof.
  intros Ho.
  destruct (run_tracked ops Testable_init [] Ho) as (d & l & Hr & Htr).
  { split_and!; [apply init_repr|by apply Forall_nil|].
    intros k Hk. by apply elem_of_nil in Hk. }
  destruct Htr as (Hrep & Ht & _).
  exists d, (nodes None l None). split_and!; [done| | | |].
  - by eapply repr_valid.
  - by apply iter_repr.
  - by apply head_repr.
  - rewrite (len_repr _ _ Hrep). by destruct l as [|[]].
Qed.

End runs.


(** ** The states the methods reach *)

Section hoare.
Context {St : Type} (I : St → Prop).

Lemma hoare_ret {A} (a : A) (φ : A → Prop) : φ a → hoare I (mret a) φ.
Proof. intros Ha x Hx. by split. Qed.

Lemma hoare_gets {A} (f : St → A) : hoare I (gets f) (λ _, True).
Proof. intros x Hx. by split. Qed.

Lemma hoare_bind {A B} (c : M St A) (f : A → M St B) φ ψ :
  hoare I c φ → (∀ a, φ a → hoare I (f a) ψ) → hoare I (c ≫= f) ψ.
Proof.
  intros Hc Hf x Hx. unfold mbind, M_bind. destruct (Hc x Hx) as [HI Hφ].
  destruct (c x) as [[a| |] x1]; simpl in *; [by apply Hf|done..].
Qed.

Lemma hoare_when (b : bool) (c : M St unit) :
  (b = true → hoare I c (λ _, True)) → hoare I (when b c) (λ _, True).
Proof. intros Hc. destruct b; [by apply Hc|by apply hoare_ret]. Qed.

Lemma hoare_weaken {A} (c : M St A) (φ ψ : A → Prop) :
  hoare I c φ → (∀ a, φ a → ψ a) → hoare I c ψ.
Proof.
  intros Hc Hw x Hx. destruct (Hc x Hx) as [HI Hφ]. split; [done|].
  destruct (c x).1; auto.
Qed.

End hoare.

Section reach.
Context {K : Type} `{Countable K} `{Truthy K}.
Implicit Types (l : list (K * Z)) (k : K) (v : Z) (s : DoubleLinkedSet K).
Implicit Types (n : Node K).

Lemma falsy_last_map_pop k : hoare falsy_last (map_pop k) (λ _, True).
Proof.
  intros s Hs. unfold map_pop. destruct (_map s !! k); [|done].
  split; [|done]. by apply map_Forall_delete.
Qed.

Lemma falsy_last_map_setitem k n :
  child_id n = None → hoare falsy_last (map_setitem k n) (λ _, True).
Proof.
  intros Hn s Hs. split; [|done]. by apply map_Forall_insert_2.
Qed.

Lemma falsy_last_set_parent_id k p :
  hoare falsy_last (set_parent_id k p) (λ _, True).
Proof.
  intros s Hs. unfold set_parent_id, mbind, M_bind, map_getitem.
  destruct (_map s !! k) as [n|] eqn:Hn; [|done].
  split; [|done]. apply map_Forall_insert_2; [|done]. exact (Hs k n Hn).
Qed.

Lemma falsy_last_set_child_id k c :
  truthy k = true → hoare falsy_last (set_child_id k c) (λ _, True).
Proof.
  intros Hk s Hs. unfold set_child_id, mbind, M_bind, map_getitem.
  destruct (_map s !! k) as [n|] eqn:Hn; [|done].
  split; [|done]. apply map_Forall_insert_2; [|done]. congruence.
Qed.

Lemma falsy_last_set_head_id h : hoare falsy_last (set_head_id h) (λ _, True).
Proof. by intros s Hs. Qed.

Lemma falsy_last_set_tail_id t : hoare falsy_last (set_tail_id t) (λ _, True).
Proof. by intros s Hs. Qed.

Ltac hoare_step :=
  first
    [ apply falsy_last_map_pop | apply falsy_last_set_parent_id
    | apply falsy_last_set_head_id | apply falsy_last_set_tail_id
    | apply falsy_last_set_child_id; assumption
    | apply falsy_last_map_setitem; assumption
    | apply hoare_gets
    | apply hoare_ret; done
    | apply hoare_when; intros ?
    | eapply hoare_bind; [| intros ? ?]
    | match goal with
      | |- hoare _ (match ?x with _ => _ end) _ => destruct x
      end ].

Lemma falsy_last_splice k n : hoare falsy_last (splice k n) (λ _, True).
Proof. unfold splice. repeat hoare_step. Qed.

Lemma falsy_last_add k v : hoare falsy_last (add k v) (λ _, True).
Proof.
  unfold add. eapply hoare_bind; [apply hoare_gets|]. intros m _.
  eapply (hoare_bind _ _ _ (λ n, child_id n = None)).
  - case_bool_decide.
    + eapply hoare_bind; [apply falsy_last_map_pop|]. intros n _.
      eapply hoare_bind; [apply falsy_last_splice|]. intros _ _.
      eapply hoare_bind; [apply hoare_gets|]. intros tl _.
      by apply hoare_ret.
    + eapply hoare_bind; [apply hoare_gets|]. intros tl _.
      by apply hoare_ret.
  - intros n Hn. repeat hoare_step.
Qed.

Lemma falsy_last_unlink k : hoare falsy_last (unlink k) (λ _, True).
Proof.
  unfold unlink. pose proof falsy_last_splice. repeat hoare_step.
Qed.

(** In every state the methods reach, a falsy key has no node behind
    it. *)
Lemma reachable_falsy_last s : reachable s → falsy_last s.
Proof.
  induction 1 as [|s k v _ IH|s k _ IH].
  - apply map_Forall_empty.
  - by apply falsy_last_add.
  - by apply falsy_last_unlink.
Qed.

(** In a chain where no node is linked behind a falsy key, every key
    with a successor is truthy. *)
Lemma falsy_last_truthy s l1 k v l2 :
  repr s (l1 ++ (k, v) :: l2) → falsy_last s → l2 ≠ [] → truthy k = true.
Proof.
  intros (Hnd & Hm & _) Hf Hl2.
  destruct (chain_around l1 k v l2 Hnd) as [Hk _]. rewrite <- Hm in Hk.
  specialize (Hf k _ Hk). simpl in Hf. destruct (truthy k); [done|].
  specialize (Hf eq_refl). by destruct l2 as [|[]].
Qed.

(** The generator runs through a segment and goes on from the key after
    it. *)
Lemma iter_from_app (m : gmap K (Node K)) l1 : ∀ prev nxt fuel,
  NoDup l1.*1 → chain prev l1 nxt ⊆ m →
  iter_from (length l1 + fuel) m (first_key l1 nxt)
  = (nodes prev l1 nxt ++.) <$> iter_from fuel m nxt.
Proof.
  induction l1 as [|[k v] l1 IH]; intros prev nxt fuel Hnd Hm.
  - simpl. by destruct (iter_from fuel m nxt).
  - rewrite fmap_cons in Hnd. apply NoDup_cons in Hnd as [Hk Hnd].
    cbn [length Nat.add first_key iter_from mbind option_bind].
    rewrite (lookup_weaken _ _ _ _ (chain_lookup_first prev l1 k v nxt) Hm).
    cbn [child_id nodes]. rewrite (IH (Some k) nxt fuel); [|done|].
    + by destruct (iter_from fuel m nxt).
    + etransitivity; [by apply chain_tail_subseteq|exact Hm].
Qed.

(** What iterate yields, and the size, do not depend on the [parent_id]
    of the node after the cut. *)
Lemma entries_two_segments s l1 l2 q :
  NoDup (l1 ++ l2).*1 →
  _map s = chain None l1 (first_key l2 None) ∪ chain q l2 None →
  _head_id s = first_key (l1 ++ l2) None →
  entries s = Some (l1 ++ l2) ∧ __len__ s = length (l1 ++ l2).
Proof.
  intros Hnd Hm Hh.
  pose proof Hnd as Hnd'. rewrite fmap_app in Hnd'.
  apply NoDup_app in Hnd' as (Hnd1 & Hd & Hnd2).
  assert (chain None l1 (first_key l2 None) ##ₘ chain q l2 None) as Hdisj.
  { apply map_disjoint_dom. rewrite !dom_chain. intros x Hx1 Hx2.
    apply elem_of_list_to_set in Hx1, Hx2. by apply (Hd x). }
  assert (__len__ s = length (l1 ++ l2)) as Hlen.
  { unfold __len__. rewrite Hm, map_size_disj_union by done.
    by rewrite !size_chain, length_app by done. }
  split; [|done]. unfold entries, __iter__. fold (__len__ s).
  rewrite Hlen, Hh, length_app, first_key_app.
  rewrite (iter_from_app _ l1 None); [|done|].
  2:{ rewrite Hm. apply map_union_subseteq_l. }
  rewrite (iter_from_chain _ q l2); [|done| |done].
  2:{ rewrite Hm. by apply map_union_subseteq_r. }
  simpl. by rewrite fmap_app, !key_value_nodes.
Qed.

(** [unlink] of a present key in a chain where no node is linked behind
    a falsy key: what iterate yields is the list without the entry of the
    key, and the size is one less. *)
Lemma unlink_falsy_last s l k :
  repr s l → falsy_last s → k ∈ l.*1 →
  ∃ s', unlink k s = (Ok None, s') ∧
        entries s' = Some (remove_key k l) ∧
        S (__len__ s') = __len__ s.
Proof.
  intros Hr Hf Hk. destruct (split_at_key l k Hk) as (l1 & v & l2 & ->).
  pose proof Hr as (Hnd & Hm & Hh & Htl).
  destruct (chain_around l1 k v l2 Hnd) as [Hlk Hdel].
  destruct (NoDup_without _ _ _ _ Hnd) as [Hnd' _].
  rewrite (remove_key_present _ _ _ _ Hnd).
  rewrite <- Hm in Hlk. rewrite (unlink_present _ _ _ Hlk).
  rewrite Hm, Hdel, Hh, Htl.
  erewrite bind_Ok.
  2:{ apply splice_chain_gen; [done|]. intros p Hp.
      destruct l1 as [|[p' vp] l1 _] using rev_ind; [done|].
      rewrite last_key_app in Hp. injection Hp as ->.
      rewrite <- (assoc_L (++)) in Hr. simpl in Hr.
      by apply (falsy_last_truthy s l1 p vp ((k, v) :: l2) Hr Hf). }
  set (st := mkSet (chain None l1 (first_key l2 None)
                    ∪ chain (new_prev k (last_key l1 None) l2) l2 None)
                   (first_key (l1 ++ l2) None) (last_key (l1 ++ l2) None)).
  destruct (entries_two_segments st l1 l2 (new_prev k (last_key l1 None) l2)
              Hnd' eq_refl eq_refl) as [He Hl].
  exists st. split; [reflexivity|]. split; [done|].
  rewrite Hl, (len_repr _ _ Hr), !length_app. simpl. lia.
Qed.

(** [add] returns in every state that satisfies I1-I3, whatever the
    keys. *)
Lemma add_returns_valid s k v : valid s → ∃ s', add k v s = (Ok tt, s').
Proof.
  intros Hv. destruct (valid_repr s Hv) as [l Hr].
  destruct Hv as (_ & _ & HI3). apply add_returns.
  - intros n Hn. destruct (HI3 k n Hn) as (Hrp & Hrc & Hwc & Hwp). split.
    + intros c Hc _. by apply (I3_neighbour child_id s k n c).
    + intros p Hp _. by apply (I3_neighbour parent_id s k n p).
  - intros t Ht _. right. destruct Hr as (_ & Hm & _ & Htl).
    rewrite Htl in Ht. apply last_key_elem in Ht as [?|Ht]; [done|].
    rewrite Hm. by apply chain_lookup_is_Some.
Qed.

(** The benchmark subject changes its index through [add] and [unlink]
    only: whatever it runs, the index stays among the reachable states. *)
Lemma reachable_on_dlset {A} (c : M (DoubleLinkedSet K) A) :
  (∀ s, reachable s → reachable (c s).2) →
  hoare index_reachable (on_dlset c) (λ _, True).
Proof.
  intros Hc d Hd. unfold on_dlset. specialize (Hc (dlset d) Hd).
  by destruct (c (dlset d)) as [[?| |] ?].
Qed.

Lemma reachable_head : hoare index_reachable (on_dlset head) (λ _, True).
Proof. apply reachable_on_dlset. intros s Hs. by rewrite head_state. Qed.

Lemma reachable_cleanup_loop cutoff fuel : ∀ (cnt : Z) sess,
  hoare index_reachable (cleanup_loop fuel cutoff cnt sess) (λ _, True).
Proof.
  induction fuel as [|fuel IH]; intros cnt sess; simpl;
    destruct sess as [node|]; try (by apply hoare_ret);
    destruct (value node >? cutoff); try (by apply hoare_ret).
  - by intros d Hd.
  - eapply (hoare_bind _ _ _ (λ _, True)); [|intros _ _].
    { apply reachable_on_dlset. intros s Hs. by apply reachable_unlink. }
    eapply (hoare_bind _ _ _ (λ _, True)); [|intros _ _].
    { intros d Hd. unfold user_sessions_delitem.
      by destruct (user_sessions d !! id node). }
    eapply (hoare_bind _ _ _ (λ _, True)); [apply reachable_head|]. intros sess' _. apply IH.
Qed.

Lemma reachable_step (o : op K) : hoare index_reachable (step o) (λ _, True).
Proof.
  destruct o as [k v|k|cutoff]; simpl.
  - eapply (hoare_bind _ _ _ (λ _, True)); [by intros d Hd|]. intros _ _.
    apply reachable_on_dlset. intros s Hs. by apply reachable_add.
  - eapply (hoare_bind _ _ _ (λ _, True)); [|intros _ _; by apply hoare_ret].
    apply reachable_on_dlset. intros s Hs. by apply reachable_unlink.
  - eapply (hoare_bind _ _ _ (λ _, True)); [|intros _ _; by apply hoare_ret].
    unfold cleanup_sessions.
    eapply (hoare_bind _ _ _ (λ _, True)); [apply hoare_gets|]. intros fuel _.
    eapply (hoare_bind _ _ _ (λ _, True)); [apply reachable_head|]. intros sess _.
    apply reachable_cleanup_loop.
Qed.

Lemma reachable_run (ops : list (op K)) :
  reachable (dlset (run ops Testable_init).2).
Proof.
  assert (hoare index_reachable (run ops) (λ _, True)) as Hrun.
  { induction ops as [|o ops IH]; simpl; [by apply hoare_ret|].
    eapply (hoare_bind _ _ _ (λ _, True)); [apply reachable_step|]. by intros _ _. }
  apply Hrun. apply reachable_init.
Qed.

End reach.

(** ** The general statements on the scenario's keys *)

Example add_valid_BCA :
  ∃ s' l', add "B" 5 (dlset d_BCA) = (Ok tt, s') ∧ valid s' ∧
           entries s' = Some (l' ++ [("B", 5)]).
Proof. apply add_valid; compute_done. Qed.

Example head_valid_BCA :
  ∃ ns, __iter__ (dlset d_BCA) = Some ns ∧
        head (dlset d_BCA) = (Ok (list.head ns), dlset d_BCA) ∧
        (list.head ns = None ↔ __len__ (dlset d_BCA) = 0%nat).
Proof. apply head_valid; compute_done. Qed.

Example add_all_entries_ABC :
  ∃ s', add_all [("A", 1); ("B", 2); ("C", 3)] __init__ = (Ok tt, s') ∧
        entries s' = Some [("A", 1); ("B", 2); ("C", 3)].
Proof. apply add_all_entries; compute_done. Qed.

Example cleanup_sessions_valid_BCA :
  ∃ d' l, entries (dlset d_BCA) = Some l ∧
          cleanup_sessions 3 d_BCA
          = (Ok (Z.of_nat (length (expired_prefix 3 l))), d') ∧
          entries (dlset d') = Some (after_expired 3 l) ∧
          l = expired_prefix 3 l ++ after_expired 3 l ∧
          valid (dlset d').
Proof.
  apply cleanup_sessions_valid; [compute_done..|].
  assert (dom (_map (dlset d_BCA)) ⊆ dom (user_sessions d_BCA)) as Hsub
    by compute_done.
  intros k [n Hn]. apply elem_of_dom, Hsub. by apply elem_of_dom_2 in Hn.
Qed.

Example run_head_consistent_ABC :
  ∃ d ns, run [Upsert "A" 1; Upsert "B" 2; RemoveByKey "A"; ExpireUpTo 5]
              Testable_init = (Ok tt, d) ∧
          valid (dlset d) ∧ __iter__ (dlset d) = Some ns ∧
          head (dlset d) = (Ok (list.head ns), dlset d) ∧
          (list.head ns = None ↔ __len__ (dlset d) = 0%nat).
Proof. apply run_head_consistent. repeat constructor. Qed.

(** ** The claims

    In the words of the specification: [add] is upsert, [head] is oldest,
    [unlink] is removeByKey, [cleanup_sessions] is expireUpTo with the
    test [value <= cutoff], [__iter__] is iterate and [__len__] is size. *)

Section claims.
Context {K : Type} `{Countable K} `{Truthy K}.
Implicit Types (s : DoubleLinkedSet K) (k : K) (n : Node K).

(** C2, as the code has it: for every index state and every key,
    removeByKey ([unlink]) gives an empty result whether the key is present
    or absent; the value that was stored is never returned.  For an absent
    key the state is left as it was; whenever the call returns, the key is
    out of the mapping; and in a state that satisfies I3 the call does
    return. *)
Theorem unlink_result_is_empty s k :
  (_map s !! k = None → unlink k s = (Ok None, s)) ∧
  (∀ r s', unlink k s = (Ok r, s') → r = None ∧ _map s' !! k = None) ∧
  (I3 s → ∃ s', unlink k s = (Ok None, s')).
Proof.
  split; [apply unlink_absent|]. split; [apply unlink_Ok|apply unlink_returns].
Qed.

(** C8: removeByKey ([unlink]) of an absent key leaves the state exactly
    as it was and gives an empty result; on the empty index oldest
    ([head]) gives an empty result and leaves the state as it was, and
    iterate ([__iter__]) yields nothing. *)
Theorem absent_key_and_empty_index_are_inert s k :
  _map s !! k = None →
  unlink k s = (Ok None, s) ∧
  head (__init__ (K:=K)) = (Ok None, __init__) ∧
  __iter__ (__init__ (K:=K)) = Some [].
Proof. intros Hk. split; [by apply unlink_absent|]. by split. Qed.

(** C9: upsert ([add]) of [k] keeps, for every other key [k'] of the
    index, the node stored under [k'] with the value (and the id) it had,
    also when the call ends in an exception: only [parent_id] and
    [child_id] of other nodes are written. *)
Theorem add_keeps_other_values s k v k' n :
  k ≠ k' → _map s !! k' = Some n →
  ∃ n', _map (add k v s).2 !! k' = Some n' ∧
        id n' = id n ∧ value n' = value n.
Proof. intros Hne Hn. by apply (frame_add k v s k' n). Qed.

(** Where the size is right: size ([__len__]) is the number of entries
    of the mapping; in every index state, whenever upsert ([add])
    returns, the size is the one before if the key was present and one
    more if it was absent; and in every state that satisfies I1-I3 upsert
    does return.  Keys may be falsy. *)
Theorem add_size s k v :
  __len__ s = size (_map s) ∧
  (∀ s', add k v s = (Ok tt, s') →
         __len__ s' = if bool_decide (is_Some (_map s !! k)) then __len__ s
                      else S (__len__ s)) ∧
  (valid s → ∃ s', add k v s = (Ok tt, s')).
Proof.
  split; [done|]. split; [apply add_len|apply add_returns_valid].
Qed.

(** C5: for every state satisfying I1-I3 that the index can be in, that
    is, that [add] and [unlink] reach from the empty index, and every key
    present in it, removeByKey ([unlink]) returns, iterate then yields
    the entries it yielded before without the one of the key, the others
    in the order they had, and the size is one less.  Keys may be
    falsy. *)
Theorem unlink_on_reachable_state s k :
  reachable s → valid s → is_Some (_map s !! k) →
  ∃ s' l, entries s = Some l ∧ unlink k s = (Ok None, s') ∧
          entries s' = Some (remove_key k l) ∧
          S (__len__ s') = __len__ s.
Proof.
  intros Hreach Hv Hk. destruct (valid_repr s Hv) as [l Hr].
  destruct (unlink_falsy_last s l k Hr (reachable_falsy_last s Hreach))
    as (s' & Hu & He & Hl).
  { by apply (repr_lookup s l k). }
  exists s', l. split; [by apply entries_repr|done].
Qed.

End claims.

Lemma unlink_result_is_empty_witness :
  ∃ s', unlink 5 s_5_0 = (Ok None, s') ∧ _map s' !! 5 = None.
Proof.
  destruct (unlink_result_is_empty s_5_0 5) as (_ & Hr & Ht).
  destruct Ht as [s' Hs']; [apply (bool_decide_unpack _); vm_compute; exact I|].
  exists s'. split; [exact Hs'|]. exact (proj2 (Hr _ _ Hs')).
Defined.

(** C2 as stated fails: the value stored under a present key is not what
    [unlink] returns. *)
Lemma unlink_does_not_return_the_value :
  ¬ (∀ (s : DoubleLinkedSet Z) k n,
       _map s !! k = Some n → (unlink k s).1 = Ok (Some (value n))).
Proof.
  intros Hc. specialize (Hc s_5_0 5 (mkNode 5 1 None (Some 0)) eq_refl).
  vm_compute in Hc. discriminate Hc.
Qed.

Lemma absent_key_and_empty_index_are_inert_witness :
  unlink 3 s_5_0 = (Ok None, s_5_0) ∧
  head (__init__ (K:=Z)) = (Ok None, __init__) ∧
  __iter__ (__init__ (K:=Z)) = Some [].
Proof.
  apply (absent_key_and_empty_index_are_inert s_5_0 3). reflexivity.
Defined.

Lemma add_keeps_other_values_witness :
  ∃ n', _map (add 7 3 s_5_0).2 !! 5 = Some n' ∧
        id n' = 5 ∧ value n' = 1.
Proof.
  apply (add_keeps_other_values s_5_0 7 3 5 (mkNode 5 1 None (Some 0)));
    [lia|reflexivity].
Defined.


(** C1 at a falsy tail: the chain 5, 0 satisfies I1-I3, and after
    upsert 7 iterate still ends at 0; the new key is in the dict but not
    on the chain, and I1 is broken. *)
Lemma add_behind_falsy_tail_is_off_the_chain :
  valid s_5_0 ∧
  entries s_5_0 = Some [(5, 1); (0, 2)] ∧
  (add 7 3 s_5_0).1 = Ok tt ∧
  entries (add 7 3 s_5_0).2 = Some [(5, 1); (0, 2)] ∧
  is_Some (_map (add 7 3 s_5_0).2 !! 7) ∧
  ¬ I1 (add 7 3 s_5_0).2.
Proof. split_and!; compute_done. Qed.

(** C3 at the key 0: after the one operation upsert 0 on the empty index
    the size is 1 and iterate yields the entry, yet oldest gives an empty
    result. *)
Lemma head_of_falsy_key_is_empty :
  (run [Upsert 0 1] (Testable_init (K:=Z))).1 = Ok tt ∧
  dlset (run [Upsert 0 1] (Testable_init (K:=Z))).2 = (add 0 1 __init__).2 ∧
  (head (add 0 1 (__init__ (K:=Z))).2).1 = Ok None ∧
  __len__ (add 0 1 (__init__ (K:=Z))).2 = 1%nat ∧
  entries (add 0 1 (__init__ (K:=Z))).2 = Some [(0, 1)].
Proof. split_and!; vm_compute; reflexivity. Qed.

(** C4 at the keys 0, 1: after upsert 0 and upsert 1 iterate yields the
    second key only. *)
Lemma add_after_falsy_key_drops_it :
  NoDup [(0, 1); (1, 2)].*1 ∧
  (add_all [(0, 1); (1, 2)] (__init__ (K:=Z))).1 = Ok tt ∧
  entries (add_all [(0, 1); (1, 2)] (__init__ (K:=Z))).2 = Some [(1, 2)] ∧
  __len__ (add_all [(0, 1); (1, 2)] (__init__ (K:=Z))).2 = 2%nat.
Proof. split_and!; compute_done. Qed.

(** A state outside the ones the index can be in: the chain 0, 5, 7,
    written out by hand, satisfies I1-I3, and removeByKey 5 leaves a
    chain on which iterate stops after 0, with 7 still in the dict.  No
    sequence of calls builds this state: [add] never links a node behind
    key 0. *)
Lemma unlink_behind_falsy_key :
  valid s_0_5_7 ∧
  entries s_0_5_7 = Some [(0, 1); (5, 2); (7, 3)] ∧
  (unlink 5 s_0_5_7).1 = Ok None ∧
  entries (unlink 5 s_0_5_7).2 = Some [(0, 1)] ∧
  __len__ (unlink 5 s_0_5_7).2 = 2%nat ∧
  ¬ reachable s_0_5_7.
Proof.
  split_and!; try compute_done.
  intros Hr. apply reachable_falsy_last in Hr.
  specialize (Hr 0 (mkNode 0 1 None (Some 5)) eq_refl eq_refl).
  discriminate Hr.
Qed.

Lemma add_size_witness :
  ∃ s', add 0 3 s_5_0 = (Ok tt, s') ∧ __len__ s' = __len__ s_5_0.
Proof.
  destruct (add_size s_5_0 0 3) as (_ & Hl & Hr).
  destruct Hr as [s' Hs']; [apply (bool_decide_unpack _); vm_compute; exact I|].
  exists s'. split; [exact Hs'|]. exact (Hl s' Hs').
Defined.

Lemma reachable_s_5_0 : reachable s_5_0.
Proof.
  change s_5_0 with (add 0 2 (add 5 1 (__init__ (K:=Z))).2).2.
  apply reachable_add, reachable_add, reachable_init.
Qed.

Lemma unlink_on_reachable_state_witness :
  ∃ s' l, entries s_5_0 = Some l ∧ unlink 5 s_5_0 = (Ok None, s') ∧
          entries s' = Some (remove_key 5 l) ∧
          S (__len__ s') = __len__ s_5_0.
Proof.
  apply (unlink_on_reachable_state s_5_0 5).
  - exact reachable_s_5_0.
  - apply (bool_decide_unpack _). vm_compute. exact I.
  - vm_compute. eexists. reflexivity.
Defined.

(** C6 at the key 0: the index holds the one entry 0:1, which the cutoff
    1 expires, and the sweep removes nothing and returns 0. *)
Lemma cleanup_sessions_stops_at_falsy_head :
  (activity 0 Testable_init).1 = Ok tt ∧
  valid (dlset d_0) ∧
  entries (dlset d_0) = Some [(0, 1)] ∧
  cleanup_sessions 1 d_0 = (Ok 0, d_0).
Proof. split_and!; compute_done. Qed.

(** C10 at the key 0: the calls [add 5 1; add 0 2; unlink 5] return and
    leave a state in which the key 0 is present and the size is 1:
    [unlink] skipped the falsy child 0 (line 176), so node 0 still has
    [parent_id] 5.  Upsert 0 then pops node 0, raises [KeyError] at line
    152 and leaves the size at 0, where the claim says it stays 1.  The
    benchmark subject reaches the same state with the activities of the
    users 5 and 0 and a cleanup at cutoff 1. *)
Lemma add_present_key_raises_and_shrinks :
  ((add 5 1;; add 0 2;; unlink 5) (__init__ (K:=Z))).1 = Ok None ∧
  reachable s_0_after_unlink ∧
  is_Some (_map s_0_after_unlink !! 0) ∧
  _map s_0_after_unlink !! 0 = Some (mkNode 0 2 (Some 5) None) ∧
  __len__ s_0_after_unlink = 1%nat ∧
  (add 0 3 s_0_after_unlink).1 = KeyError ∧
  __len__ (add 0 3 s_0_after_unlink).2 = 0%nat ∧
  ((activity 5;; activity 0;; cleanup_sessions 1) Testable_init).1 = Ok 1 ∧
  dlset ((activity 5;; activity 0;; cleanup_sessions 1) Testable_init).2
  = s_0_after_unlink.
Proof.
  split_and!; try compute_done.
  change s_0_after_unlink
    with (unlink 5 (add 0 2 (add 5 1 (__init__ (K:=Z))).2).2).2.
  apply reachable_unlink, reachable_add, reachable_add, reachable_init.
Qed.

(** ** The log of activities *)

Section deque_log.
Context {K : Type} `{Countable K}.
Implicit Types (log l : list (K * Z)) (us : gmap K Z) (q : DequeLog.t K).
Implicit Types (u : K) (e ts : Z).

Lemma elem_of_expired_prefix e l u ts :
  increasing l → (u, ts) ∈ l → ts ≤ e → (u, ts) ∈ expired_prefix e l.
Proof.
  induction l as [|[k v] l IH]; intros Hs Hin Hts; [done|].
  apply StronglySorted_cons in Hs as [Hlt Hs]. cbn [expired_prefix].
  apply elem_of_cons in Hin as [Heq|Hin].
  - injection Heq as -> ->. rewrite bool_decide_eq_true_2 by done.
    apply elem_of_cons. by left.
  - pose proof (proj1 (Forall_forall _ _) Hlt _ Hin) as Hv. simpl in Hv.
    rewrite bool_decide_eq_true_2 by lia.
    apply elem_of_cons. right. by apply IH.
Qed.

Lemma popped_cons_expired e u t log :
  t ≤ e → popped e ((u, t) :: log) = (u, t) :: popped e log.
Proof.
  intros Ht. unfold popped. cbn [expired_prefix after_expired].
  by rewrite bool_decide_eq_true_2 by done.
Qed.

Lemma popped_cons_live e u t log :
  e < t → popped e ((u, t) :: log) = [(u, t)].
Proof.
  intros Ht. unfold popped. cbn [expired_prefix after_expired].
  by rewrite bool_decide_eq_false_2 by lia.
Qed.

Lemma popped_rest e log :
  log = popped e log ++ tail (after_expired e log).
Proof.
  unfold popped. rewrite <- (assoc_L (++)).
  rewrite (expired_split e log) at 1. f_equal.
  by destruct (after_expired e log).
Qed.

(** The loop of [DequeLog.cleanup_sessions]: what it leaves of the
    sessions and of the log, and what it counts. *)
Lemma cleanup_loop_spec e log : ∀ us n,
  ∃ us', DequeLog.cleanup_loop e log us n
         = (n + Z.of_nat (size us) - Z.of_nat (size us'), us',
            tail (after_expired e log)) ∧
         us' ⊆ us ∧
         (∀ u ts, us !! u = Some ts → e < ts → us' !! u = Some ts) ∧
         (∀ u ts, u ∈ (popped e log).*1 → us !! u = Some ts → ts ≤ e →
                  us' !! u = None).
Proof.
  induction log as [|[u0 t0] log IH]; intros us n.
  { exists us. split_and!; [cbn; f_equal; f_equal; lia|done|done|].
    intros u ts Hu. by apply elem_of_nil in Hu. }
  cbn [DequeLog.cleanup_loop].
  set (step := match us !! u0 with
               | Some ts => if ts <=? e then (delete u0 us, n + 1) else (us, n)
               | None => (us, n)
               end).
  assert (∃ us1 n1, step = (us1, n1) ∧ us1 ⊆ us ∧
            n1 = n + Z.of_nat (size us) - Z.of_nat (size us1) ∧
            (∀ u ts, us !! u = Some ts → e < ts → us1 !! u = Some ts) ∧
            (∀ ts, us !! u0 = Some ts → ts ≤ e → us1 !! u0 = None) ∧
            (∀ u, u ≠ u0 → us1 !! u = us !! u)) as
    (us1 & n1 & -> & Hsub1 & Hn1 & Hlive1 & Hdel1 & Hother1).
  { subst step. destruct (us !! u0) as [ts0|] eqn:Hu0.
    - destruct (Z.leb_spec ts0 e) as [Hle|Hgt].
      + exists (delete u0 us), (n + 1). split_and!; [done| | | | |].
        * apply delete_subseteq.
        * rewrite map_size_delete_Some by eauto.
          assert (size us ≠ 0%nat); [|lia].
          intros Hz%map_size_empty_iff. by rewrite Hz in Hu0.
        * intros u ts Hu Hts. rewrite lookup_delete_ne; [done|].
          intros ->. rewrite Hu0 in Hu. injection Hu as ->. lia.
        * intros ts _ _. apply lookup_delete_eq.
        * intros u Hu. by apply lookup_delete_ne.
      + exists us, n. split_and!; [done|done|lia|done| |done].
        intros ts Hts Hle. injection Hts as ->. lia.
    - exists us, n. split_and!; [done|done|lia|done|done|done]. }
  destruct (Z.gtb_spec t0 e) as [Hgt|Hle].
  - exists us1. split_and!; [|done|done|].
    + cbn [after_expired]. rewrite bool_decide_eq_false_2 by lia.
      by rewrite Hn1.
    + intros u ts Hu Hus Hts. rewrite popped_cons_live in Hu by lia.
      apply list_elem_of_singleton in Hu. simpl in Hu. subst u. eauto.
  - destruct (IH us1 n1) as (us' & -> & Hsub & Hlive & Hdel).
    exists us'. pose proof (map_subseteq_size _ _ Hsub) as Hsz.
    pose proof (map_subseteq_size _ _ Hsub1) as Hsz1.
    split_and!.
    + cbn [after_expired]. rewrite bool_decide_eq_true_2 by lia.
      f_equal. f_equal. lia.
    + by transitivity us1.
    + eauto.
    + intros u ts Hu Hus Hts. rewrite popped_cons_expired in Hu by lia.
      destruct (decide (u = u0)) as [->|Hne].
      * eapply lookup_weaken_None; [|exact Hsub]. eauto.
      * apply elem_of_cons in Hu as [?|Hu]; [done|].
        apply (Hdel u ts); [done| |done]. by rewrite Hother1.
Qed.

(** The loop leaves the session of a user alone unless it pops a log
    entry of that user. *)
Lemma cleanup_loop_others e log : ∀ us n u,
  u ∉ (popped e log).*1 →
  (DequeLog.cleanup_loop e log us n).1.2 !! u = us !! u.
Proof.
  induction log as [|[u0 t0] log IH]; intros us n u Hu; [done|].
  cbn [DequeLog.cleanup_loop].
  set (step := match us !! u0 with
               | Some ts => if ts <=? e then (delete u0 us, n + 1) else (us, n)
               | None => (us, n)
               end).
  assert (u ≠ u0) as Hne.
  { intros ->. apply Hu. destruct (decide (t0 ≤ e)).
    - rewrite popped_cons_expired by done. apply elem_of_cons. by left.
    - rewrite popped_cons_live by lia. apply elem_of_cons. by left. }
  assert (∃ us1 n1, step = (us1, n1) ∧ us1 !! u = us !! u)
    as (us1 & n1 & -> & Hus1).
  { subst step. destruct (us !! u0) as [ts0|]; [destruct (ts0 <=? e)|];
      eexists _, _; (split; [reflexivity|]); [|done|done].
    by apply lookup_delete_ne. }
  destruct (Z.gtb_spec t0 e) as [Hgt|Hle]; [done|].
  rewrite IH; [done|]. rewrite popped_cons_expired in Hu by lia.
  intros Hin. apply Hu. apply elem_of_cons. by right.
Qed.

(** The sessions of a subject that has only logged activities, after a
    cleanup: the ones that are not expired. *)
Lemma logged_cleanup_loop e q :
  logged q →
  ∃ us', DequeLog.cleanup_loop e (DequeLog.activity_log q)
           (DequeLog.user_sessions q) 0
         = (Z.of_nat (size (DequeLog.user_sessions q)) - Z.of_nat (size us'),
            us', tail (after_expired e (DequeLog.activity_log q))) ∧
         us' = live e (DequeLog.user_sessions q).
Proof.
  intros (Hinc & _ & Hlog).
  destruct (cleanup_loop_spec e (DequeLog.activity_log q)
              (DequeLog.user_sessions q) 0) as (us' & Heq & Hsub & Hlive & Hdel).
  exists us'. split; [by rewrite Heq, Z.add_0_l|].
  apply map_eq. intros u. unfold live.
  destruct (DequeLog.user_sessions q !! u) as [ts|] eqn:Hu.
  - destruct (decide (e < ts)) as [Hts|Hts].
    + rewrite (Hlive u ts Hu Hts). symmetry.
      by apply map_lookup_filter_Some.
    + rewrite (Hdel u ts); [| |done|lia].
      * symmetry. apply map_lookup_filter_None. right.
        intros ts' Hu'. simpl. rewrite Hu in Hu'. injection Hu' as <-. done.
      * apply list_elem_of_fmap. exists (u, ts). split; [done|].
        unfold popped. apply elem_of_app. left.
        apply elem_of_expired_prefix; [done|by apply Hlog|lia].
  - rewrite (lookup_weaken_None _ _ _ Hu Hsub). symmetry.
    apply map_lookup_filter_None. left. done.
Qed.

Lemma DequeLog_activities_eq ids : ∀ q,
  DequeLog.activities ids q
  = (Ok tt,
     DequeLog.mk (DequeLog._ts q + Z.of_nat (length ids))
       (list_to_map (reverse (stamped (DequeLog._ts q) ids))
        ∪ DequeLog.user_sessions q)
       (DequeLog.activity_log q ++ stamped (DequeLog._ts q) ids)).
Proof.
  induction ids as [|u ids IH]; intros q.
  - destruct q as [t us log]. cbn. rewrite Z.add_0_r, app_nil_r.
    by rewrite (left_id_L ∅ (∪)).
  - cbn [DequeLog.activities].
    rewrite (bind_Ok (DequeLog.activity u) _ q tt
               (DequeLog.mk (DequeLog._ts q + 1)
                  (<[u := DequeLog._ts q + 1]> (DequeLog.user_sessions q))
                  (DequeLog.activity_log q ++ [(u, DequeLog._ts q + 1)]))
               eq_refl).
    rewrite IH. cbn [DequeLog._ts DequeLog.user_sessions DequeLog.activity_log
                     stamped length].
    f_equal. f_equal.
    + lia.
    + rewrite reverse_cons, list_to_map_app. cbn [list_to_map foldr].
      rewrite <- (assoc_L (∪)). f_equal.
      by rewrite insert_empty, <- insert_union_singleton_l.
    + by rewrite <- (assoc_L (++)).
Qed.

Lemma stamped_bounds t ids :
  Forall (λ kv : K * Z, t < kv.2 ≤ t + Z.of_nat (length ids)) (stamped t ids).
Proof.
  revert t. induction ids as [|u ids IH]; intros t; [done|].
  cbn [stamped length]. constructor; [simpl; lia|].
  eapply Forall_impl; [apply IH|]. intros [k v]. simpl. lia.
Qed.

Lemma stamped_increasing t ids : increasing (stamped (K:=K) t ids).
Proof.
  revert t. induction ids as [|u ids IH]; intros t; [constructor|].
  cbn [stamped]. apply StronglySorted_cons. split; [|apply IH].
  eapply Forall_impl; [apply stamped_bounds|]. intros [k v]. simpl. lia.
Qed.

Lemma logged_init : logged (DequeLog.__init__ (K:=K)).
Proof. split_and!; [constructor|constructor|]. intros u ts Hu. done. Qed.

Lemma logged_activities ids q :
  logged q → logged (DequeLog.activities ids q).2.
Proof.
  intros (Hinc & Hle & Hlog). rewrite DequeLog_activities_eq.
  cbn [snd]. unfold logged.
  cbn [DequeLog._ts DequeLog.user_sessions DequeLog.activity_log].
  pose proof (stamped_bounds (DequeLog._ts q) ids) as Hb.
  split_and!.
  - apply StronglySorted_app. split_and!; [|done|apply stamped_increasing].
    intros x1 x2 Hx1 Hx2.
    pose proof (proj1 (Forall_forall _ _) Hle _ Hx1) as H1.
    pose proof (proj1 (Forall_forall _ _) Hb _ Hx2) as H2.
    simpl in *. lia.
  - apply Forall_app. split.
    + eapply Forall_impl; [exact Hle|]. intros [k v]. simpl. lia.
    + eapply Forall_impl; [exact Hb|]. intros [k v]. simpl. lia.
  - intros u ts Hu. apply elem_of_app.
    apply lookup_union_Some_raw in Hu as [Hu|[_ Hu]];
      [right|left; by apply Hlog].
    apply elem_of_list_to_map_2 in Hu. by rewrite elem_of_reverse in Hu.
Qed.

End deque_log.

(** ** The index of the benchmark subject *)

Section benchmark_index.
Context {K : Type} `{Countable K} `{Truthy K}.
Implicit Types (l : list (K * Z)) (us : gmap K Z) (d : DoubleLinked K).
Implicit Types (u k : K) (e ts : Z).

Lemma list_to_map_remove_key u l :
  list_to_map (remove_key u l) =@{gmap K Z} delete u (list_to_map l).
Proof.
  induction l as [|[k v] l IH]; [symmetry; apply delete_empty|].
  unfold remove_key in *. cbn [list_to_map foldr]. rewrite filter_cons.
  destruct (decide ((k, v).1 ≠ u)) as [Hne|Heq]; simpl in *.
  - cbn [list_to_map foldr]. rewrite delete_insert_ne by done.
    f_equal. apply IH.
  - apply dec_stable in Heq. subst k. rewrite delete_insert_eq. apply IH.
Qed.

Lemma not_elem_of_remove_key u l : u ∉ (remove_key u l).*1.
Proof.
  intros Hin. apply list_elem_of_fmap in Hin as ([k v] & -> & Hin).
  apply list_elem_of_filter in Hin as [Hne _]. by apply Hne.
Qed.

Lemma StronglySorted_filter {A} (R : relation A) (P : A → Prop)
    `{!∀ x, Decision (P x)} (l : list A) :
  StronglySorted R l → StronglySorted R (filter P l).
Proof.
  induction 1 as [|x l Hs IH Hx]; [constructor|].
  rewrite filter_cons. destruct (decide (P x)); [|done].
  constructor; [done|]. apply Forall_forall. intros y Hy.
  apply list_elem_of_filter in Hy as [_ Hy].
  by apply (proj1 (Forall_forall _ _) Hx).
Qed.

Lemma filter_Forall_id {A} (P : A → Prop) `{!∀ x, Decision (P x)}
    (l : list A) :
  Forall P l → filter P l = l.
Proof.
  induction 1 as [|x l Hx _ IH]; [done|].
  by rewrite filter_cons_True, IH.
Qed.

Lemma after_expired_filter e l :
  increasing l → after_expired e l = filter (λ kv, e < kv.2) l.
Proof.
  induction l as [|[k v] l IH]; intros Hs; [done|].
  apply StronglySorted_cons in Hs as [Hlt Hs]. cbn [after_expired].
  case_bool_decide as Hv.
  - rewrite filter_cons_False by (simpl; lia). by apply IH.
  - rewrite filter_cons_True by (simpl; lia). f_equal.
    symmetry. apply filter_Forall_id. eapply Forall_impl; [exact Hlt|].
    intros [k' v']. simpl. lia.
Qed.

Lemma list_to_map_filter (P : K * Z → Prop) `{!∀ x, Decision (P x)} l :
  NoDup l.*1 → list_to_map (filter P l) =@{gmap K Z} filter P (list_to_map l).
Proof.
  induction l as [|[k v] l IH]; intros Hnd.
  { symmetry. apply map_filter_empty. }
  apply NoDup_cons in Hnd as [Hk Hnd]. cbn [list_to_map foldr].
  rewrite filter_cons. destruct (decide (P (k, v))) as [HP|HP].
  - cbn [list_to_map foldr]. rewrite map_filter_insert_True by done.
    f_equal. by apply IH.
  - rewrite map_filter_insert_not' by
      (done || intros y Hy%elem_of_list_to_map_2;
       exfalso; apply Hk; apply list_elem_of_fmap; by exists (k, y)).
    by apply IH.
Qed.

Lemma foldr_delete_prefix l1 l2 :
  NoDup (l1 ++ l2).*1 →
  foldr delete (list_to_map (l1 ++ l2)) l1.*1 =@{gmap K Z} list_to_map l2.
Proof.
  rewrite fmap_app. intros (Hnd1 & Hd & Hnd2)%NoDup_app.
  apply map_eq. intros i. destruct (decide (i ∈ l1.*1)) as [Hi|Hi].
  - rewrite lookup_foldr_delete by done. symmetry.
    apply not_elem_of_list_to_map_1. by apply Hd.
  - rewrite lookup_foldr_delete_not_elem_of by done.
    rewrite list_to_map_app, lookup_union_r; [done|].
    by apply not_elem_of_list_to_map_1.
Qed.

Lemma cleanup_loop_ts e fuel : ∀ (cnt : Z) sess d,
  _ts (cleanup_loop fuel e cnt sess d).2 = _ts d.
Proof.
  induction fuel as [|fuel IH]; intros cnt [node|] d; cbn [cleanup_loop];
    try done; destruct (value node >? e); try done.
  unfold mbind, M_bind, on_dlset.
  destruct (unlink (id node) (dlset d)) as [[r| |] s1]; try done.
  unfold user_sessions_delitem. cbn [user_sessions _ts dlset].
  destruct (user_sessions d !! id node); try done.
  cbn [user_sessions _ts dlset].
  destruct (head s1) as [[sess'| |] s2]; try done.
  by rewrite IH.
Qed.

Lemma cleanup_sessions_ts e d : _ts (cleanup_sessions e d).2 = _ts d.
Proof.
  unfold cleanup_sessions, mbind, M_bind, gets, on_dlset.
  destruct (head (dlset d)) as [[sess| |] s1]; try done.
  by rewrite cleanup_loop_ts.
Qed.

Lemma mirrors_init : mirrors Testable_init [].
Proof.
  split_and!; [apply init_repr|constructor|done|constructor|constructor].
Qed.

Lemma mirrors_keys d l k :
  mirrors d l → k ∈ l.*1 → is_Some (user_sessions d !! k).
Proof.
  intros (_ & _ & -> & _) Hk. apply not_eq_None_Some. intros Hn.
  by apply not_elem_of_list_to_map_2 in Hn.
Qed.

(** One activity of a user with a truthy id. *)
Lemma mirrors_activity d l u :
  mirrors d l → truthy u = true →
  ∃ d', activity u d = (Ok tt, d') ∧
        mirrors d' (remove_key u l ++ [(u, _ts d + 1)]) ∧
        _ts d' = _ts d + 1 ∧
        user_sessions d' = <[u := _ts d + 1]> (user_sessions d).
Proof.
  intros (Hr & Ht & Hus & Hinc & Hle) Hu.
  destruct (add_repr _ l u (_ts d + 1) Hr Ht) as (s' & Ha & Hr').
  unfold activity.
  rewrite (bind_Ok timestamp _ d (_ts d + 1)
             (mkDoubleLinked (_ts d + 1) (user_sessions d) (dlset d)) eq_refl).
  rewrite (bind_Ok (user_sessions_setitem _ _) _ _ tt _ eq_refl).
  unfold optimize_session_search.
  erewrite on_dlset_eq by (cbn [dlset]; exact Ha).
  eexists. split; [reflexivity|].
  cbn [dlset user_sessions _ts]. split_and!; [|done|done].
  unfold mirrors. cbn [dlset user_sessions _ts]. split_and!.
  - exact Hr'.
  - apply Forall_app. split; [by apply remove_key_truthy|].
    by apply Forall_singleton.
  - cbn [user_sessions].
    rewrite list_to_map_snoc by apply not_elem_of_remove_key.
    by rewrite list_to_map_remove_key, insert_delete_eq, Hus.
  - apply StronglySorted_app. split_and!.
    + intros x1 x2 Hx1 Hx2. apply list_elem_of_filter in Hx1 as [_ Hx1].
      apply list_elem_of_singleton in Hx2 as ->. simpl.
      pose proof (proj1 (Forall_forall _ _) Hle _ Hx1). simpl in *. lia.
    + by apply StronglySorted_filter.
    + repeat constructor.
  - cbn [_ts]. apply Forall_app. split.
    + apply Forall_forall. intros x Hx.
      apply list_elem_of_filter in Hx as [_ Hx].
      pose proof (proj1 (Forall_forall _ _) Hle _ Hx). simpl in *. lia.
    + apply Forall_singleton. simpl. lia.
Qed.

Lemma mirrors_activities ids : ∀ d l,
  mirrors d l → Forall (λ u, truthy u = true) ids →
  ∃ d' l', activities ids d = (Ok tt, d') ∧ mirrors d' l' ∧
           _ts d' = _ts d + Z.of_nat (length ids) ∧
           user_sessions d'
           = list_to_map (reverse (stamped (_ts d) ids)) ∪ user_sessions d.
Proof.
  induction ids as [|u ids IH]; intros d l Hm Hids.
  - exists d, l. split_and!; [done|done|cbn; lia|].
    cbn. by rewrite (left_id_L ∅ (∪)).
  - apply Forall_cons in Hids as [Hu Hids].
    destruct (mirrors_activity d l u Hm Hu) as (d1 & Ha & Hm1 & Hts1 & Hus1).
    destruct (IH d1 _ Hm1 Hids) as (d' & l' & Has & Hm' & Hts' & Hus').
    exists d', l'. cbn [activities]. rewrite (bind_Ok _ _ _ _ _ Ha).
    split_and!; [done|done|cbn [length]; lia|].
    rewrite Hus', Hts1, Hus1. cbn [stamped].
    rewrite reverse_cons, list_to_map_app. cbn [list_to_map foldr].
    rewrite <- (assoc_L (∪)). f_equal.
    by rewrite insert_empty, <- insert_union_singleton_l.
Qed.

(** The sweep of an index that mirrors the sessions leaves the sessions
    that are not expired, in both. *)
Lemma mirrors_cleanup e d l :
  mirrors d l →
  ∃ d', cleanup_sessions e d
        = (Ok (Z.of_nat (size (user_sessions d))
               - Z.of_nat (size (live e (user_sessions d)))), d') ∧
        mirrors d' (filter (λ kv, e < kv.2) l) ∧
        user_sessions d' = live e (user_sessions d).
Proof.
  intros Hm. pose proof Hm as (Hr & Ht & Hus & Hinc & Hle).
  pose proof Hr as (Hnd & _).
  destruct (cleanup_sessions_chain e l d Hr Ht) as (d' & Hc & Hr' & Hus');
    [intros k; by apply mirrors_keys|].
  pose proof (cleanup_sessions_ts e d) as Hts. rewrite Hc in Hts.
  cbn [snd] in Hts.
  assert (user_sessions d' = list_to_map (after_expired e l)) as Hus2.
  { rewrite Hus', Hus. rewrite (expired_split e l) at 1.
    apply foldr_delete_prefix. by rewrite <- expired_split. }
  assert (user_sessions d' = live e (user_sessions d)) as Hlive.
  { rewrite Hus2, Hus, after_expired_filter by done.
    by apply list_to_map_filter. }
  exists d'. split_and!; [|split_and!|done].
  - rewrite Hc. do 2 f_equal. rewrite <- Hlive, Hus2, Hus.
    rewrite !map_size_list_to_map.
    + rewrite (expired_split e l) at 2. rewrite length_app. lia.
    + rewrite (expired_split e l), fmap_app in Hnd.
      by apply NoDup_app in Hnd as (_ & _ & Hnd).
    + done.
  - by rewrite <- after_expired_filter.
  - rewrite <- after_expired_filter by done. by apply after_expired_truthy.
  - by rewrite <- after_expired_filter.
  - by apply StronglySorted_filter.
  - rewrite Hts. apply Forall_forall. intros x Hx.
    apply list_elem_of_filter in Hx as [_ Hx].
    by apply (proj1 (Forall_forall _ _) Hle).
Qed.

End benchmark_index.

(** ** More on the methods of the index *)

Section index_more.
Context {K : Type} `{Countable K} `{Truthy K}.
Implicit Types (l : list (K * Z)) (k : K) (v : Z) (s : DoubleLinkedSet K).
Implicit Types (n : Node K) (d : DoubleLinked K).

Lemma unlink_dom s k r s' :
  unlink k s = (Ok r, s') → dom (_map s') = dom (_map s) ∖ {[k]}.
Proof.
  destruct (_map s !! k) as [n|] eqn:Hk.
  - rewrite (unlink_present _ _ _ Hk). intros Hu.
    apply bind_inv_Ok in Hu as ([] & s1 & Hs & Hr). injection Hr as _ <-.
    pose proof (same_keys_splice k n
                  (mkSet (delete k (_map s)) (_head_id s) (_tail_id s))) as Hd.
    rewrite Hs in Hd. unfold same_keys in Hd. cbn [snd _map] in Hd.
    by rewrite Hd, dom_delete_L.
  - rewrite (unlink_absent _ _ Hk). intros [= _ <-].
    apply not_elem_of_dom in Hk. apply set_eq. intros x.
    rewrite elem_of_difference, elem_of_singleton. split; [|tauto].
    intros Hx. split; [done|]. by intros ->.
Qed.

(** What [add] has written when it returns. *)
Lemma link_newest_stores s k node s' :
  link_newest k node s = (Ok tt, s') →
  _tail_id s' = Some k ∧
  value <$> _map s' !! k = Some (value node) ∧
  (is_true (_head_id s') = true ∨ _head_id s' = Some k).
Proof.
  unfold link_newest.
  rewrite (bind_Ok (map_setitem _ _) _ _ tt _ eq_refl).
  rewrite (bind_Ok (gets _) _ _ _ _ eq_refl). cbn [_tail_id].
  intros Hl. apply bind_inv_Ok in Hl as ([] & s1 & Hc & Hl).
  rewrite (bind_Ok (set_tail_id _) _ _ tt _ eq_refl) in Hl.
  rewrite (bind_Ok (gets _) _ _ _ _ eq_refl) in Hl. cbn [_head_id] in Hl.
  assert (value <$> _map s1 !! k = Some (value node)) as Hv.
  { destruct (_tail_id s) as [t|]; [destruct (truthy t); cbn [when] in Hc|].
    - unfold set_child_id, mbind, M_bind, map_getitem in Hc.
      cbn [_map] in Hc.
      destruct (<[k:=node]> (_map s) !! t) as [nt|] eqn:Ht; [|done].
      injection Hc as <-. cbn [_map].
      destruct (decide (t = k)) as [->|Hne].
      + rewrite lookup_insert_eq in Ht. injection Ht as <-.
        by rewrite lookup_insert_eq.
      + by rewrite lookup_insert_ne, lookup_insert_eq.
    - injection Hc as <-. cbn [_map]. by rewrite lookup_insert_eq.
    - injection Hc as <-. cbn [_map]. by rewrite lookup_insert_eq. }
  destruct (is_true (_head_id s1)) eqn:Hh; cbn [negb when] in Hl;
    injection Hl as <-; cbn [_map _head_id _tail_id]; auto.
Qed.

Lemma repr_inj s s' l : repr s l → repr s' l → s = s'.
Proof.
  intros (_ & Hm & Hh & Ht) (_ & Hm' & Hh' & Ht').
  destruct s, s'. simpl in *. congruence.
Qed.

Lemma remove_key_snoc k v l :
  remove_key k (l ++ [(k, v)]) = remove_key k l.
Proof.
  unfold remove_key. rewrite filter_app, filter_cons_False by (simpl; auto).
  by rewrite filter_nil, app_nil_r.
Qed.

Lemma remove_key_twice k l : remove_key k (remove_key k l) = remove_key k l.
Proof.
  apply remove_key_absent. apply not_elem_of_remove_key.
Qed.

(** [unlink] and [add] on a chain in which every other key is truthy. *)
Lemma unlink_repr_others s l k :
  repr s l → all_truthy (remove_key k l) →
  ∃ s', unlink k s = (Ok None, s') ∧ repr s' (remove_key k l).
Proof.
  intros (Hnd & Hm & Hh & Htl) Ht.
  destruct (decide (k ∈ l.*1)) as [Hk|Hk].
  - destruct (split_at_key l k Hk) as (l1 & v & l2 & ->).
    destruct (chain_around l1 k v l2 Hnd) as [Hlk Hdel].
    rewrite (remove_key_present _ _ _ _ Hnd) in *.
    rewrite <- Hm in Hlk. rewrite (unlink_present _ _ _ Hlk).
    rewrite Hm, Hdel, Hh, Htl.
    erewrite bind_Ok by (by apply splice_chain).
    eexists. split; [reflexivity|].
    split_and!; try done. by apply (NoDup_without l1 k v l2).
  - rewrite (remove_key_absent _ _ Hk). exists s. split; [|done].
    apply unlink_absent. rewrite Hm. by apply chain_lookup_None.
Qed.

Lemma add_repr_others s l k v :
  repr s l → all_truthy (remove_key k l) →
  ∃ s', add k v s = (Ok tt, s') ∧ repr s' (remove_key k l ++ [(k, v)]).
Proof.
  intros (Hnd & Hm & Hh & Htl) Ht. rewrite add_unfold.
  rewrite (bind_Ok (gets _) _ _ _ _ eq_refl).
  destruct (decide (k ∈ l.*1)) as [Hk|Hk].
  - destruct (split_at_key l k Hk) as (l1 & v0 & l2 & ->).
    destruct (chain_around l1 k v0 l2 Hnd) as [Hlk Hdel].
    destruct (NoDup_without _ _ _ _ Hnd) as [Hnd' Hk'].
    rewrite (remove_key_present _ _ _ _ Hnd) in *.
    rewrite <- Hm in Hlk. rewrite bool_decide_eq_true_2 by eauto.
    erewrite bind_Ok.
    2:{ rewrite (bind_Ok _ _ _ _ _ (map_pop_Some _ _ _ Hlk)).
        rewrite Hm, Hdel, Hh, Htl.
        erewrite bind_Ok by (by apply splice_chain). reflexivity. }
    cbn [id _tail_id]. eexists. split; [by apply link_newest_chain|].
    split_and!; try done. by apply NoDup_snoc_keys.
  - rewrite bool_decide_eq_false_2.
    2:{ rewrite Hm, chain_lookup_None by done. by intros [? ?]. }
    rewrite (remove_key_absent _ _ Hk) in *.
    erewrite bind_Ok.
    2:{ reflexivity. }
    destruct s as [m h t]. cbn [_map _head_id _tail_id] in *. subst m h t.
    eexists. split; [by apply link_newest_chain|].
    split_and!; try done. by apply NoDup_snoc_keys.
Qed.

End index_more.

(** ** More on the states the methods reach *)

Section reach_more.
Context {K : Type} `{Countable K} `{Truthy K}.
Implicit Types (l : list (K * Z)) (k : K) (v : Z) (s : DoubleLinkedSet K).
Implicit Types (n : Node K) (d : DoubleLinked K).

Lemma ids_ok_map_pop k : hoare ids_ok (map_pop k) (λ n, id n = k).
Proof.
  intros s Hs. unfold map_pop. destruct (_map s !! k) as [n|] eqn:Hk; [|done].
  split; [by apply map_Forall_delete|]. exact (Hs k n Hk).
Qed.

Lemma ids_ok_map_setitem k n :
  id n = k → hoare ids_ok (map_setitem k n) (λ _, True).
Proof. intros Hn s Hs. split; [|done]. by apply map_Forall_insert_2. Qed.

Lemma ids_ok_set_parent_id k p : hoare ids_ok (set_parent_id k p) (λ _, True).
Proof.
  intros s Hs. unfold set_parent_id, mbind, M_bind, map_getitem.
  destruct (_map s !! k) as [n|] eqn:Hn; [|done].
  split; [|done]. apply map_Forall_insert_2; [|done]. exact (Hs k n Hn).
Qed.

Lemma ids_ok_set_child_id k c : hoare ids_ok (set_child_id k c) (λ _, True).
Proof.
  intros s Hs. unfold set_child_id, mbind, M_bind, map_getitem.
  destruct (_map s !! k) as [n|] eqn:Hn; [|done].
  split; [|done]. apply map_Forall_insert_2; [|done]. exact (Hs k n Hn).
Qed.

Lemma ids_ok_set_head_id (h : option K) :
  hoare ids_ok (set_head_id h) (λ _, True).
Proof. by intros s Hs. Qed.

Lemma ids_ok_set_tail_id (t : option K) :
  hoare ids_ok (set_tail_id t) (λ _, True).
Proof. by intros s Hs. Qed.

Ltac ids_step :=
  first
    [ apply ids_ok_set_parent_id | apply ids_ok_set_child_id
    | apply ids_ok_set_head_id | apply ids_ok_set_tail_id
    | apply ids_ok_map_setitem; assumption
    | apply hoare_gets
    | apply hoare_ret; done
    | apply hoare_when; intros ?
    | eapply hoare_bind; [| intros ? ?]
    | match goal with
      | |- hoare _ (match ?x with _ => _ end) _ => destruct x
      end ].

Lemma ids_ok_splice k n : hoare ids_ok (splice k n) (λ _, True).
Proof. unfold splice. repeat ids_step. Qed.

Lemma ids_ok_add k v : hoare ids_ok (add k v) (λ _, True).
Proof.
  unfold add. eapply hoare_bind; [apply hoare_gets|]. intros m _.
  eapply (hoare_bind _ _ _ (λ n, id n = k)).
  - case_bool_decide.
    + eapply hoare_bind; [apply ids_ok_map_pop|]. intros n Hn.
      eapply hoare_bind; [apply ids_ok_splice|]. intros _ _.
      eapply hoare_bind; [apply hoare_gets|]. intros tl _.
      by apply hoare_ret.
    + eapply hoare_bind; [apply hoare_gets|]. intros tl _.
      by apply hoare_ret.
  - intros n Hn. repeat ids_step.
Qed.

Lemma ids_ok_unlink k : hoare ids_ok (unlink k) (λ _, True).
Proof.
  unfold unlink. eapply hoare_bind; [apply hoare_gets|]. intros m _.
  eapply (hoare_bind _ _ _ (λ _, True)); [|intros; by apply hoare_ret].
  apply hoare_when. intros _.
  eapply hoare_bind; [apply ids_ok_map_pop|]. intros n _.
  apply ids_ok_splice.
Qed.

(** In every state the methods reach, a node is stored under its own
    [id]. *)
Lemma reachable_ids_ok s : reachable s → ids_ok s.
Proof.
  induction 1 as [|s k v _ IH|s k _ IH].
  - apply map_Forall_empty.
  - by apply ids_ok_add.
  - by apply ids_ok_unlink.
Qed.

Lemma iter_from_cons (m : gmap K (Node K)) fuel cur n ns :
  iter_from fuel m cur = Some (n :: ns) →
  ∃ k fuel', cur = Some k ∧ m !! k = Some n ∧
             iter_from fuel' m (child_id n) = Some ns.
Proof.
  destruct fuel as [|fuel]; cbn [iter_from];
    destruct cur as [k|]; cbn [mbind option_bind]; try done;
    destruct (m !! k) as [n'|] eqn:Hk; try done.
  destruct (iter_from fuel m (child_id n')) as [ns'|] eqn:Hns; [|done].
  intros [= -> ->]. eauto.
Qed.

Lemma iter_from_split (m : gmap K (Node K)) ns1 : ∀ fuel cur n ns2,
  iter_from fuel m cur = Some (ns1 ++ n :: ns2) →
  ∃ k fuel', m !! k = Some n ∧ iter_from fuel' m (child_id n) = Some ns2.
Proof.
  induction ns1 as [|n1 ns1 IH]; intros fuel cur n ns2 Hi.
  - apply iter_from_cons in Hi as (k & fuel' & _ & Hk & Hi). eauto.
  - apply iter_from_cons in Hi as (k & fuel' & _ & _ & Hi). eauto.
Qed.

Lemma iter_from_None (m : gmap K (Node K)) fuel ns :
  iter_from fuel m None = Some ns → ns = [].
Proof. destruct fuel; cbn; congruence. Qed.

Lemma expired_prefix_after_expired e l :
  expired_prefix e (after_expired e l) = [].
Proof.
  induction l as [|[k v] l IH]; [done|]. cbn [after_expired].
  case_bool_decide as Hv; [done|]. cbn [expired_prefix].
  by rewrite bool_decide_eq_false_2.
Qed.

Lemma after_expired_twice e l :
  after_expired e (after_expired e l) = after_expired e l.
Proof.
  induction l as [|[k v] l IH]; [done|]. cbn [after_expired].
  case_bool_decide as Hv; [done|]. cbn [after_expired].
  by rewrite bool_decide_eq_false_2.
Qed.

(** The loop of [cleanup_sessions] takes one key out of [user_sessions]
    in every round that it counts, in whatever state it runs. *)
Lemma cleanup_loop_counts e fuel : ∀ (cnt : Z) sess d r d',
  cleanup_loop fuel e cnt sess d = (Ok r, d') →
  user_sessions d' ⊆ user_sessions d ∧
  Z.of_nat (size (user_sessions d')) + (r - cnt)
  = Z.of_nat (size (user_sessions d)) ∧ cnt ≤ r.
Proof.
  induction fuel as [|fuel IH]; intros cnt [node|] d r d'; cbn [cleanup_loop];
    try (intros [= <- <-]; split_and!; [done|lia|lia]);
    destruct (value node >? e);
    try (intros [= <- <-]; split_and!; [done|lia|lia]); try done.
  intros Hc. apply bind_inv_Ok in Hc as (? & d1 & Hu & Hc).
  apply bind_inv_Ok in Hc as ([] & d2 & Hd & Hc).
  apply bind_inv_Ok in Hc as (sess' & d3 & Hh & Hc).
  pose proof (on_dlset_user_sessions (unlink (id node)) d) as Hus1.
  rewrite Hu in Hus1. cbn [snd] in Hus1.
  pose proof (on_dlset_user_sessions head d2) as Hus3.
  rewrite Hh in Hus3. cbn [snd] in Hus3.
  unfold user_sessions_delitem in Hd.
  destruct (user_sessions d1 !! id node) as [ts|] eqn:Hts; [|done].
  injection Hd as <-. cbn [user_sessions] in Hus3.
  destruct (IH _ _ _ _ _ Hc) as (Hsub & Hsz & Hle).
  rewrite Hus3, Hus1 in Hsub, Hsz. rewrite Hus1 in Hts.
  rewrite map_size_delete_Some in Hsz by eauto.
  assert (size (user_sessions d) ≠ 0%nat).
  { intros Hz%map_size_empty_iff. by rewrite Hz in Hts. }
  split_and!; [|lia|lia].
  etransitivity; [exact Hsub|]. apply delete_subseteq.
Qed.

Lemma cleanup_sessions_counts e d r d' :
  cleanup_sessions e d = (Ok r, d') →
  user_sessions d' ⊆ user_sessions d ∧
  Z.of_nat (size (user_sessions d')) + r = Z.of_nat (size (user_sessions d)).
Proof.
  unfold cleanup_sessions. rewrite (bind_Ok (gets _) _ _ _ _ eq_refl).
  intros Hc. apply bind_inv_Ok in Hc as (sess & d1 & Hh & Hc).
  pose proof (on_dlset_user_sessions head d) as Hus. rewrite Hh in Hus.
  cbn [snd] in Hus. apply cleanup_loop_counts in Hc as (Hsub & Hsz & _).
  rewrite Hus in Hsub, Hsz. split; [done|lia].
Qed.

End reach_more.

(** ** The sessions and the index, whatever the ids *)

Section synced.
Context {K : Type} `{Countable K} `{Truthy K}.
Implicit Types (k : K) (v : Z) (s : DoubleLinkedSet K).
Implicit Types (n : Node K) (d : DoubleLinked K).

#[local] Instance frame_back_refl k : Reflexive (frame_back k).
Proof. intros s k' n _ Hn. eauto. Qed.

#[local] Instance frame_back_trans k : Transitive (frame_back k).
Proof.
  intros s1 s2 s3 H12 H23 k' n3 Hk Hn3.
  destruct (H23 k' n3 Hk Hn3) as (n2 & Hn2 & Hi2 & Hv2).
  destruct (H12 k' n2 Hk Hn2) as (n1 & Hn1 & Hi1 & Hv1).
  exists n1. split; [done|]. split; congruence.
Qed.

Lemma frame_back_map_pop k : preserves (frame_back k) (map_pop k).
Proof.
  intros s k' n Hk. unfold map_pop.
  destruct (_map s !! k); simpl; [|eauto].
  rewrite lookup_delete_ne by done. eauto.
Qed.

Lemma frame_back_map_setitem k n : preserves (frame_back k) (map_setitem k n).
Proof.
  intros s k' n' Hk. simpl. rewrite lookup_insert_ne by done. eauto.
Qed.

Lemma frame_back_set_parent_id k c p :
  preserves (frame_back k) (set_parent_id c p).
Proof.
  intros s k' n' Hk. unfold set_parent_id, mbind, M_bind, map_getitem.
  destruct (_map s !! c) as [nc|] eqn:Hc; simpl; [|eauto].
  destruct (decide (c = k')) as [->|Hne].
  - rewrite lookup_insert_eq. intros [= <-]. eauto.
  - rewrite lookup_insert_ne by done. eauto.
Qed.

Lemma frame_back_set_child_id k p c :
  preserves (frame_back k) (set_child_id p c).
Proof.
  intros s k' n' Hk. unfold set_child_id, mbind, M_bind, map_getitem.
  destruct (_map s !! p) as [np|] eqn:Hp; simpl; [|eauto].
  destruct (decide (p = k')) as [->|Hne].
  - rewrite lookup_insert_eq. intros [= <-]. eauto.
  - rewrite lookup_insert_ne by done. eauto.
Qed.

Lemma frame_back_set_head_id k (h : option K) :
  preserves (frame_back k) (set_head_id h).
Proof. intros s k' n' _ Hn. simpl in *. eauto. Qed.

Lemma frame_back_set_tail_id k (t : option K) :
  preserves (frame_back k) (set_tail_id t).
Proof. intros s k' n' _ Hn. simpl in *. eauto. Qed.

Ltac back_step :=
  first
    [ apply frame_back_map_pop | apply frame_back_map_setitem
    | apply frame_back_set_parent_id | apply frame_back_set_child_id
    | apply frame_back_set_head_id | apply frame_back_set_tail_id
    | assumption
    | apply preserves_when; [apply _ |]
    | apply preserves_ret; apply _
    | apply preserves_gets; apply _
    | apply preserves_bind; [apply _ | | intros ?]
    | match goal with |- preserves _ (match ?x with _ => _ end) => destruct x end ].

Lemma frame_back_splice k node_id node :
  preserves (frame_back k) (splice node_id node).
Proof. unfold splice. repeat back_step. Qed.

Lemma frame_back_add k v : preserves (frame_back k) (add k v).
Proof.
  unfold add. pose proof (frame_back_splice k k). repeat back_step.
Qed.

Lemma frame_back_unlink k : preserves (frame_back k) (unlink k).
Proof.
  unfold unlink. pose proof (frame_back_splice k k). repeat back_step.
Qed.

(** After [unlink], whatever its outcome, the key is not stored. *)
Lemma unlink_removes s k : _map (unlink k s).2 !! k = None.
Proof.
  destruct (_map s !! k) as [n|] eqn:Hk.
  - rewrite (unlink_present _ _ _ Hk).
    pose proof (stays_absent_splice k k n
                  (mkSet (delete k (_map s)) (_head_id s) (_tail_id s))) as Hs.
    unfold stays_absent in Hs. cbn [_map] in Hs.
    specialize (Hs (lookup_delete_eq _ _)).
    unfold mbind, M_bind.
    by destruct (splice k n _) as [[[]| |] s1].
  - by rewrite (unlink_absent _ _ Hk).
Qed.

Lemma holds_value_set_parent_id k v c p :
  hoare (holds_value k v) (set_parent_id c p) (λ _, True).
Proof.
  intros s Hs. unfold set_parent_id, mbind, M_bind, map_getitem.
  destruct (_map s !! c) as [nc|] eqn:Hc; [|done].
  split; [|done]. intros n. cbn [snd _map map_setitem modify].
  destruct (decide (c = k)) as [->|Hne].
  - rewrite lookup_insert_eq. intros [= <-]. exact (Hs nc Hc).
  - rewrite lookup_insert_ne by done. apply Hs.
Qed.

Lemma holds_value_set_child_id k v p c :
  hoare (holds_value k v) (set_child_id p c) (λ _, True).
Proof.
  intros s Hs. unfold set_child_id, mbind, M_bind, map_getitem.
  destruct (_map s !! p) as [np|] eqn:Hp; [|done].
  split; [|done]. intros n. cbn [snd _map map_setitem modify].
  destruct (decide (p = k)) as [->|Hne].
  - rewrite lookup_insert_eq. intros [= <-]. exact (Hs np Hp).
  - rewrite lookup_insert_ne by done. apply Hs.
Qed.

Lemma holds_value_set_head_id k v (h : option K) :
  hoare (holds_value k v) (set_head_id h) (λ _, True).
Proof. by intros s Hs. Qed.

Lemma holds_value_set_tail_id k v (t : option K) :
  hoare (holds_value k v) (set_tail_id t) (λ _, True).
Proof. by intros s Hs. Qed.

Lemma holds_value_map_setitem k v n :
  id n = k → value n = v →
  hoare (holds_value k v) (map_setitem k n) (λ _, True).
Proof.
  intros Hi Hv s Hs. split; [|done]. intros n'.
  cbn [snd _map map_setitem modify]. rewrite lookup_insert_eq.
  by intros [= <-].
Qed.

Ltac value_step :=
  first
    [ apply holds_value_set_parent_id | apply holds_value_set_child_id
    | apply holds_value_set_head_id | apply holds_value_set_tail_id
    | apply holds_value_map_setitem; assumption
    | apply hoare_gets
    | apply hoare_ret; done
    | apply hoare_when; intros ?
    | eapply hoare_bind; [| intros ? ?]
    | match goal with
      | |- hoare _ (match ?x with _ => _ end) _ => destruct x
      end ].

Lemma holds_value_splice k v node_id node :
  hoare (holds_value k v) (splice node_id node) (λ _, True).
Proof. unfold splice. repeat value_step. Qed.

Lemma holds_value_link_newest k v node :
  id node = k → value node = v →
  hoare (holds_value k v) (link_newest k node) (λ _, True).
Proof. intros Hi Hv. unfold link_newest. repeat value_step. Qed.

(** After [add], whatever its outcome, a node stored under the key has
    the value given. *)
Lemma add_holds_value s k v : ids_ok s → holds_value k v (add k v s).2.
Proof.
  intros Hs. rewrite add_unfold.
  rewrite (bind_Ok (gets _) _ _ _ _ eq_refl).
  destruct (_map s !! k) as [n0|] eqn:Hk.
  - rewrite bool_decide_eq_true_2 by eauto.
    pose proof (Hs k n0 Hk) as Hid. simpl in Hid.
    assert (hoare (holds_value k v)
              (node ← (splice k n0;; tl ← gets _tail_id;
                       mret (mkNode (id n0) v tl None));
               link_newest k node) (λ _, True)) as Hh.
    { eapply (hoare_bind _ _ _ (λ node, id node = k ∧ value node = v)).
      - eapply hoare_bind; [apply holds_value_splice|]. intros _ _.
        eapply hoare_bind; [apply hoare_gets|]. intros tl _.
        by apply hoare_ret.
      - intros node [Hi Hv]. by apply holds_value_link_newest. }
    unfold mbind, M_bind, map_pop. rewrite Hk.
    refine (proj1 (Hh (mkSet (delete k (_map s)) (_head_id s) (_tail_id s)) _)).
    intros n. cbn [_map]. by rewrite lookup_delete_eq.
  - rewrite bool_decide_eq_false_2 by (by intros [? ?]).
    assert (hoare (holds_value k v)
              (node ← (tl ← gets _tail_id; mret (mkNode k v tl None));
               link_newest k node) (λ _, True)) as Hh.
    { eapply (hoare_bind _ _ _ (λ node, id node = k ∧ value node = v)).
      - eapply hoare_bind; [apply hoare_gets|]. intros tl _.
        by apply hoare_ret.
      - intros node [Hi Hv]. by apply holds_value_link_newest. }
    refine (proj1 (Hh s _)). intros n. by rewrite Hk.
Qed.

Lemma synced_init : synced (Testable_init (K:=K)).
Proof. intros k n Hn. done. Qed.

Lemma synced_ids_ok d : synced d → ids_ok (dlset d).
Proof. intros Hd k n Hn. by destruct (Hd k n Hn). Qed.

(** One round of the loop of [run_benchmark], whatever the id drawn and
    whatever the outcome of [add]. *)
Lemma synced_activity u : hoare synced (activity u) (λ _, True).
Proof.
  intros d Hd. split; [|by destruct (activity u d).1].
  unfold activity.
  rewrite (bind_Ok timestamp _ d (_ts d + 1)
             (mkDoubleLinked (_ts d + 1) (user_sessions d) (dlset d)) eq_refl).
  rewrite (bind_Ok (user_sessions_setitem _ _) _ _ tt _ eq_refl).
  unfold optimize_session_search, on_dlset. cbn [dlset _ts user_sessions].
  pose proof (add_holds_value (dlset d) u (_ts d + 1) (synced_ids_ok d Hd))
    as Hu.
  pose proof (frame_back_add u (_ts d + 1) (dlset d)) as Hb.
  destruct (add u (_ts d + 1) (dlset d)) as [o s']. cbn [snd] in *.
  intros k n Hn. cbn [dlset user_sessions] in *.
  destruct (decide (k = u)) as [->|Hne].
  - destruct (Hu n Hn) as [Hi Hv]. by rewrite lookup_insert_eq, Hv.
  - destruct (Hb k n Hne Hn) as (n0 & Hn0 & Hi0 & Hv0).
    destruct (Hd k n0 Hn0) as [Hi Hus].
    rewrite lookup_insert_ne by done. split; congruence.
Qed.

Lemma synced_activities ids : hoare synced (activities ids) (λ _, True).
Proof.
  induction ids as [|u ids IH]; cbn [activities]; [by apply hoare_ret|].
  eapply hoare_bind; [apply synced_activity|]. intros _ _. exact IH.
Qed.

(** The loop of [cleanup_sessions] on a synced subject, whatever its
    outcome: the index stays synced, and the sessions above the cutoff
    stay. *)
Lemma cleanup_loop_safe e fuel : ∀ (cnt : Z) sess d,
  synced d →
  (∀ node, sess = Some node → _map (dlset d) !! id node = Some node) →
  synced (cleanup_loop fuel e cnt sess d).2 ∧
  ∀ k ts, user_sessions d !! k = Some ts → e < ts →
          user_sessions (cleanup_loop fuel e cnt sess d).2 !! k = Some ts.
Proof.
  induction fuel as [|fuel IH]; intros cnt [node|] d Hd Hsess;
    cbn [cleanup_loop]; try done;
    destruct (Z.gtb_spec (value node) e) as [Hgt|Hle]; try done.
  specialize (Hsess node eq_refl). destruct (Hd _ _ Hsess) as [_ Hus].
  unfold mbind, M_bind, on_dlset.
  pose proof (unlink_removes (dlset d) (id node)) as Hrm.
  pose proof (frame_back_unlink (id node) (dlset d)) as Hb.
  destruct (unlink (id node) (dlset d)) as [o1 s1]. cbn [snd] in Hrm, Hb.
  assert (synced (mkDoubleLinked (_ts d) (user_sessions d) s1)) as Hd1.
  { intros k n Hn. cbn [dlset user_sessions] in *.
    destruct (decide (k = id node)) as [->|Hne]; [congruence|].
    destruct (Hb k n Hne Hn) as (n0 & Hn0 & Hi0 & Hv0).
    destruct (Hd k n0 Hn0) as [Hi Hk]. split; congruence. }
  destruct o1 as [r| |]; [|done..].
  unfold user_sessions_delitem. cbn [user_sessions _ts dlset].
  rewrite Hus.
  set (d2 := mkDoubleLinked (_ts d) (delete (id node) (user_sessions d)) s1).
  assert (synced d2) as Hd2.
  { intros k n Hn. cbn [dlset user_sessions d2] in *.
    destruct (decide (k = id node)) as [->|Hne]; [congruence|].
    destruct (Hd1 k n Hn) as [Hi Hk]. cbn [user_sessions] in Hk.
    by rewrite lookup_delete_ne. }
  assert (∀ k ts, user_sessions d !! k = Some ts → e < ts →
                  user_sessions d2 !! k = Some ts) as Hlive.
  { intros k ts Hk Hts. cbn [user_sessions d2].
    rewrite lookup_delete_ne; [done|]. intros <-.
    rewrite Hus in Hk. injection Hk as <-. lia. }
  cbn [dlset d2].
  destruct (head s1) as [o3 s3] eqn:Hh.
  pose proof (head_state s1) as Hs3. rewrite Hh in Hs3. cbn [snd] in Hs3.
  subst s3. fold d2.
  destruct o3 as [sess'| |]; [|done..].
  destruct (IH (cnt + 1) sess' d2 Hd2) as [Hsy Hl].
  { intros node' ->. unfold head in Hh.
    rewrite (bind_Ok (gets _) _ _ _ _ eq_refl) in Hh.
    destruct (_head_id s1) as [h|]; [|done].
    destruct (truthy h); [|done].
    unfold mbind, M_bind, map_getitem in Hh.
    destruct (_map s1 !! h) as [nh|] eqn:Hnh; [|done].
    injection Hh as <-. cbn [dlset d2].
    by rewrite (proj1 (Hd2 h nh Hnh)). }
  split; [done|]. intros k ts Hk Hts. apply Hl; [|done]. by apply Hlive.
Qed.

End synced.

(** ** Further properties of the code

    What the benchmark subjects do beyond the statements of the
    specification: the log of [DequeLog], the run of the benchmark, and
    how the methods of the index compose. *)

Section further.
Context {K : Type} `{Countable K} `{Truthy K}.
Implicit Types (l : list (K * Z)) (k : K) (v : Z) (s : DoubleLinkedSet K).
Implicit Types (n : Node K) (d : DoubleLinked K) (q : DequeLog.t K).
Implicit Types (ids : list K) (e : Z).

Lemma stamped_zip (t : Z) ids :
  stamped t ids = zip ids (seqZ (t + 1) (Z.of_nat (length ids))).
Proof.
  revert t. induction ids as [|u ids IH]; intros t; [done|].
  cbn [stamped length]. rewrite seqZ_cons by lia. cbn [zip zip_with].
  f_equal. rewrite IH. do 2 f_equal; lia.
Qed.

Lemma iter_from_length s fuel ns :
  iter_from fuel (_map s) (_head_id s) = Some ns →
  (length ns ≤ __len__ s)%nat.
Proof.
  intros Hi. unfold __len__.
  destruct (iter_from_walk _ _ _ _ Hi) as (ks & Hw & <-).
  rewrite <- (size_list_to_set (C:=gset K) ks) by (by eapply walk_NoDup).
  rewrite <- (size_dom (D:=gset K)). apply subseteq_size.
  intros k Hk. apply elem_of_list_to_set in Hk. apply elem_of_dom.
  by eapply walk_elem.
Qed.

Lemma benchmark_states ids :
  Forall (λ u, truthy u = true) ids →
  ∃ d l q,
    activities ids Testable_init = (Ok tt, d) ∧ mirrors d l ∧
    DequeLog.activities ids DequeLog.__init__ = (Ok tt, q) ∧ logged q ∧
    _ts d = Z.of_nat (length ids) ∧
    user_sessions d = list_to_map (reverse (stamped 0 ids)) ∧
    DequeLog.user_sessions q = user_sessions d.
Proof.
  intros Hids.
  destruct (mirrors_activities ids Testable_init [] mirrors_init Hids)
    as (d & l & Ha & Hm & Hts & Hus).
  exists d, l, (DequeLog.activities ids DequeLog.__init__).2.
  cbn [Testable_init _ts user_sessions] in Hts, Hus.
  rewrite (right_id_L ∅ (∪)) in Hus.
  split_and!; [done|done| |by apply logged_activities, logged_init|lia|done|].
  - by rewrite DequeLog_activities_eq.
  - rewrite DequeLog_activities_eq, Hus. cbn.
    by rewrite (right_id_L ∅ (∪)).
Qed.

Lemma after_expired_head e l u t rest :
  after_expired e l = (u, t) :: rest → e < t.
Proof.
  induction l as [|[k v] l IH]; [done|]. cbn [after_expired].
  case_bool_decide as Hv; [done|]. intros [= -> -> _]. lia.
Qed.

Lemma elem_of_popped e l x : x ∈ popped e l → x ∈ l.
Proof.
  intros Hx. rewrite (popped_rest e l). apply elem_of_app. by left.
Qed.

(** X1.  [DequeLog.cleanup_sessions], in every state: it returns; a
    session is left, with its timestamp, exactly when it was there and
    its timestamp is above the cutoff or no popped log entry is of its
    user; the count returned is the number of sessions removed; the clock
    is left as it was. *)
Theorem DequeLog_cleanup_removes_only_expired e q :
  ∃ r q', DequeLog.cleanup_sessions e q = (Ok r, q') ∧
          (∀ u ts, DequeLog.user_sessions q' !! u = Some ts ↔
                   DequeLog.user_sessions q !! u = Some ts ∧
                   (e < ts ∨
                    u ∉ (expired_prefix e (DequeLog.activity_log q)
                         ++ take 1 (after_expired e (DequeLog.activity_log q))
                        ).*1)) ∧
          Z.of_nat (size (DequeLog.user_sessions q')) + r
          = Z.of_nat (size (DequeLog.user_sessions q)) ∧
          DequeLog._ts q' = DequeLog._ts q.
Proof.
  destruct (cleanup_loop_spec e (DequeLog.activity_log q)
              (DequeLog.user_sessions q) 0)
    as (us' & Heq & Hsub & Hlive & Hdel).
  pose proof (cleanup_loop_others e (DequeLog.activity_log q)
                (DequeLog.user_sessions q) 0) as Hoth.
  unfold DequeLog.cleanup_sessions. rewrite Heq in *.
  eexists _, _. split; [reflexivity|].
  cbn [DequeLog.user_sessions DequeLog._ts fst snd] in *.
  split_and!; [|lia|done].
  intros u ts. fold (popped e (DequeLog.activity_log q)). split.
  - intros Hu. pose proof (lookup_weaken _ _ _ _ Hu Hsub) as Hu0.
    split; [done|]. destruct (decide (e < ts)) as [|Hts]; [by left|right].
    intros Hin. rewrite (Hdel u ts Hin Hu0) in Hu; [done|lia].
  - intros [Hu [Hts|Hin]]; [by apply Hlive|]. by rewrite Hoth.
Qed.

(** X2.  [DequeLog.cleanup_sessions], in every state: the loop pops the
    leading log entries with a timestamp up to the cutoff and the entry
    after them, at which it breaks; the rest of the log stays. *)
Theorem DequeLog_cleanup_pops_one_more e q :
  DequeLog.activity_log (DequeLog.cleanup_sessions e q).2
  = tail (after_expired e (DequeLog.activity_log q)) ∧
  DequeLog.activity_log q
  = expired_prefix e (DequeLog.activity_log q)
    ++ take 1 (after_expired e (DequeLog.activity_log q))
    ++ DequeLog.activity_log (DequeLog.cleanup_sessions e q).2.
Proof.
  destruct (cleanup_loop_spec e (DequeLog.activity_log q)
              (DequeLog.user_sessions q) 0) as (us' & Heq & _).
  unfold DequeLog.cleanup_sessions. rewrite Heq.
  cbn [snd DequeLog.activity_log]. split; [done|].
  rewrite (assoc_L (++)). apply popped_rest.
Qed.

(** X3.  The run of the benchmark on [DequeLog], for any user ids, the
    falsy ones too: after the activities, the cleanup removes exactly the
    sessions with a timestamp up to the cutoff and returns their
    number. *)
Theorem DequeLog_benchmark_cleanup ids e :
  ∃ q q',
    DequeLog.activities ids DequeLog.__init__ = (Ok tt, q) ∧
    DequeLog.cleanup_sessions e q
    = (Ok (Z.of_nat (size (DequeLog.user_sessions q))
           - Z.of_nat (size (live e (DequeLog.user_sessions q)))), q') ∧
    DequeLog.user_sessions q' = live e (DequeLog.user_sessions q).
Proof.
  exists (DequeLog.activities ids DequeLog.__init__).2.
  set (q := (DequeLog.activities ids DequeLog.__init__).2).
  assert (logged q) as Hq by apply logged_activities, logged_init.
  destruct (logged_cleanup_loop e q Hq) as (us' & Heq & Hus').
  eexists. split_and!.
  - subst q. by rewrite DequeLog_activities_eq.
  - unfold DequeLog.cleanup_sessions. rewrite Heq, Hus'. reflexivity.
  - done.
Qed.

(** X4.  The loop of [run_benchmark] on [DequeLog]: after the activities
    of the user ids drawn, the clock is their number, the log holds every
    activity in order with the timestamps 1, 2, ..., and [user_sessions]
    maps every user to the timestamp of its last activity. *)
Theorem DequeLog_activities_log ids :
  DequeLog.activities ids DequeLog.__init__
  = (Ok tt,
     DequeLog.mk (Z.of_nat (length ids))
       (list_to_map (reverse (zip ids (seqZ 1 (Z.of_nat (length ids))))))
       (zip ids (seqZ 1 (Z.of_nat (length ids))))).
Proof.
  rewrite DequeLog_activities_eq. cbn. rewrite stamped_zip.
  by rewrite (right_id_L ∅ (∪)).
Qed.

(** X5.  [DequeLog] after the activities of a run and a cleanup that
    broke at the log entry [(u, t)], the first one above the cutoff: the
    entry is gone from the log, so when the user has no later activity
    its session, which is not expired, outlives every further cleanup,
    whatever the cutoff. *)
Theorem DequeLog_misses_session_it_broke_at ids e u t rest q :
  DequeLog.activities ids DequeLog.__init__ = (Ok tt, q) →
  after_expired e (DequeLog.activity_log q) = (u, t) :: rest →
  u ∉ rest.*1 →
  ∃ r q1, DequeLog.cleanup_sessions e q = (Ok r, q1) ∧
          DequeLog.activity_log q1 = rest ∧
          e < t ∧ DequeLog.user_sessions q1 !! u = Some t ∧
          ∀ e', DequeLog.user_sessions (DequeLog.cleanup_sessions e' q1).2 !! u
                = Some t.
Proof.
  rewrite DequeLog_activities_eq. intros [= <-].
  cbn [DequeLog.__init__ DequeLog._ts DequeLog.user_sessions
       DequeLog.activity_log app].
  set (log0 := stamped 0 ids). intros Hafter Hu.
  rewrite (right_id_L ∅ (∪)).
  assert ((list_to_map (reverse log0) : gmap K Z) !! u = Some t) as Hus.
  { rewrite (expired_split e log0), Hafter, reverse_app, reverse_cons.
    rewrite !list_to_map_app, <- (assoc_L (∪)).
    rewrite lookup_union_r.
    - apply lookup_union_Some_l. cbn. apply lookup_insert_eq.
    - apply not_elem_of_list_to_map_1. rewrite fmap_reverse.
      by rewrite elem_of_reverse. }
  destruct (cleanup_loop_spec e log0 (list_to_map (reverse log0)) 0)
    as (us' & Heq & _ & Hlive & _).
  unfold DequeLog.cleanup_sessions at 1.
  cbn [DequeLog._ts DequeLog.user_sessions DequeLog.activity_log].
  rewrite Heq, Hafter. cbn [tail].
  pose proof (after_expired_head _ _ _ _ _ Hafter) as Hlt.
  pose proof (Hlive u t Hus Hlt) as Hus'.
  eexists _, _. split; [reflexivity|].
  cbn [DequeLog._ts DequeLog.user_sessions DequeLog.activity_log].
  split_and!; [done|done|done|]. intros e'.
  unfold DequeLog.cleanup_sessions.
  cbn [DequeLog._ts DequeLog.user_sessions DequeLog.activity_log].
  pose proof (cleanup_loop_others e' rest us' 0 u) as Hoth.
  destruct (DequeLog.cleanup_loop e' rest us' 0) as [[r2 us2] log2].
  cbn [snd fst DequeLog.user_sessions] in *. rewrite Hoth; [done|].
  intros Hin. apply Hu. apply list_elem_of_fmap in Hin as (x & -> & Hx).
  apply list_elem_of_fmap. exists x. split; [done|].
  by eapply elem_of_popped.
Qed.

(** X6.  The loop of [run_benchmark] on [DoubleLinked], for truthy user
    ids: it returns, and afterwards the index holds exactly the sessions
    of [user_sessions], every user once, in the order of their
    timestamps, and I1-I3 hold. *)
Theorem DoubleLinked_activities_mirror ids :
  Forall (λ u, truthy u = true) ids →
  ∃ d l, activities ids Testable_init = (Ok tt, d) ∧
         valid (dlset d) ∧ entries (dlset d) = Some l ∧
         NoDup l.*1 ∧ increasing l ∧
         list_to_map l = user_sessions d ∧
         user_sessions d
         = list_to_map (reverse (zip ids (seqZ 1 (Z.of_nat (length ids))))) ∧
         _ts d = Z.of_nat (length ids).
Proof.
  intros Hids.
  destruct (benchmark_states ids Hids)
    as (d & l & q & Ha & Hm & _ & _ & Hts & Hus & _).
  destruct Hm as (Hr & Ht & Hl & Hinc & _). exists d, l.
  split_and!; [done|by eapply repr_valid|by apply entries_repr|
               by destruct Hr|done|done| |done].
  by rewrite Hus, stamped_zip.
Qed.

(** X7.  The run of the benchmark on [DoubleLinked], for truthy user
    ids: the cleanup removes exactly the sessions with a timestamp up to
    the cutoff and returns their number; the index then holds the
    sessions that are left. *)
Theorem DoubleLinked_benchmark_cleanup ids e :
  Forall (λ u, truthy u = true) ids →
  ∃ d d' l,
    activities ids Testable_init = (Ok tt, d) ∧
    cleanup_sessions e d
    = (Ok (Z.of_nat (size (user_sessions d))
           - Z.of_nat (size (live e (user_sessions d)))), d') ∧
    user_sessions d' = live e (user_sessions d) ∧
    entries (dlset d') = Some l ∧ list_to_map l = user_sessions d' ∧
    valid (dlset d').
Proof.
  intros Hids.
  destruct (benchmark_states ids Hids) as (d & l & q & Ha & Hm & _).
  destruct (mirrors_cleanup e d l Hm) as (d' & Hc & Hm' & Hus').
  destruct Hm' as (Hr' & _ & Hl' & _).
  exists d, d', (filter (λ kv, e < kv.2) l).
  split_and!; [done|done|done|by apply entries_repr|done|by eapply repr_valid].
Qed.

(** X8.  The two strategies agree on truthy user ids: after the same
    activities [DequeLog] and [DoubleLinked] hold the same sessions, and
    for every cutoff their cleanups return the same number and leave the
    same sessions. *)
Theorem strategies_agree ids e :
  Forall (λ u, truthy u = true) ids →
  ∃ d q r d' q',
    activities ids Testable_init = (Ok tt, d) ∧
    DequeLog.activities ids DequeLog.__init__ = (Ok tt, q) ∧
    DequeLog.user_sessions q = user_sessions d ∧
    cleanup_sessions e d = (Ok r, d') ∧
    DequeLog.cleanup_sessions e q = (Ok r, q') ∧
    DequeLog.user_sessions q' = user_sessions d'.
Proof.
  intros Hids.
  destruct (benchmark_states ids Hids)
    as (d & l & q & Ha & Hm & Hq & Hlog & _ & _ & Hus).
  destruct (mirrors_cleanup e d l Hm) as (d' & Hc & _ & Hus').
  destruct (logged_cleanup_loop e q Hlog) as (us' & Heq & Hus2).
  exists d, q, (Z.of_nat (size (user_sessions d))
                - Z.of_nat (size (live e (user_sessions d)))), d',
    (DequeLog.mk (DequeLog._ts q) us'
       (tail (after_expired e (DequeLog.activity_log q)))).
  split_and!; [done|done|done|exact Hc| |].
  - unfold DequeLog.cleanup_sessions. rewrite Heq. do 2 f_equal.
    by rewrite Hus2, Hus.
  - cbn [DequeLog.user_sessions]. by rewrite Hus', Hus2, Hus.
Qed.

(** X9.  The run of the benchmark on [DoubleLinked], for any user ids,
    the falsy ones too, and whatever the calls raise: after the
    activities every node of the index is stored under its id and has the
    timestamp of its user in [user_sessions]; the cleanup keeps that, and
    it removes no session with a timestamp above the cutoff. *)
Theorem DoubleLinked_cleanup_keeps_live_sessions ids e :
  synced (activities ids Testable_init).2 ∧
  synced (cleanup_sessions e (activities ids Testable_init).2).2 ∧
  ∀ k ts,
    user_sessions (activities ids Testable_init).2 !! k = Some ts → e < ts →
    user_sessions (cleanup_sessions e (activities ids Testable_init).2).2 !! k
    = Some ts.
Proof.
  pose proof (proj1 (synced_activities ids Testable_init synced_init)) as Hd.
  set (d := (activities ids Testable_init).2) in *.
  split; [done|]. unfold cleanup_sessions.
  rewrite (bind_Ok (gets _) _ _ _ _ eq_refl).
  unfold mbind, M_bind, on_dlset.
  destruct (head (dlset d)) as [o s1] eqn:Hh.
  pose proof (head_state (dlset d)) as Hs1. rewrite Hh in Hs1.
  cbn [snd] in Hs1. subst s1.
  assert (mkDoubleLinked (_ts d) (user_sessions d) (dlset d) = d) as ->
    by (by destruct d).
  destruct o as [sess| |]; [|done..].
  apply cleanup_loop_safe; [done|].
  intros node ->. unfold head in Hh.
  rewrite (bind_Ok (gets _) _ _ _ _ eq_refl) in Hh.
  destruct (_head_id (dlset d)) as [h|]; [|done].
  destruct (truthy h); [|done].
  unfold mbind, M_bind, map_getitem in Hh.
  destruct (_map (dlset d) !! h) as [nh|] eqn:Hnh; [|done].
  injection Hh as <-. by rewrite (proj1 (Hd h nh Hnh)).
Qed.

(** X10.  [DoubleLinked.cleanup_sessions], in every state: the loop ends
    (the call returns or raises [KeyError]), and when it returns, the
    sessions it leaves are among the ones it found, their number went
    down by the count returned, and the clock is as it was. *)
Theorem cleanup_sessions_ends_and_counts e d :
  (cleanup_sessions e d).1 ≠ OutOfFuel ∧
  ∀ r d', cleanup_sessions e d = (Ok r, d') →
    user_sessions d' ⊆ user_sessions d ∧
    Z.of_nat (size (user_sessions d')) + r
    = Z.of_nat (size (user_sessions d)) ∧
    _ts d' = _ts d.
Proof.
  split; [apply cleanup_sessions_terminates|]. intros r d' Hc.
  destruct (cleanup_sessions_counts e d r d' Hc) as [Hsub Hsz].
  split_and!; [done|done|].
  pose proof (cleanup_sessions_ts e d) as Hts. by rewrite Hc in Hts.
Qed.

(** X11.  In a state satisfying I1-I3 with truthy keys that
    [user_sessions] knows, a second [cleanup_sessions] with the same
    cutoff returns 0 and changes nothing. *)
Theorem cleanup_sessions_twice e d :
  valid (dlset d) → truthy_keys (dlset d) →
  (∀ k, is_Some (_map (dlset d) !! k) → is_Some (user_sessions d !! k)) →
  ∃ r d', cleanup_sessions e d = (Ok r, d') ∧
          cleanup_sessions e d' = (Ok 0, d').
Proof.
  intros Hv Ht Hus. destruct (valid_repr _ Hv) as [l Hr].
  pose proof (repr_all_truthy _ l Hr Ht) as Hl.
  assert (∀ k, k ∈ l.*1 → is_Some (user_sessions d !! k)) as Hus0.
  { intros k Hk. by apply Hus, (repr_lookup _ l k Hr). }
  destruct (cleanup_sessions_chain e l d Hr Hl Hus0)
    as (d' & Hc & Hr' & Hus').
  destruct (cleanup_sessions_chain e (after_expired e l) d' Hr')
    as (d2 & Hc2 & Hr2 & Hus2).
  { by apply after_expired_truthy. }
  { intros k Hk. rewrite Hus'.
    destruct Hr as (Hnd & _). rewrite (expired_split e l) in Hnd, Hus0.
    rewrite fmap_app in Hnd, Hus0. apply NoDup_app in Hnd as (_ & Hd & _).
    assert (is_Some (user_sessions d !! k)) as [ts Hts].
    { apply Hus0, elem_of_app. by right. }
    exists ts. rewrite lookup_foldr_delete_not_elem_of; [done|].
    intros Hin. by apply (Hd k Hin). }
  rewrite expired_prefix_after_expired in Hc2, Hus2.
  rewrite after_expired_twice in Hr2. cbn in Hc2, Hus2.
  pose proof (cleanup_sessions_ts e d') as Hts2. rewrite Hc2 in Hts2.
  cbn [snd] in Hts2. pose proof (repr_inj _ _ _ Hr2 Hr') as Hdl.
  eexists _, d'. split; [exact Hc|]. rewrite Hc2. f_equal.
  destruct d', d2. cbn in *. congruence.
Qed.

(** X12.  [unlink], in every state and whatever its outcome, leaves every
    node stored under another key in place with its id and value; when it
    returns, the keys of the dict are the ones it had without [k], and
    [len(self)] is one less for a key that was stored and the same for a
    key that was not. *)
Theorem unlink_touches_only_its_key s k :
  (∀ k' n, k' ≠ k → _map s !! k' = Some n →
     ∃ n', _map (unlink k s).2 !! k' = Some n' ∧
           id n' = id n ∧ value n' = value n) ∧
  (∀ r s', unlink k s = (Ok r, s') →
     dom (_map s') = dom (_map s) ∖ {[k]} ∧
     __len__ s' = if bool_decide (is_Some (_map s !! k))
                  then pred (__len__ s) else __len__ s).
Proof.
  split.
  - intros k' n Hne Hn. exact (frame_unlink k s k' n Hne Hn).
  - intros r s' Hu. pose proof (unlink_dom _ _ _ _ Hu) as Hd.
    split; [done|]. unfold __len__.
    rewrite <- (size_dom (D:=gset K)), Hd, <- dom_delete_L, size_dom.
    destruct (_map s !! k) as [n|] eqn:Hk.
    + rewrite bool_decide_eq_true_2 by eauto.
      apply map_size_delete_Some. eauto.
    + rewrite bool_decide_eq_false_2 by (by intros [? ?]).
      by rewrite delete_id.
Qed.

(** X13.  Whenever [add] returns, for any key, a falsy one too: the key is
    stored with the value given, [_tail_id] is the key, and [_head_id] is
    a truthy id or the key itself. *)
Theorem add_stores_key_as_newest s k v s' :
  add k v s = (Ok tt, s') →
  _tail_id s' = Some k ∧
  value <$> _map s' !! k = Some v ∧
  (is_true (_head_id s') = true ∨ _head_id s' = Some k).
Proof.
  rewrite add_unfold. rewrite (bind_Ok (gets _) _ _ _ _ eq_refl).
  intros Ha. apply bind_inv_Ok in Ha as (node & s1 & Hn & Hl).
  assert (value node = v) as <-.
  { case_bool_decide.
    - apply bind_inv_Ok in Hn as (n0 & s2 & _ & Hn).
      apply bind_inv_Ok in Hn as ([] & s3 & _ & Hn).
      rewrite (bind_Ok (gets _) _ _ _ _ eq_refl) in Hn. by injection Hn as <-.
    - rewrite (bind_Ok (gets _) _ _ _ _ eq_refl) in Hn. by injection Hn as <-. }
  eapply link_newest_stores. exact Hl.
Qed.

(** X14.  Round trip: in a state satisfying I1-I3 with truthy keys,
    [add] of a key that is not stored, followed by [unlink] of that key,
    gives back the state as it was, for a falsy key too. *)
Theorem add_then_unlink_restores s k v :
  valid s → truthy_keys s → _map s !! k = None →
  ∃ s1, add k v s = (Ok tt, s1) ∧ unlink k s1 = (Ok None, s).
Proof.
  intros Hv Ht Hk. destruct (valid_repr s Hv) as [l Hr].
  pose proof (repr_all_truthy s l Hr Ht) as Hl.
  assert (k ∉ l.*1) as Hkl.
  { intros Hin. apply (repr_lookup s l k Hr) in Hin as [n Hn]. congruence. }
  destruct (add_repr s l k v Hr Hl) as (s1 & Ha & Hr1).
  rewrite (remove_key_absent _ _ Hkl) in Hr1.
  destruct (unlink_repr_others s1 _ k Hr1) as (s2 & Hu & Hr2).
  { by rewrite remove_key_snoc, (remove_key_absent _ _ Hkl). }
  rewrite remove_key_snoc, (remove_key_absent _ _ Hkl) in Hr2.
  exists s1. split; [done|]. by rewrite (repr_inj s s2 l Hr Hr2).
Qed.

(** X15.  In a state satisfying I1-I3 with truthy keys, [add] of a key
    twice is [add] of it with the second value: both return and leave
    the same state. *)
Theorem add_twice_is_last_add s k v v' :
  valid s → truthy_keys s →
  ∃ s1 s2, add k v s = (Ok tt, s1) ∧ add k v' s1 = (Ok tt, s2) ∧
           add k v' s = (Ok tt, s2).
Proof.
  intros Hv Ht. destruct (valid_repr s Hv) as [l Hr].
  pose proof (repr_all_truthy s l Hr Ht) as Hl.
  destruct (add_repr s l k v Hr Hl) as (s1 & Ha & Hr1).
  destruct (add_repr s l k v' Hr Hl) as (s2 & Ha' & Hr2).
  destruct (add_repr_others s1 _ k v' Hr1) as (s3 & Ha3 & Hr3).
  { rewrite remove_key_snoc, remove_key_twice. by apply remove_key_truthy. }
  rewrite remove_key_snoc, remove_key_twice in Hr3.
  exists s1, s3. split_and!; [done|done|].
  by rewrite (repr_inj s3 s2 _ Hr3 Hr2).
Qed.

(** X16.  In a state satisfying I1-I3 with truthy keys, [add] moves the
    entry of the key to the end of what iteration yields, or puts it
    there, and keeps the other entries in the order they had. *)
Theorem add_moves_key_to_end s k v :
  valid s → truthy_keys s →
  ∃ l s', entries s = Some l ∧ add k v s = (Ok tt, s') ∧
          entries s' = Some (remove_key k l ++ [(k, v)]) ∧ valid s'.
Proof.
  intros Hv Ht. destruct (valid_repr s Hv) as [l Hr].
  pose proof (repr_all_truthy s l Hr Ht) as Hl.
  destruct (add_repr s l k v Hr Hl) as (s' & Ha & Hr').
  exists l, s'. split_and!; [by apply entries_repr|done|
                             by apply entries_repr|by eapply repr_valid].
Qed.

(** X17.  In every state that [add] and [unlink] reach from the empty
    index, iteration does not go past a falsy id: every node it yields
    before the last one has a truthy id. *)
Theorem iteration_stops_at_falsy_id s ns1 n ns2 :
  reachable s → __iter__ s = Some (ns1 ++ n :: ns2) → ns2 ≠ [] →
  truthy (id n) = true.
Proof.
  intros Hs Hi Hns2.
  apply iter_from_split in Hi as (k & fuel & Hk & Hi).
  rewrite (reachable_ids_ok s Hs k n Hk).
  destruct (truthy k) eqn:Htk; [done|].
  rewrite (reachable_falsy_last s Hs k n Hk Htk) in Hi.
  by apply iter_from_None in Hi.
Qed.

(** X18.  What [add] and [unlink] keep in every state they reach from the
    empty index, falsy keys and raised exceptions included: a node is
    stored under its own id, and the node of a falsy key has no
    [child_id]. *)
Theorem reachable_nodes s k n :
  reachable s → _map s !! k = Some n →
  id n = k ∧ (truthy k = false → child_id n = None).
Proof.
  intros Hs Hk. split.
  - exact (reachable_ids_ok s Hs k n Hk).
  - exact (reachable_falsy_last s Hs k n Hk).
Qed.

(** X19.  In every state, when the generator of [__iter__] ends, it has
    yielded at most [len(self)] nodes. *)
Theorem iteration_yields_at_most_len s fuel ns :
  iter_from fuel (_map s) (_head_id s) = Some ns →
  __iter__ s = Some ns ∧ (length ns ≤ __len__ s)%nat.
Proof.
  intros Hi. split; [by eapply iter_from_enough|by eapply iter_from_length].
Qed.

End further.

(** *** The further properties on concrete runs *)

Lemma DoubleLinked_activities_mirror_witness :
  ∃ (d : DoubleLinked Z) l,
    activities [5; 3; 5] Testable_init = (Ok tt, d) ∧
    valid (dlset d) ∧ entries (dlset d) = Some l ∧
    NoDup l.*1 ∧ increasing l ∧
    list_to_map l = user_sessions d ∧
    user_sessions d = list_to_map (reverse (zip [5; 3; 5] (seqZ 1 3))) ∧
    _ts d = 3.
Proof.
  apply (DoubleLinked_activities_mirror [5; 3; 5]). repeat constructor.
Defined.

Lemma DoubleLinked_benchmark_cleanup_witness :
  ∃ (d d' : DoubleLinked Z) l,
    activities [5; 3; 5] Testable_init = (Ok tt, d) ∧
    cleanup_sessions 2 d
    = (Ok (Z.of_nat (size (user_sessions d))
           - Z.of_nat (size (live 2 (user_sessions d)))), d') ∧
    user_sessions d' = live 2 (user_sessions d) ∧
    entries (dlset d') = Some l ∧ list_to_map l = user_sessions d' ∧
    valid (dlset d').
Proof.
  apply (DoubleLinked_benchmark_cleanup [5; 3; 5] 2). repeat constructor.
Defined.

Lemma strategies_agree_witness :
  ∃ (d : DoubleLinked Z) (q : DequeLog.t Z) r d' q',
    activities [5; 3; 5] Testable_init = (Ok tt, d) ∧
    DequeLog.activities [5; 3; 5] DequeLog.__init__ = (Ok tt, q) ∧
    DequeLog.user_sessions q = user_sessions d ∧
    cleanup_sessions 2 d = (Ok r, d') ∧
    DequeLog.cleanup_sessions 2 q = (Ok r, q') ∧
    DequeLog.user_sessions q' = user_sessions d'.
Proof.
  apply (strategies_agree [5; 3; 5] 2). repeat constructor.
Defined.

Lemma unlink_touches_only_its_key_witness :
  ∃ n', _map (unlink 5 s_5_0).2 !! 0 = Some n' ∧ id n' = 0 ∧ value n' = 2.
Proof.
  apply (proj1 (unlink_touches_only_its_key s_5_0 5) 0
           (mkNode 0 2 (Some 5) None)); [lia|reflexivity].
Defined.

Lemma add_stores_key_as_newest_witness :
  _tail_id (add 0 3 s_5_0).2 = Some 0 ∧
  value <$> _map (add 0 3 s_5_0).2 !! 0 = Some 3 ∧
  (is_true (_head_id (add 0 3 s_5_0).2) = true ∨
   _head_id (add 0 3 s_5_0).2 = Some 0).
Proof.
  apply (add_stores_key_as_newest s_5_0 0 3). reflexivity.
Defined.

Lemma add_then_unlink_restores_witness :
  ∃ s1, add "D" 5 (dlset d_BCA) = (Ok tt, s1) ∧
        unlink "D" s1 = (Ok None, dlset d_BCA).
Proof.
  apply (add_then_unlink_restores (dlset d_BCA) "D" 5);
    [apply (bool_decide_unpack _); vm_compute; exact I..|reflexivity].
Defined.

Lemma add_twice_is_last_add_witness :
  ∃ s1 s2, add "C" 5 (dlset d_BCA) = (Ok tt, s1) ∧
           add "C" 6 s1 = (Ok tt, s2) ∧
           add "C" 6 (dlset d_BCA) = (Ok tt, s2).
Proof.
  apply (add_twice_is_last_add (dlset d_BCA) "C" 5 6);
    apply (bool_decide_unpack _); vm_compute; exact I.
Defined.

Lemma add_moves_key_to_end_witness :
  ∃ l s', entries (dlset d_BCA) = Some l ∧
          add "C" 5 (dlset d_BCA) = (Ok tt, s') ∧
          entries s' = Some (remove_key "C" l ++ [("C", 5)]) ∧ valid s'.
Proof.
  apply (add_moves_key_to_end (dlset d_BCA) "C" 5);
    apply (bool_decide_unpack _); vm_compute; exact I.
Defined.

Lemma cleanup_sessions_ends_and_counts_witness :
  user_sessions (cleanup_sessions 2 d_BCA).2 ⊆ user_sessions d_BCA ∧
  Z.of_nat (size (user_sessions (cleanup_sessions 2 d_BCA).2)) + 1
  = Z.of_nat (size (user_sessions d_BCA)) ∧
  _ts (cleanup_sessions 2 d_BCA).2 = _ts d_BCA.
Proof.
  apply (proj2 (cleanup_sessions_ends_and_counts 2 d_BCA)). reflexivity.
Defined.

Lemma cleanup_sessions_twice_witness :
  ∃ r d', cleanup_sessions 2 d_BCA = (Ok r, d') ∧
          cleanup_sessions 2 d' = (Ok 0, d').
Proof.
  apply (cleanup_sessions_twice 2 d_BCA);
    [apply (bool_decide_unpack _); vm_compute; exact I..|].
  assert (dom (_map (dlset d_BCA)) ⊆ dom (user_sessions d_BCA)) as Hsub.
  { apply (bool_decide_unpack _). vm_compute. exact I. }
  intros k Hk. apply elem_of_dom, Hsub, elem_of_dom. exact Hk.
Defined.

Lemma iteration_stops_at_falsy_id_witness :
  truthy (id (mkNode 5 1 None (Some 0))) = true.
Proof.
  apply (iteration_stops_at_falsy_id s_5_0 [] (mkNode 5 1 None (Some 0))
           [mkNode 0 2 (Some 5) None]);
    [exact reachable_s_5_0|reflexivity|discriminate].
Defined.

Lemma reachable_nodes_witness :
  id (mkNode 0 2 (Some 5) None) = 0 ∧
  (truthy 0 = false → child_id (mkNode 0 2 (Some 5) None) = None).
Proof.
  apply (reachable_nodes s_5_0 0 (mkNode 0 2 (Some 5) None));
    [exact reachable_s_5_0|reflexivity].
Defined.

Lemma iteration_yields_at_most_len_witness :
  __iter__ s_5_0 = Some [mkNode 5 1 None (Some 0); mkNode 0 2 (Some 5) None] ∧
  (length [mkNode 5 1 None (Some 0); mkNode 0 2 (Some 5) None]
   ≤ __len__ s_5_0)%nat.
Proof.
  apply (iteration_yields_at_most_len s_5_0 7). reflexivity.
Defined.


Lemma DequeLog_misses_session_it_broke_at_witness :
  ∃ r q1,
    DequeLog.cleanup_sessions 1
      (DequeLog.activities [7; 0] (DequeLog.__init__ (K:=Z))).2
    = (Ok r, q1) ∧
    DequeLog.activity_log q1 = [] ∧
    1 < 2 ∧ DequeLog.user_sessions q1 !! 0 = Some 2 ∧
    ∀ e', DequeLog.user_sessions (DequeLog.cleanup_sessions e' q1).2 !! 0
          = Some 2.
Proof.
  apply (DequeLog_misses_session_it_broke_at [7; 0] 1 0 2 []);
    [reflexivity|reflexivity|apply not_elem_of_nil].
Defined.

Lemma DoubleLinked_cleanup_keeps_live_sessions_witness :
  user_sessions
    (cleanup_sessions 2 (activities [5; 0; 7] Testable_init).2).2 !! 7
  = Some 3.
Proof.
  apply (proj2 (proj2 (DoubleLinked_cleanup_keeps_live_sessions [5; 0; 7] 2)));
    [reflexivity|lia].
Defined.
